(** * Distributed chunked upload: client-side coordination

  A shallow embedding of the upload coordination code of the forum client:

  - [client/src/components/distributed-file-uploader.tsx]
    (chunk planning, server selection, per-chunk retry loop, session status,
    the rendered summary);
  - [client/src/components/file-upload.tsx]
    (size gate, checksum, resume probe, single-request upload and how it
    settles, cancelling; the video preview and the meta tags that the file
    holds as well);
  - the [partial_uploads] table of the shared schema (the ledger row).

  The server that answers [/api/files/upload] is not part of the sources;
  module [Ledger] describes it after the specification.

  Conventions.  JavaScript [number]s that hold byte counts, indices and
  millisecond clocks are integers and are modelled in [Z].  The numeric
  fields of a server descriptor, the chunk size and the free space the
  selection compares them with, and the scores are IEEE 754 binary64
  values, Rocq's primitive [float]: arithmetic rounds as in JavaScript, and
  NaN, the infinities and the two zeros are values like the others.
  Progress percentages, and the times and volumes of the video player, are
  exact rationals [Q].  React state is passed explicitly;
  [setX (prev => ...)] is a function on the state.  Network calls and the
  wall clock are oracles of a [Section].  No step of the [try] block of
  [handleFileUpload] throws ([uploadChunkToServer] and [loadUploadServers]
  catch their exceptions), so its [catch] handler has no counterpart
  here. *)

From Stdlib Require Import ZArith QArith Qround Qminmax.
From Stdlib Require Import Ascii String Bool List Lia Lqa.
From Stdlib Require Import Floats.
From Stdlib Require Uint63.
Import ListNotations.
Open Scope Z_scope.

(* ================================================================= *)
(** ** JavaScript built-ins used by the components *)

Module JS.

(** [Math.ceil] on the quotient of two integers. *)
Definition Math_ceil (x : Q) : Z := Qceiling x.

(** The [/] of two integer-valued numbers. *)
Definition num_div (a b : Z) : Q := (inject_Z a / inject_Z b)%Q.

(** Values of the counter of [for (let i = a; i < b; i++)]. *)
Definition for_range (a b : Z) : list Z :=
  map (fun k => a + Z.of_nat k) (seq 0 (Z.to_nat (b - a))).

(** A [Blob] obtained from a file is a window on the file's bytes. *)
Record Blob : Type := mkBlob { blob_offset : Z; blob_size : Z }.

(** [Blob.prototype.slice(start, end)] on a blob of [size] bytes that
    starts at [off]: both bounds are clamped into [0, size] (a negative
    bound counts from the end) and the span is never negative. *)
Definition clamp_bound (size b : Z) : Z :=
  if b <? 0 then Z.max (size + b) 0 else Z.min b size.

Definition Blob_slice (b : Blob) (start end_ : Z) : Blob :=
  let rs := clamp_bound (blob_size b) start in
  let re := clamp_bound (blob_size b) end_ in
  mkBlob (blob_offset b + rs) (Z.max (re - rs) 0).

(** The browser [File]: a named blob of [file_size] bytes. *)
Record File : Type := mkFile {
  file_name : string;
  file_size : Z;
  file_type : string
}.

Definition file_blob (f : File) : Blob := mkBlob 0 (file_size f).

(** [Array.prototype.findIndex]; [None] stands for [-1]. *)
Fixpoint findIndex {A} (p : A -> bool) (l : list A) : option nat :=
  match l with
  | [] => None
  | x :: r => if p x then Some O
              else match findIndex p r with
                   | Some k => Some (S k)
                   | None => None
                   end
  end.

(** [arr[k] = v] for an index inside the array. *)
Fixpoint set_at {A} (l : list A) (k : nat) (v : A) : list A :=
  match l, k with
  | [], _ => []
  | _ :: r, O => v :: r
  | x :: r, S k' => x :: set_at r k' v
  end.

(** A byte count as a [number].  Byte counts are never negative and lie
    far below [2^63]; every integer up to [2^53] is converted exactly. *)
Definition Number_ofZ (z : Z) : float := of_uint63 (Uint63.of_Z z).

(** [Math.max] and [Math.min] of two numbers: NaN if one of them is NaN,
    and [-0] counts as smaller than [+0]. *)
Definition Math_max (a b : float) : float :=
  if is_nan a || is_nan b then nan
  else if (a <? b)%float then b
  else if (b <? a)%float then a
  else if get_sign a then b else a.

Definition Math_min (a b : float) : float :=
  if is_nan a || is_nan b then nan
  else if (a <? b)%float then a
  else if (b <? a)%float then b
  else if get_sign a then a else b.

(** [Array.prototype.sort(cmp)].  ECMAScript (2019 and later) requires the
    sort to be stable, and for a consistent comparator every stable sort
    returns the same array; insertion from the right is one such sort.
    [cmp a b] follows the JavaScript convention: a positive value puts
    [b] first; zero, a negative value or NaN (which the sort reads as
    [+0]) keeps [a] in front. *)
Fixpoint sort_insert {A} (cmp : A -> A -> float) (x : A) (l : list A)
    : list A :=
  match l with
  | [] => [x]
  | y :: r => if (0 <? cmp x y)%float then y :: sort_insert cmp x r
              else x :: y :: r
  end.

Fixpoint Array_sort {A} (cmp : A -> A -> float) (l : list A) : list A :=
  match l with
  | [] => []
  | x :: r => sort_insert cmp x (Array_sort cmp r)
  end.

(** Truthiness of an optional number ([0], [-0] and NaN are falsy) and of
    an optional string. *)
Definition truthy_num (x : option float) : bool :=
  match x with
  | Some m => negb (m =? 0)%float && negb (is_nan m)
  | None => false
  end.

Definition truthy_str (x : option string) : bool :=
  match x with
  | Some s => negb (String.eqb s EmptyString)
  | None => false
  end.

(** [x || d] on an optional string. *)
Definition or_else (x : option string) (d : string) : string :=
  match x with
  | Some s => if String.eqb s EmptyString then d else s
  | None => d
  end.

(** [Array.prototype.includes] on an array of strings. *)
Definition includes (l : list string) (s : string) : bool :=
  existsb (String.eqb s) l.

End JS.

(* ================================================================= *)
(** ** distributed-file-uploader.tsx *)

Module Uploader.

Import JS.

(** *** Interfaces *)

Record Capabilities : Type := mkCapabilities {
  maxChunkSize : float;
  supportedFormats : list string;
  dropboxAccounts : float;
  freeSpace : float
}.

Record UploadServer : Type := mkUploadServer {
  id : string;
  url : string;
  isActive : bool;
  currentLoad : float;
  maxLoad : float;
  region : string;
  capabilities : Capabilities;
  responseTime : float;
  successRate : float
}.

Inductive ChunkStatus : Type :=
| pending | uploading | completed | failed | waiting.

Definition ChunkStatus_eqb (a b : ChunkStatus) : bool :=
  match a, b with
  | pending, pending | uploading, uploading | completed, completed
  | failed, failed | waiting, waiting => true
  | _, _ => false
  end.

Record DropboxDetails : Type := mkDropboxDetails {
  accountId : string;
  dropboxFileId : string;
  path : string
}.

Record ChunkUploadStatus : Type := mkChunk {
  chunkIndex : Z;
  status : ChunkStatus;
  serverId : option string;
  serverUrl : option string;
  progress : Z;
  error : option string;
  attempts : Z;
  uploadedAt : option Z;
  dropboxDetails : option DropboxDetails
}.

Inductive SessionStatus : Type :=
| s_preparing | s_distributing | s_uploading | s_completed | s_failed.

Record FileUploadState : Type := mkFileUploadState {
  fileId : string;
  fileName : string;
  totalSize : Z;
  chunkSize : Z;
  totalChunks : Z;
  chunks : list ChunkUploadStatus;
  overallProgress : Q;
  sessionStatus : SessionStatus;
  startTime : Z;
  endTime : option Z
}.

(** *** Constants *)

Definition CHUNK_SIZE : Z := 4 * 1024 * 1024.
Definition MAX_CONCURRENT_UPLOADS : Z := 20.
Definition SERVER_SELECTION_TIMEOUT : Z := 30000.
Definition MAX_RETRIES : Z := 3.
Definition MAX_FILE_SIZE : Z := 10 * 1024 * 1024.

(** *** [findOptimalServer] *)

Record Requirements : Type := mkRequirements {
  minFreeSpace : option float;
  preferredRegion : option string;
  excludeServers : option (list string)
}.

Definition noRequirements : Requirements := mkRequirements None None None.

(** The callback of [uploadServers.filter]. *)
Definition capable (chunkSize : float) (requirements : Requirements)
    (server : UploadServer) : bool :=
  if negb (isActive server) then false
  else if (maxLoad server <=? currentLoad server)%float then false
  else if (maxChunkSize (capabilities server) <? chunkSize)%float then false
  else if truthy_num (minFreeSpace requirements)
          && match minFreeSpace requirements with
             | Some m => (freeSpace (capabilities server) <? m)%float
             | None => false
             end
       then false
  else if match excludeServers requirements with
          | Some l => includes l (id server)
          | None => false
          end
       then false
  else true.

(** The callback of [availableServers.map]: the [score] accumulator. *)
Definition serverScore (requirements : Requirements) (server : UploadServer)
    : float :=
  (let score := 0 in
   let score := score + (1 - currentLoad server / maxLoad server) * 40 in
   let score :=
     score + Math_max 0 ((1000 - responseTime server) / 1000) * 30 in
   let score := score + successRate server * 20 in
   let score :=
     score
     + Math_min (freeSpace (capabilities server) / (1024 * 1024 * 1024)) 10
       * 10 in
   let score :=
     if truthy_str (preferredRegion requirements)
        && match preferredRegion requirements with
           | Some r => String.eqb (region server) r
           | None => false
           end
     then score + 15 else score in
   score)%float.

(** [(a, b) => b.score - a.score] *)
Definition byScoreDesc (a b : UploadServer * float) : float :=
  (snd b - snd a)%float.

Definition findOptimalServer (uploadServers : list UploadServer)
    (chunkSize : float) (requirements : Requirements)
    : option UploadServer :=
  let availableServers := filter (capable chunkSize requirements) uploadServers in
  if (List.length availableServers =? 0)%nat then None
  else
    let scoredServers :=
      map (fun server => (server, serverScore requirements server))
          availableServers in
    match Array_sort byScoreDesc scoredServers with
    | best :: _ => Some (fst best)
    | [] => None
    end.

(** *** Chunk planning in [handleFileUpload] *)

(** [Math.ceil(file.size / CHUNK_SIZE)] *)
Definition computeTotalChunks (f : File) : Z :=
  Math_ceil (num_div (file_size f) CHUNK_SIZE).

(** [Array.from({ length: totalChunks }, (_, i) => ({...}))] *)
Definition initialChunks (n : Z) : list ChunkUploadStatus :=
  map (fun i => mkChunk i pending None None 0 None 0 None None)
      (for_range 0 n).

(** What one call [processChunk(chunkBlob, i, fileMetadata)] receives,
    with the byte range the blob was cut from. *)
Record ChunkTask : Type := mkTask {
  task_index : Z;
  task_start : Z;
  task_end : Z;
  task_blob : Blob
}.

(** Body of the inner [for (let i = batchStart; i < batchEnd; i++)]. *)
Definition sliceChunk (f : File) (i : Z) : ChunkTask :=
  let start := i * CHUNK_SIZE in
  let end_ := Z.min (start + CHUNK_SIZE) (file_size f) in
  mkTask i start end_ (Blob_slice (file_blob f) start end_).

Record Batch : Type := mkBatch {
  batch_start : Z;
  batch_end : Z;
  batch_tasks : list ChunkTask
}.

(** The outer [for (batchStart = 0; batchStart < totalChunks;
    batchStart += batchSize)] with its inner loop: the batches in the order
    they are started.  The counter grows by [batchSize] each turn, so
    [totalChunks] turns of fuel are always enough; [None] is fuel
    exhaustion. *)
Fixpoint batchLoop (fuel : nat) (f : File) (n batchStart : Z)
  : option (list Batch) :=
  if batchStart <? n then
    match fuel with
    | O => None
    | S fuel' =>
        let batchEnd := Z.min (batchStart + MAX_CONCURRENT_UPLOADS) n in
        let batch :=
          mkBatch batchStart batchEnd
                  (map (sliceChunk f) (for_range batchStart batchEnd)) in
        match batchLoop fuel' f n (batchStart + MAX_CONCURRENT_UPLOADS) with
        | Some rest => Some (batch :: rest)
        | None => None
        end
    end
  else Some [].

Definition planBatches (f : File) : option (list Batch) :=
  let n := computeTotalChunks f in
  batchLoop (Z.to_nat n) f n 0.

(** *** [updateChunkStatus] *)

(** [Partial<ChunkUploadStatus>]: the fields an update object carries.  A
    field that is present with the value [undefined] is [Some None]. *)
Record ChunkUpdate : Type := mkUpdate {
  u_status : option ChunkStatus;
  u_serverId : option (option string);
  u_serverUrl : option (option string);
  u_progress : option Z;
  u_error : option (option string);
  u_attempts : option Z;
  u_uploadedAt : option (option Z);
  u_dropboxDetails : option (option DropboxDetails)
}.

Definition noUpdate : ChunkUpdate :=
  mkUpdate None None None None None None None None.

Definition override {A} (old : A) (new : option A) : A :=
  match new with
  | Some v => v
  | None => old
  end.

(** [{ ...chunk, ...updates }] *)
Definition mergeChunk (c : ChunkUploadStatus) (u : ChunkUpdate)
    : ChunkUploadStatus :=
  mkChunk (chunkIndex c)
          (override (status c) (u_status u))
          (override (serverId c) (u_serverId u))
          (override (serverUrl c) (u_serverUrl u))
          (override (progress c) (u_progress u))
          (override (error c) (u_error u))
          (override (attempts c) (u_attempts u))
          (override (uploadedAt c) (u_uploadedAt u))
          (override (dropboxDetails c) (u_dropboxDetails u)).

Definition isCompleted (c : ChunkUploadStatus) : bool :=
  ChunkStatus_eqb (status c) completed.

Definition isFailed (c : ChunkUploadStatus) : bool :=
  ChunkStatus_eqb (status c) failed.

(** [newChunks.filter(c => c.status === 'completed').length] *)
Definition completedCount (l : list ChunkUploadStatus) : Z :=
  Z.of_nat (List.length (filter isCompleted l)).

(** [(completedChunks / newChunks.length) * 100] *)
Definition progressOf (l : list ChunkUploadStatus) : Q :=
  (num_div (completedCount l) (Z.of_nat (List.length l)) * 100)%Q.

(** The updater passed to [setFileUpload] by [updateChunkStatus], for the
    chunk index [idx] captured by [processChunk]. *)
Definition updateChunkStatus (idx : Z) (updates : ChunkUpdate)
    (prev : option FileUploadState) : option FileUploadState :=
  match prev with
  | None => None
  | Some p =>
      let newChunks :=
        match findIndex (fun c => chunkIndex c =? idx) (chunks p) with
        | Some chunkIdx =>
            match nth_error (chunks p) chunkIdx with
            | Some c => set_at (chunks p) chunkIdx (mergeChunk c updates)
            | None => chunks p
            end
        | None => chunks p
        end in
      Some (mkFileUploadState
              (fileId p) (fileName p) (totalSize p) (chunkSize p)
              (totalChunks p) newChunks (progressOf newChunks)
              (sessionStatus p) (startTime p) (endTime p))
  end.

(** The update objects [processChunk] passes to [updateChunkStatus]. *)

(** [{ status: 'waiting', attempts, progress: 0 }] *)
Definition upWaiting (attempts : Z) : ChunkUpdate :=
  mkUpdate (Some waiting) None None (Some 0) None (Some attempts) None None.

(** [{ status: 'waiting' }] *)
Definition upStillWaiting : ChunkUpdate :=
  mkUpdate (Some waiting) None None None None None None None.

(** [{ status: 'failed', error: 'No capable server available',
       progress: 0 }] *)
Definition upNoServer : ChunkUpdate :=
  mkUpdate (Some failed) None None (Some 0)
           (Some (Some "No capable server available"%string))
           None None None.

(** [{ status: 'uploading', serverId, serverUrl, progress: 0 }] *)
Definition upUploading (server : UploadServer) : ChunkUpdate :=
  mkUpdate (Some uploading) (Some (Some (id server)))
           (Some (Some (url server))) (Some 0) None None None None.

(** [{ status: 'completed', progress: 100, uploadedAt, dropboxDetails }] *)
Definition upCompleted (t : Z) (details : option DropboxDetails)
    : ChunkUpdate :=
  mkUpdate (Some completed) None None (Some 100) None None
           (Some (Some t)) (Some details).

(** [{ status: 'failed', error: result.error, progress: 0 }] *)
Definition upFailed (err : option string) : ChunkUpdate :=
  mkUpdate (Some failed) None None (Some 0) (Some err) None None None.

(** [{ status: 'failed', error: `Failed after ${MAX_RETRIES} attempts` }] *)
Definition upExhausted : ChunkUpdate :=
  mkUpdate (Some failed) None None None
           (Some (Some "Failed after 3 attempts"%string)) None None None.

(** *** Asynchronous tasks

    One call of [processChunk] is a task with its own view of the clock.  It
    leaves a trace of the effects it performs, in order; the state updates
    of concurrent tasks are merged by the scheduler (see [runBatches]). *)

Inductive Effect : Type :=
| SetChunk (idx : Z) (u : ChunkUpdate)
| Sleep (ms : Z)
| LoadServers
| PostChunk (idx : Z) (server : UploadServer).

Record TaskState : Type := mkTS { clock : Z; trace : list Effect }.

(** A task either runs out of loop fuel ([None]) or returns a value and
    the state it reached. *)
Definition Task (A : Type) : Type := TaskState -> option (A * TaskState).

Definition ret {A} (a : A) : Task A := fun s => Some (a, s).

Definition bind {A B} (m : Task A) (k : A -> Task B) : Task B :=
  fun s => match m s with
           | Some (a, s') => k a s'
           | None => None
           end.

Definition outOfFuel {A} : Task A := fun _ => None.

Declare Scope task_scope.
Delimit Scope task_scope with task.
Notation "x <- m ;; k" := (bind m (fun x => k))
  (at level 61, m at next level, right associativity) : task_scope.
Notation "m ;;; k" := (bind m (fun _ => k))
  (at level 61, right associativity) : task_scope.

Definition now : Task Z := fun s => Some (clock s, s).

Definition emit (e : Effect) : Task unit :=
  fun s => Some (tt, mkTS (clock s) (trace s ++ [e])).

(** The response of an upload server to [fetch(.../upload-chunk)], as far
    as [uploadChunkToServer] looks at it. *)
Inductive FetchOutcome : Type :=
| FetchThrew (message : option string)
| HttpError (statusLine : string)
| JsonBody (success : bool) (details : option DropboxDetails)
           (err : option string).

Record UploadResult : Type := mkResult {
  r_success : bool;
  r_dropboxDetails : option DropboxDetails;
  r_error : option string
}.

Section Orchestrator.

(** The value of [uploadServers] that [findOptimalServer] reads when it is
    called at a given time.  (For callbacks captured at one render this is
    a constant function; nothing below depends on how it varies.) *)
Variable visibleServers : Z -> list UploadServer.

(** Time an [await] started at a given time takes beyond its nominal
    duration (network latency, timers firing late, other tasks running). *)
Variable lag : Z -> Z.

(** What [fetch] yields for a chunk posted to a server at a given time. *)
Variable fetchChunk : Z -> Z -> UploadServer -> FetchOutcome.

Definition await (nominal : Z) : Task unit :=
  fun s => Some (tt, mkTS (clock s + nominal + lag (clock s)) (trace s)).

(** [await new Promise(resolve => setTimeout(resolve, ms))] *)
Definition sleep (ms : Z) : Task unit :=
  (emit (Sleep ms) ;;; await ms)%task.

(** [await loadUploadServers()]: the registry is fetched again; the call
    never throws. *)
Definition loadUploadServers : Task unit :=
  (emit LoadServers ;;; await 0)%task.

Definition findServerNow (chunkSize : float) (requirements : Requirements)
    : Task (option UploadServer) :=
  (t <- now ;; ret (findOptimalServer (visibleServers t) chunkSize requirements))%task.

(** [waitForCapableServer]: the [while (Date.now() - startTime < timeout)]
    loop. *)
Fixpoint waitLoop (fuel : nat) (chunkSize : float)
    (requirements : Requirements)
    (timeout startTime : Z) : Task (option UploadServer) :=
  (t <- now ;;
   if t - startTime <? timeout then
     match fuel with
     | O => outOfFuel
     | S fuel' =>
         server <- findServerNow chunkSize requirements ;;
         match server with
         | Some s => ret (Some s)
         | None =>
             loadUploadServers ;;;
             sleep 2000 ;;;
             waitLoop fuel' chunkSize requirements timeout startTime
         end
     end
   else ret None)%task.

(** Each turn of the loop lasts at least the two seconds of its timer, so
    the condition is evaluated at most sixteen times. *)
Definition waitFuel : nat := 16.

Definition waitForCapableServer (chunkSize : float)
    (requirements : Requirements) (timeout : Z)
    : Task (option UploadServer) :=
  (startTime <- now ;;
   waitLoop waitFuel chunkSize requirements timeout startTime)%task.

(** The object [uploadChunkToServer] returns for each outcome of the
    request; an exception is caught and reported as a failure. *)
Definition uploadOutcome (o : FetchOutcome) : UploadResult :=
  match o with
  | FetchThrew message =>
      mkResult false None (Some (or_else message "Network error"%string))
  | HttpError statusLine =>
      mkResult false None
        (Some (or_else
                 (Some (String.append "Server responded with "%string
                                      statusLine))
                 "Network error"%string))
  | JsonBody true details _ => mkResult true details None
  | JsonBody false _ err =>
      mkResult false None (Some (or_else err "Upload failed"%string))
  end.

Definition uploadChunkToServer (idx : Z) (server : UploadServer)
    : Task UploadResult :=
  (t <- now ;;
   emit (PostChunk idx server) ;;;
   await 0 ;;;
   ret (uploadOutcome (fetchChunk t idx server)))%task.

Definition setChunk (idx : Z) (u : ChunkUpdate) : Task unit :=
  emit (SetChunk idx u).

(** The requirements object [processChunk] builds for a blob:
    [{ minFreeSpace: chunkData.size * 2, excludeServers }]. *)
Definition chunkRequirements (blobSize : Z) (excluded : list string)
    : Requirements :=
  mkRequirements (Some (Number_ofZ blobSize * 2)%float) None (Some excluded).

(** "Find or wait for capable server": the first selection of an attempt
    and, when it finds nothing, the waiting loop. *)
Definition acquireServer (chunkData : Blob) (idx : Z) (excluded : list string)
    : Task (option UploadServer) :=
  (found <- findServerNow (Number_ofZ (blob_size chunkData))
              (chunkRequirements (blob_size chunkData) excluded) ;;
   match found with
   | Some s => ret (Some s)
   | None =>
       setChunk idx upStillWaiting ;;;
       waitForCapableServer
         (Number_ofZ (blob_size chunkData))
         (chunkRequirements (blob_size chunkData) excluded)
         SERVER_SELECTION_TIMEOUT
   end)%task.

(** [processChunk]: the [while (attempts < MAX_RETRIES)] loop and the code
    after it.  [excluded] is the array [excludeServers]. *)
Fixpoint retryLoop (fuel : nat) (chunkData : Blob) (idx : Z)
    (attempts : Z) (excluded : list string) : Task unit :=
  (if attempts <? MAX_RETRIES then
     match fuel with
     | O => outOfFuel
     | S fuel' =>
         let attempts := attempts + 1 in
         setChunk idx (upWaiting attempts) ;;;
         server <- acquireServer chunkData idx excluded ;;
         match server with
         | None => setChunk idx upNoServer
         | Some server =>
             setChunk idx (upUploading server) ;;;
             result <- uploadChunkToServer idx server ;;
             if r_success result then
               t <- now ;;
               setChunk idx (upCompleted t (r_dropboxDetails result))
             else
               let excluded := excluded ++ [id server] in
               setChunk idx (upFailed (r_error result)) ;;;
               (if attempts <? MAX_RETRIES then sleep (1000 * attempts)
                else ret tt) ;;;
               retryLoop fuel' chunkData idx attempts excluded
         end
     end
   else setChunk idx upExhausted)%task.

Definition processChunk (chunkData : Blob) (idx : Z) : Task unit :=
  retryLoop (Z.to_nat MAX_RETRIES) chunkData idx 0 [].

End Orchestrator.

(** *** [handleFileUpload] *)

(** The component state the handler reads and writes. *)
Record Component : Type := mkComponent {
  uploadServers : list UploadServer;
  fileUpload : option FileUploadState;
  isUploading : bool
}.

Inductive Alert : Type :=
| PleaseLoadServers
| ExceedsMaximum (size : Z).

(** [setFileUpload(prev => prev ? { ...prev, status } : null)] *)
Definition setStatus (st : SessionStatus) (prev : option FileUploadState)
    : option FileUploadState :=
  match prev with
  | Some p =>
      Some (mkFileUploadState
              (fileId p) (fileName p) (totalSize p) (chunkSize p)
              (totalChunks p) (chunks p) (overallProgress p)
              st (startTime p) (endTime p))
  | None => None
  end.

(** The updater of the "Check final status" step. *)
Definition finalStatus (n : Z) (t : Z) (prev : option FileUploadState)
    : option FileUploadState :=
  match prev with
  | None => None
  | Some p =>
      let completedChunks := completedCount (chunks p) in
      let st := if completedChunks =? n then s_completed else s_failed in
      Some (mkFileUploadState
              (fileId p) (fileName p) (totalSize p) (chunkSize p)
              (totalChunks p) (chunks p) (overallProgress p)
              st (startTime p) (Some t))
  end.

(** Effect of one traced step on the [fileUpload] state. *)
Definition applyEffect (fu : option FileUploadState) (e : Effect)
    : option FileUploadState :=
  match e with
  | SetChunk idx u => updateChunkStatus idx u fu
  | _ => fu
  end.

(** The ways the steps of concurrent tasks can follow each other: every
    task keeps its own order. *)
Inductive Interleaving {A : Type} : list (list A) -> list A -> Prop :=
| il_done : forall ls, Forall (fun l => l = []) ls -> Interleaving ls []
| il_step : forall pre x xs post l,
    Interleaving (pre ++ xs :: post) l ->
    Interleaving (pre ++ (x :: xs) :: post) (x :: l).

Record SessionState : Type := mkSession {
  s_file : option FileUploadState;
  s_clock : Z;
  s_effects : list Effect
}.

(** What a call of [handleFileUpload] did: the alerts shown, the component
    state it left, the batches it dispatched and the state updates in the
    order they were applied. *)
Record Run : Type := mkRun {
  run_alerts : list Alert;
  run_component : Component;
  run_batches : list Batch;
  run_effects : list Effect
}.

Section Session.

Variable visibleServers : Z -> list UploadServer.
Variable lag : Z -> Z.
Variable fetchChunk : Z -> Z -> UploadServer -> FetchOutcome.

(** The order in which the event loop runs the steps of the tasks of one
    batch. *)
Variable schedule : list (list Effect) -> list Effect.

(** [batchPromises.push(processChunk(...))] for every task of a batch, then
    [await Promise.all(batchPromises)]: all tasks start at [t]; the batch is
    over when the last one returns. *)
Fixpoint runTasks (t : Z) (tasks : list ChunkTask)
    : option (list (list Effect) * Z) :=
  match tasks with
  | [] => Some ([], t)
  | task :: rest =>
      match processChunk visibleServers lag fetchChunk
              (task_blob task) (task_index task) (mkTS t []),
            runTasks t rest with
      | Some (_, s), Some (traces, tEnd) =>
          Some (trace s :: traces, Z.max (clock s) tEnd)
      | _, _ => None
      end
  end.

Fixpoint runBatches (n : Z) (batches : list Batch) (st : SessionState)
    : option SessionState :=
  match batches with
  | [] => Some st
  | b :: rest =>
      match runTasks (s_clock st) (batch_tasks b) with
      | None => None
      | Some (traces, tEnd) =>
          let merged := schedule traces in
          let fu := fold_left applyEffect merged (s_file st) in
          let more := batch_end b <? n in
          runBatches n rest
            (mkSession fu
               (if more then tEnd + 100 + lag tEnd else tEnd)
               (s_effects st ++ merged ++ (if more then [Sleep 100] else [])))
      end
  end.

(** [newFileId] is the value of the [Date.now()]/[Math.random()] template,
    [t0] the time of the call. *)
Definition handleFileUpload (newFileId : string) (t0 : Z)
    (file : option File) (c : Component) : option Run :=
  match file with
  | None => Some (mkRun [PleaseLoadServers] c [] [])
  | Some f =>
      if (List.length (uploadServers c) =? 0)%nat
      then Some (mkRun [PleaseLoadServers] c [] [])
      else if file_size f >? MAX_FILE_SIZE
      then Some (mkRun [ExceedsMaximum (file_size f)] c [] [])
      else
        let n := computeTotalChunks f in
        let uploadState :=
          mkFileUploadState newFileId (file_name f) (file_size f) CHUNK_SIZE
            n (initialChunks n) 0 s_preparing t0 None in
        let fu := Some uploadState in
        let fu := setStatus s_distributing fu in
        let fu := setStatus s_uploading fu in
        match planBatches f with
        | None => None
        | Some batches =>
            match runBatches n batches (mkSession fu t0 []) with
            | None => None
            | Some st =>
                let fu := finalStatus n (s_clock st) (s_file st) in
                Some (mkRun [] (mkComponent (uploadServers c) fu false)
                            batches (s_effects st))
            end
        end
  end.

End Session.

End Uploader.

(* ================================================================= *)
(** ** file-upload.tsx *)

Module FileUpload.

Import JS.

Record PartialUpload : Type := mkPartialUpload {
  pu_id : string;
  pu_fileName : string;
  pu_fileSize : Z;
  pu_uploadedChunks : Z;
  pu_totalChunks : Z;
  pu_progress : Q
}.

(** The [useState] cells of the component. *)
Record Form : Type := mkForm {
  selectedFile : option File;
  httpUploadProgress : Q;
  uploadedBytes : Z;
  partialUpload : option PartialUpload;
  showResumeDialog : bool;
  fileChecksum : option string
}.

Inductive Toast : Type :=
| FileTooLarge (size : Z)
| CheckFailed
| FileUploaded
| UploadFailed (message : string).

Definition MAX_FILE_SIZE : Z := 10 * 1024 * 1024.

(** [handleFileSelect]: the new state, the toasts shown and whether the
    file input was cleared. *)
Definition handleFileSelect (file : option File) (st : Form)
    : Form * list Toast * bool :=
  match file with
  | None => (st, [], false)
  | Some f =>
      if file_size f >? MAX_FILE_SIZE
      then (st, [FileTooLarge (file_size f)], true)
      else (mkForm (Some f) (httpUploadProgress st) (uploadedBytes st)
                   (partialUpload st) (showResumeDialog st)
                   (fileChecksum st), [], false)
  end.

(** A [FormData] body: the parts in the order they were appended.  A file
    part travels with all of its bytes. *)
Inductive Part : Type :=
| TextPart (value : string)
| FilePart (name : string) (bytes : Z).

Definition FormData : Type := list (string * Part).

(** The body [checkPartialUploadMutation] posts: an empty blob named
    [dummy], the forum and the checksum. *)
Definition checkRequest (forumId checksum : string) : FormData :=
  [ ("file"%string, FilePart "dummy" 0);
    ("forumId"%string, TextPart forumId);
    ("checksum"%string, TextPart checksum) ].

(** [uploadMutation.mutate({ file, checksum, resumeUploadId })]: the body
    it posts to [/api/files/upload]. *)
Definition uploadMutation (forumId : string) (file : File) (checksum : string)
    (resumeUploadId : option string) : FormData :=
  [ ("file"%string, FilePart (file_name file) (file_size file));
    ("forumId"%string, TextPart forumId);
    ("checksum"%string, TextPart checksum) ]
  ++ (if truthy_str resumeUploadId
      then match resumeUploadId with
           | Some r => [("resumeUploadId"%string, TextPart r)]
           | None => []
           end
      else []).

(** Bytes of file content in a body. *)
Fixpoint fileBytes (body : FormData) : Z :=
  match body with
  | [] => 0
  | (_, FilePart _ n) :: rest => n + fileBytes rest
  | (_, TextPart _) :: rest => fileBytes rest
  end.

(** What the probe of [/api/files/upload] answers, as far as the client
    reads it. *)
Record CheckResponse : Type := mkCheckResponse {
  resp_status : Z;
  resp_resumeRequired : bool;
  resp_partialUpload : option PartialUpload
}.

Inductive CheckResult : Type :=
| Resolved
| Rejected (message : string).

Section Client.

Variable forumId : string.

(** The upload endpoint as seen from the client; [None] is a [fetch] or a
    [json()] that rejects. *)
Variable endpoint : FormData -> option CheckResponse.

(** [checkPartialUploadMutation.mutateAsync(checksum)] with its
    [onError]: the new state, how the promise settles and the toasts. *)
Definition checkPartialUploadMutation (checksum : string) (st : Form)
    : Form * CheckResult * list Toast :=
  match endpoint (checkRequest forumId checksum) with
  | None => (st, Rejected "fetch", [CheckFailed])
  | Some response =>
      if (resp_status response =? 200) && resp_resumeRequired response
      then (mkForm (selectedFile st) (httpUploadProgress st)
                   (uploadedBytes st) (resp_partialUpload response) true
                   (fileChecksum st),
            Rejected "RESUME_REQUIRED", [])
      else (st, Resolved, [])
  end.

(** [handleUpload]: the new state and the upload request sent, if any. *)
Definition handleUpload (st : Form) : Form * option FormData :=
  match selectedFile st with
  | None => (st, None)
  | Some file =>
      if negb (truthy_str (fileChecksum st)) then (st, None)
      else
        match fileChecksum st with
        | None => (st, None)
        | Some checksum =>
            match checkPartialUploadMutation checksum st with
            | (st', Resolved, _) =>
                (st', Some (uploadMutation forumId file checksum None))
            | (st', Rejected message, _) =>
                if negb (String.eqb message "RESUME_REQUIRED")
                then (st', Some (uploadMutation forumId file checksum None))
                else (st', None)
            end
        end
  end.

(** [handleResumeUpload] *)
Definition handleResumeUpload (st : Form) : Form * option FormData :=
  match selectedFile st, fileChecksum st, partialUpload st with
  | Some file, Some checksum, Some p =>
      if truthy_str (fileChecksum st)
      then (mkForm (selectedFile st) (httpUploadProgress st)
                   (uploadedBytes st) (partialUpload st) false
                   (fileChecksum st),
            Some (uploadMutation forumId file checksum (Some (pu_id p))))
      else (st, None)
  | _, _, _ => (st, None)
  end.

End Client.

End FileUpload.

(* ================================================================= *)
(** ** The ledger behind [/api/files/upload]

    The client posts to this endpoint; the code that serves it is not part
    of the sources.  The row type is the one the shared schema declares;
    what the server does with a request is described after the
    specification. *)

Module Ledger.

Import JS.

(** A row of the table [partial_uploads] of the shared schema: the ledger
    entry of a resumable upload.  [entry_uploadedChunks] is the array of
    uploaded chunk indices. *)
Record Entry : Type := mkEntry {
  entry_id : string;
  entry_forumId : string;
  entry_userId : string;
  entry_fileName : string;
  entry_fileSize : Z;
  entry_mimeType : option string;
  entry_checksum : string;
  entry_totalChunks : Z;
  entry_uploadedChunks : list Z
}.

(** Modelled from the spec: [findByChecksum(checksum) -> Entry|none] of
    section 4.4; the ledger implementation is missing from the sources. *)
Definition findByChecksum (ledger : list Entry) (checksum : string)
    : option Entry :=
  find (fun e => String.eqb (entry_checksum e) checksum) ledger.

(** Modelled from the spec: the chunks the Chunker produces on resume,
    "only the chunks not yet completed", driven by the ledger entry
    (section 4.1); the server-side chunker is missing from the sources. *)
Definition remaining (e : Entry) : list Z :=
  filter (fun i => negb (existsb (Z.eqb i) (entry_uploadedChunks e)))
         (for_range 0 (entry_totalChunks e)).

(** Modelled from the spec: how the missing handler reads the fields of
    a request body (the client fills them in [uploadMutation]). *)
Fixpoint textPart (key : string) (body : FileUpload.FormData)
    : option string :=
  match body with
  | [] => None
  | (k, FileUpload.TextPart v) :: rest =>
      if String.eqb k key then Some v else textPart key rest
  | _ :: rest => textPart key rest
  end.

(** Modelled from the spec: the file the missing handler receives, with
    its size, the declared total size of the request. *)
Fixpoint filePart (body : FileUpload.FormData) : option (string * Z) :=
  match body with
  | [] => None
  | (k, FileUpload.FilePart name bytes) :: rest =>
      if String.eqb k "file" then Some (name, bytes) else filePart rest
  | _ :: rest => filePart rest
  end.

(** Modelled from the spec: the outcomes of the missing handler: a new
    session, a resumed one with the chunks to dispatch, or a rejection. *)
Inductive Handling : Type :=
| StartFresh
| Resume (e : Entry) (dispatch : list Z)
| Reject.

(** Modelled from the spec: what the server does with an upload request
    (sections 3 and 4.1; the handler of [POST /api/files/upload] is missing
    from the sources).  A request that names a partial upload is a resume
    request; its declared total size is the size of the file it carries.
    The entry found for its checksum is matched only if the sizes are equal;
    a checksum match with a different size is rejected.  A matched entry
    resumes with the chunks not yet completed. *)
Definition handleUploadRequest (ledger : list Entry)
    (body : FileUpload.FormData) : Handling :=
  match filePart body, textPart "checksum" body with
  | Some (_, declaredSize), Some checksum =>
      match textPart "resumeUploadId" body with
      | None => StartFresh
      | Some _ =>
          match findByChecksum ledger checksum with
          | Some e =>
              if entry_fileSize e =? declaredSize
              then Resume e (remaining e)
              else Reject
          | None => StartFresh
          end
      end
  | _, _ => Reject
  end.

End Ledger.

(* ================================================================= *)
(** ** Text built-ins used by the components *)

Module JSText.

Definition digits : string := "0123456789abcdefghijklmnopqrstuvwxyz".

Definition digitChar (d : Z) : ascii :=
  match String.get (Z.to_nat d) digits with
  | Some c => c
  | None => "0"%char
  end.

(** The digits of a non-negative integer, most significant first.  A
    number [n] has at most [log2 n + 1] digits in any radix. *)
Fixpoint natural_digits (fuel : nat) (radix n : Z) (acc : string) : string :=
  match fuel with
  | O => acc
  | S fuel' =>
      let acc' := String (digitChar (n mod radix)) acc in
      if n / radix =? 0 then acc'
      else natural_digits fuel' radix (n / radix) acc'
  end.

(** [Number.prototype.toString(radix)] on an integer. *)
Definition Number_toString (radix n : Z) : string :=
  if n <? 0
  then String "-"%char
         (natural_digits (S (Z.to_nat (Z.log2 (- n)))) radix (- n) EmptyString)
  else natural_digits (S (Z.to_nat (Z.log2 n))) radix n EmptyString.

(** [String.prototype.padStart(targetLength, padString)] for a pad string
    of one character. *)
Definition padStart (s : string) (targetLength : nat) (padString : ascii)
    : string :=
  String.append
    (string_of_list_ascii
       (repeat padString (targetLength - String.length s)))
    s.

(** [Array.prototype.join(separator)] on an array of strings. *)
Definition join (separator : string) (l : list string) : string :=
  String.concat separator l.

(** [Math.floor] and the [%] of two numbers (the remainder has the sign
    of the dividend). *)
Definition Math_floor (x : Q) : Z := Qfloor x.

Definition Qtruncate (x : Q) : Z :=
  if Qle_bool 0 x then Qfloor x else Qceiling x.

Definition num_rem (a b : Q) : Q := (a - b * inject_Z (Qtruncate (a / b)))%Q.

End JSText.

(* ================================================================= *)
(** ** distributed-file-uploader.tsx: what the component renders *)

Module UploaderView.

Import JS Uploader.

(** [fileUpload.chunks.filter(c => c.status === st).length] *)
Definition countStatus (st : ChunkStatus) (l : list ChunkUploadStatus) : Z :=
  Z.of_nat (List.length (filter (fun c => ChunkStatus_eqb (status c) st) l)).

(** The badges of "Summary Stats" in the order they are rendered:
    Pending, Uploading, Completed, Failed. *)
Definition summaryStats (fu : FileUploadState) : Z * Z * Z * Z :=
  (countStatus pending (chunks fu), countStatus uploading (chunks fu),
   countStatus completed (chunks fu), countStatus failed (chunks fu)).

(** [fileUpload.chunks.length <= 20]: whether "Chunk Details" is rendered. *)
Definition showChunkDetails (fu : FileUploadState) : bool :=
  (List.length (chunks fu) <=? 20)%nat.

End UploaderView.

(* ================================================================= *)
(** ** file-upload.tsx: checksum, cancelling and the upload request *)

Module UploadForm.

Import JS JSText FileUpload.

(** [hashArray.map(b => b.toString(16).padStart(2, '0')).join('')] *)
Definition hashHex (hashArray : list Z) : string :=
  join EmptyString
       (map (fun b => padStart (Number_toString 16 b) 2 "0"%char) hashArray).

(** [calculateChecksum]: [digest] is what [crypto.subtle.digest] returns
    for the bytes of the file, as a [Uint8Array]. *)
Definition calculateChecksum (digest : list Z) (st : Form) : Form * string :=
  (mkForm (selectedFile st) (httpUploadProgress st) (uploadedBytes st)
          (partialUpload st) (showResumeDialog st) (Some (hashHex digest)),
   hashHex digest).

(** The effect that runs when [selectedFile] has changed. *)
Definition onSelectedFile (digest : File -> list Z) (st : Form) : Form :=
  match selectedFile st with
  | Some file => fst (calculateChecksum (digest file) st)
  | None =>
      mkForm (selectedFile st) (httpUploadProgress st) (uploadedBytes st)
             None false None
  end.

(** [handleCancelResume] *)
Definition handleCancelResume (st : Form) : Form :=
  mkForm (selectedFile st) (httpUploadProgress st) (uploadedBytes st)
         None false (fileChecksum st).

(** [handleCancel]: the new state and whether the file input was cleared;
    [inputMounted] is [fileInputRef.current] being set. *)
Definition handleCancel (inputMounted : bool) (st : Form) : Form * bool :=
  (mkForm None 0 0 None false (fileChecksum st), inputMounted).

(** The listener of the [progress] event of [xhr.upload]. *)
Definition onProgress (lengthComputable : bool) (loaded total : Z) (st : Form)
    : Form :=
  if lengthComputable
  then mkForm (selectedFile st) (num_div loaded total * 100)%Q loaded
              (partialUpload st) (showResumeDialog st) (fileChecksum st)
  else st.

(** How the promise of [mutationFn] settles. *)
Inductive Settlement : Type :=
| Fulfilled
| RejectedWith (message : string)
| Pending.

(** The listener of the [load] event: [bodyParses] tells whether
    [JSON.parse(xhr.responseText)] returns; when it throws inside the
    listener the promise is neither resolved nor rejected. *)
Definition onLoad (status : Z) (bodyParses : bool) : Settlement :=
  if (status >=? 200) && (status <? 300)
  then if bodyParses then Fulfilled else Pending
  else RejectedWith
         (String.append "Upload failed with status "
                        (Number_toString 10 status)).

(** The listener of the [error] event. *)
Definition onXhrError : Settlement := RejectedWith "Upload failed".

(** [onSuccess] and [onError] of [uploadMutation]. *)
Definition onSuccess (st : Form) : Form * list Toast :=
  (mkForm None 0 0 None false (fileChecksum st), [FileUploaded]).

Definition onError (message : string) (st : Form) : Form * list Toast :=
  (mkForm (selectedFile st) 0 0 (partialUpload st) (showResumeDialog st)
          (fileChecksum st),
   [UploadFailed message]).

(** The state once the request has settled. *)
Definition settle (s : Settlement) (st : Form) : Form * list Toast :=
  match s with
  | Fulfilled => onSuccess st
  | RejectedWith message => onError message st
  | Pending => (st, [])
  end.

(** What the form renders: the resume dialog
    ([showResumeDialog && partialUpload]) and the Cancel and Upload buttons
    ([!uploadMutation.isPending && !uploadMutation.isSuccess
      && !showResumeDialog]). *)
Definition resumeDialogShown (st : Form) : bool :=
  showResumeDialog st
  && match partialUpload st with
     | Some _ => true
     | None => false
     end.

Definition actionsShown (isPending isSuccess : bool) (st : Form) : bool :=
  negb isPending && negb isSuccess && negb (showResumeDialog st).

End UploadForm.

(* ================================================================= *)
(** ** file-upload.tsx: the video preview *)

Module VideoPreview.

Import JS JSText.

(** The properties of the [<video>] element the handlers read and write. *)
Record Video : Type := mkVideo {
  v_currentTime : Q;
  v_duration : Q;
  v_volume : Q
}.

(** [videoRef.current] and the [useState] cells the handlers touch. *)
Record Player : Type := mkPlayer {
  videoRef : option Video;
  currentTime : Q;
  duration : Q;
  volume : Q;
  isMuted : bool
}.

(** The state at mount: the [useState] initializers; a media element
    starts at full volume. *)
Definition mounted (videoDuration : Q) : Player :=
  mkPlayer (Some (mkVideo 0 videoDuration 1)) 0 0 1 false.

(** The [loadedmetadata] and [timeupdate] listeners. *)
Definition handleLoadedMetadata (p : Player) : Player :=
  match videoRef p with
  | None => p
  | Some video =>
      mkPlayer (videoRef p) (currentTime p) (v_duration video) (volume p)
               (isMuted p)
  end.

Definition handleTimeUpdate (p : Player) : Player :=
  match videoRef p with
  | None => p
  | Some video =>
      mkPlayer (videoRef p) (v_currentTime video) (duration p) (volume p)
               (isMuted p)
  end.

(** [handleSeek]; [newTime] is [value[0]]. *)
Definition handleSeek (newTime : Q) (p : Player) : Player :=
  match videoRef p with
  | None => p
  | Some video =>
      mkPlayer (Some (mkVideo newTime (v_duration video) (v_volume video)))
               newTime (duration p) (volume p) (isMuted p)
  end.

(** [handleVolumeChange]; [newVolume] is [value[0]]. *)
Definition handleVolumeChange (newVolume : Q) (p : Player) : Player :=
  match videoRef p with
  | None => p
  | Some video =>
      mkPlayer
        (Some (mkVideo (v_currentTime video) (v_duration video) newVolume))
        (currentTime p) (duration p) newVolume (Qeq_bool newVolume 0)
  end.

(** [toggleMute] *)
Definition toggleMute (p : Player) : Player :=
  match videoRef p with
  | None => p
  | Some video =>
      if isMuted p
      then mkPlayer
             (Some (mkVideo (v_currentTime video) (v_duration video)
                            (volume p)))
             (currentTime p) (duration p) (volume p) false
      else mkPlayer
             (Some (mkVideo (v_currentTime video) (v_duration video) 0))
             (currentTime p) (duration p) (volume p) true
  end.

(** [skipTime] *)
Definition skipTime (seconds : Q) (p : Player) : Player :=
  match videoRef p with
  | None => p
  | Some video =>
      mkPlayer
        (Some (mkVideo
                 (Qmax 0 (Qmin (duration p) (v_currentTime video + seconds)))
                 (v_duration video) (v_volume video)))
        (currentTime p) (duration p) (volume p) (isMuted p)
  end.

(** The value the volume slider shows: [isMuted ? 0 : volume]. *)
Definition sliderVolume (p : Player) : Q :=
  if isMuted p then 0 else volume p.

(** [formatTime], in exact arithmetic: for times from 0 to [2^53]
    seconds, the range of a player, [Math.floor(time / 60)] and
    [Math.floor(time % 60)] are the whole numbers computed here. *)
Definition formatTime (time : Q) : string :=
  let minutes := Math_floor (time / 60) in
  let seconds := Math_floor (num_rem time 60) in
  String.append (Number_toString 10 minutes)
    (String.append ":" (padStart (Number_toString 10 seconds) 2 "0"%char)).

(** What the user can do with the controls. *)
Inductive Control : Type :=
| Seek (newTime : Q)
| VolumeChange (newVolume : Q)
| ToggleMute
| SkipTime (seconds : Q)
| TimeUpdate
| LoadedMetadata.

Definition handle (c : Control) (p : Player) : Player :=
  match c with
  | Seek newTime => handleSeek newTime p
  | VolumeChange newVolume => handleVolumeChange newVolume p
  | ToggleMute => toggleMute p
  | SkipTime seconds => skipTime seconds p
  | TimeUpdate => handleTimeUpdate p
  | LoadedMetadata => handleLoadedMetadata p
  end.

End VideoPreview.

(* ================================================================= *)
(** ** file-upload.tsx: the meta tags of the page *)

Module MetaTags.

Import JS.

(** A [<meta>] element: its [name], [property] and [content]
    attributes. *)
Record Meta : Type := mkMeta {
  m_name : option string;
  m_property : option string;
  m_content : string
}.

(** The document as the effect sees it: its title and its [<meta>]
    elements in tree order, those of [<head>] first. *)
Record Document : Type := mkDocument {
  doc_title : string;
  head_metas : list Meta;
  later_metas : list Meta
}.

(** Whether an element matches [meta[attribute="name"]]. *)
Definition selects (property : bool) (name : string) (m : Meta) : bool :=
  match (if property then m_property m else m_name m) with
  | Some v => String.eqb v name
  | None => false
  end.

(** [document.querySelector(`meta[${attribute}="${name}"]`)] *)
Definition querySelector (property : bool) (name : string) (d : Document)
    : option Meta :=
  find (selects property name) (head_metas d ++ later_metas d).

Definition setContent (content : string) (m : Meta) : Meta :=
  mkMeta (m_name m) (m_property m) content.

(** [element.content = content] on the first element of a list that
    matches. *)
Definition setFirst (property : bool) (name content : string)
    (l : list Meta) : list Meta :=
  match findIndex (selects property name) l with
  | Some k =>
      match nth_error l k with
      | Some m => set_at l k (setContent content m)
      | None => l
      end
  | None => l
  end.

(** [updateMetaTag]: the element [querySelector] returns is the first match
    in tree order, so its content is set where it stands, in [<head>] or
    after it; without a match a new element that carries the one attribute
    is appended to [<head>]. *)
Definition updateMetaTag (name content : string) (property : bool)
    (d : Document) : Document :=
  match find (selects property name) (head_metas d) with
  | Some _ =>
      mkDocument (doc_title d) (setFirst property name content (head_metas d))
                 (later_metas d)
  | None =>
      match find (selects property name) (later_metas d) with
      | Some _ =>
          mkDocument (doc_title d) (head_metas d)
                     (setFirst property name content (later_metas d))
      | None =>
          mkDocument (doc_title d)
            (head_metas d
             ++ [if property then mkMeta None (Some name) content
                 else mkMeta (Some name) None content])
            (later_metas d)
      end
  end.

(** The props of the component; [url] and [type] are the values after
    their defaults ([window.location.href] and ['website']) have been
    filled in. *)
Record Props : Type := mkProps {
  title : option string;
  description : option string;
  keywords : option string;
  image : option string;
  url : string;
  type : string
}.

(** [if (x) f(x)] on an optional string. *)
Definition whenSet (x : option string) (f : string -> Document -> Document)
    (d : Document) : Document :=
  match x with
  | Some s => if truthy_str x then f s d else d
  | None => d
  end.

(** The body of the effect. *)
Definition effect (p : Props) (d : Document) : Document :=
  let d := whenSet (title p)
             (fun t d => mkDocument t (head_metas d) (later_metas d)) d in
  let d := whenSet (description p)
             (fun s => updateMetaTag "description" s false) d in
  let d := whenSet (keywords p)
             (fun s => updateMetaTag "keywords" s false) d in
  let d := whenSet (title p) (fun s => updateMetaTag "og:title" s true) d in
  let d := whenSet (description p)
             (fun s => updateMetaTag "og:description" s true) d in
  let d := updateMetaTag "og:url" (url p) true d in
  let d := updateMetaTag "og:type" (type p) true d in
  let d := whenSet (image p) (fun s => updateMetaTag "og:image" s true) d in
  let d := updateMetaTag "twitter:card" "summary_large_image" false d in
  let d := whenSet (title p)
             (fun s => updateMetaTag "twitter:title" s false) d in
  let d := whenSet (description p)
             (fun s => updateMetaTag "twitter:description" s false) d in
  let d := whenSet (image p)
             (fun s => updateMetaTag "twitter:image" s false) d in
  d.

End MetaTags.

(* ================================================================= *)
(** * Properties *)

Import JS.

(** ** Specification vocabulary *)

Definition sumZ (l : list Z) : Z := fold_right Z.add 0 l.

(** [tiles lo hi tasks]: the byte ranges of [tasks], in order, are
    non-empty, each starts where the previous one ends, the first starts at
    [lo] and the last ends at [hi]. *)
Fixpoint tiles (lo hi : Z) (tasks : list Uploader.ChunkTask) : Prop :=
  match tasks with
  | [] => lo = hi
  | t :: rest =>
      Uploader.task_start t = lo /\ lo < Uploader.task_end t
      /\ tiles (Uploader.task_end t) hi rest
  end.

Definition MiB : Z := 1024 * 1024.

(** The place of a number on the extended number line, in units of
    [2^-1074]: both zeros at 0, the infinities beyond every finite number,
    nothing for NaN.  Two numbers compare as their places do. *)
Definition SFkey (x : spec_float) : option Z :=
  match x with
  | S754_nan => None
  | S754_zero _ => Some 0
  | S754_infinity s => Some (cond_Zopp s (2 ^ 2100))
  | S754_finite s m e => Some (cond_Zopp s (Z.pos m * 2 ^ (e + 1074)))
  end.

Definition numKey (x : float) : option Z := SFkey (Prim2SF x).


(** The leftmost element of highest score. *)
Fixpoint firstBest (l : list (Uploader.UploadServer * float))
    : option (Uploader.UploadServer * float) :=
  match l with
  | [] => None
  | x :: r =>
      match firstBest r with
      | None => Some x
      | Some y => if (snd x <? snd y)%float then Some y else Some x
      end
  end.

(** The selection constraints the filter enforces: the server is active,
    is not at or above its maximum load, does not have a maximum chunk size
    below the chunk size, does not have less than the required free space
    when the requirement is not zero, and is not excluded. *)
Definition eligible (chunkSize : float) (req : Uploader.Requirements)
    (s : Uploader.UploadServer) : Prop :=
  Uploader.isActive s = true
  /\ (Uploader.maxLoad s <=? Uploader.currentLoad s)%float = false
  /\ (Uploader.maxChunkSize (Uploader.capabilities s) <? chunkSize)%float
     = false
  /\ (forall m, Uploader.minFreeSpace req = Some m ->
                (m =? 0)%float = false ->
                (Uploader.freeSpace (Uploader.capabilities s) <? m)%float
                = false)
  /\ (forall l, Uploader.excludeServers req = Some l ->
                ~ In (Uploader.id s) l).







(** Candidates whose scores are numbers: on these the comparator of the
    sort is consistent. *)
Definition scoresAreNumbers (req : Uploader.Requirements)
    (candidates : list Uploader.UploadServer) : Prop :=
  Forall (fun c => is_nan (Uploader.serverScore req c) = false) candidates.

(** Sample descriptors. *)
Definition sampleServer (name : string) (load : float) (rate : float)
    : Uploader.UploadServer :=
  Uploader.mkUploadServer name (String.append "https://" name) true
    load 10 "eu"
    (Uploader.mkCapabilities (Number_ofZ (8 * MiB)) [] 1
                             (Number_ofZ (64 * MiB)))
    1000 rate.

(** The life of a chunk, after section 4.3 of the specification, as the
    traces a task may leave.  Times are readings of the task's clock. *)

(** One turn of the waiting loop that found nothing: refresh the registry,
    wait the fixed interval. *)
Definition pollRound : list Uploader.Effect :=
  [Uploader.LoadServers; Uploader.Sleep 2000].

Definition rounds (k : nat) : list Uploader.Effect :=
  List.concat (repeat pollRound k).

(** Linear backoff after the failure of attempt [attempt], if attempts
    remain. *)
Definition backoff (attempt : Z) : list Uploader.Effect :=
  if attempt <? Uploader.MAX_RETRIES
  then [Uploader.Sleep (1000 * attempt)] else [].

Section Lifecycle.

Import Uploader.

Variable visibleServers : Z -> list UploadServer.
Variable lag : Z -> Z.
Variable fetchChunk : Z -> Z -> UploadServer -> FetchOutcome.
Variable chunkData : Blob.
Variable idx : Z.

(** The selection for this chunk at time [t], with the servers it failed
    on excluded. *)
Definition selectAt (excluded : list string) (t : Z) : option UploadServer :=
  findOptimalServer (visibleServers t) (Number_ofZ (blob_size chunkData))
    (chunkRequirements (blob_size chunkData) excluded).

(** Steps 1 and 2: ask for a server; if there is none, wait and poll.
    [Acquired excluded t tr r t'] : started at [t], the acquisition leaves
    the trace [tr] and ends at [t'] with the server [r], or with nothing
    once the selection timeout has elapsed. *)
Inductive Acquired (excluded : list string)
  : Z -> list Effect -> option UploadServer -> Z -> Prop :=
| acquired_at_once : forall t srv,
    selectAt excluded t = Some srv ->
    Acquired excluded t [] (Some srv) t
| acquired_after_wait : forall t k t' srv,
    selectAt excluded t = None ->
    (1 <= k <= 15)%nat ->
    t + 2000 * Z.of_nat k <= t' ->
    t' - t < SERVER_SELECTION_TIMEOUT ->
    selectAt excluded t' = Some srv ->
    Acquired excluded t (SetChunk idx upStillWaiting :: rounds k) (Some srv) t'
| acquired_timeout : forall t k t',
    selectAt excluded t = None ->
    (1 <= k <= 15)%nat ->
    t + 2000 * Z.of_nat k <= t' ->
    SERVER_SELECTION_TIMEOUT <= t' - t ->
    Acquired excluded t (SetChunk idx upStillWaiting :: rounds k) None t'.

(** Steps 3 to 5.  [Retried attempts excluded t tr t'] : entered at time
    [t] with [attempts] attempts made and the servers [excluded] failed,
    the retry loop leaves the trace [tr] and returns at [t']. *)
Inductive Retried
  : Z -> list string -> Z -> list Effect -> Z -> Prop :=
| retried_exhausted : forall attempts excluded t,
    MAX_RETRIES <= attempts ->
    Retried attempts excluded t [SetChunk idx upExhausted] t
| retried_no_server : forall attempts excluded t tr t',
    attempts < MAX_RETRIES ->
    Acquired excluded t tr None t' ->
    Retried attempts excluded t
      (SetChunk idx (upWaiting (attempts + 1)) :: tr
       ++ [SetChunk idx upNoServer]) t'
| retried_success : forall attempts excluded t tr srv t1 res,
    attempts < MAX_RETRIES ->
    Acquired excluded t tr (Some srv) t1 ->
    res = uploadOutcome (fetchChunk t1 idx srv) ->
    r_success res = true ->
    Retried attempts excluded t
      (SetChunk idx (upWaiting (attempts + 1)) :: tr
       ++ [SetChunk idx (upUploading srv); PostChunk idx srv;
           SetChunk idx (upCompleted (t1 + 0 + lag t1)
                                     (r_dropboxDetails res))])
      (t1 + 0 + lag t1)
| retried_failure : forall attempts excluded t tr srv t1 res t2 rest t',
    attempts < MAX_RETRIES ->
    Acquired excluded t tr (Some srv) t1 ->
    res = uploadOutcome (fetchChunk t1 idx srv) ->
    r_success res = false ->
    t2 = (if attempts + 1 <? MAX_RETRIES
          then (t1 + 0 + lag t1) + 1000 * (attempts + 1)
               + lag (t1 + 0 + lag t1)
          else t1 + 0 + lag t1) ->
    Retried (attempts + 1) (excluded ++ [id srv]) t2 rest t' ->
    Retried attempts excluded t
      (SetChunk idx (upWaiting (attempts + 1)) :: tr
       ++ [SetChunk idx (upUploading srv); PostChunk idx srv;
           SetChunk idx (upFailed (r_error res))]
       ++ backoff (attempts + 1) ++ rest) t'.

End Lifecycle.

(** The trace of the task of one chunk, started at [since] or later: it
    is the trace the call [processChunk(chunkBlob, i, ...)] leaves, and it
    conforms to the lifecycle, entered with no attempt made and no server
    excluded. *)
Definition ranTask (visibleServers : Z -> list Uploader.UploadServer)
    (lag : Z -> Z)
    (fetchChunk : Z -> Z -> Uploader.UploadServer -> Uploader.FetchOutcome)
    (since : Z)
    (task : Uploader.ChunkTask) (tr : list Uploader.Effect) : Prop :=
  exists t t',
    since <= t
    /\ Uploader.processChunk visibleServers lag fetchChunk
         (Uploader.task_blob task) (Uploader.task_index task)
         (Uploader.mkTS t [])
       = Some (tt, Uploader.mkTS t' tr)
    /\ Retried visibleServers lag fetchChunk
         (Uploader.task_blob task) (Uploader.task_index task) 0 [] t tr t'.

(** The session state when the first batch starts: the descriptors are
    those of the initializer, the status is ['uploading']. *)
Definition sessionStart (newFileId : string) (t0 : Z) (f : File)
    : Uploader.FileUploadState :=
  Uploader.mkFileUploadState newFileId (file_name f) (file_size f)
    Uploader.CHUNK_SIZE (Uploader.computeTotalChunks f)
    (Uploader.initialChunks (Uploader.computeTotalChunks f))
    0 Uploader.s_uploading t0 None.

(** The descriptor the initializer creates for chunk [i]. *)
Definition pendingChunk (i : Z) : Uploader.ChunkUploadStatus :=
  Uploader.mkChunk i Uploader.pending None None 0 None 0 None None.

(** Two servers of equal score, [srv-a] half loaded with a perfect
    success rate and [srv-b] idle with none; and two servers that differ in
    their identifier (and address) only. *)
Definition busyServer : Uploader.UploadServer := sampleServer "srv-a" 5 1.
Definition idleServer : Uploader.UploadServer := sampleServer "srv-b" 0 0.
Definition twinA : Uploader.UploadServer := sampleServer "srv-a" 3 1.
Definition twinB : Uploader.UploadServer := sampleServer "srv-b" 3 1.



(** Two servers whose scores would be equal in exact arithmetic. *)
Definition nearTieA : Uploader.UploadServer :=
  Uploader.mkUploadServer "srv-a" "https://srv-a" true 5 6 "eu"
    (Uploader.mkCapabilities (Number_ofZ (8 * MiB)) [] 1
                             (Number_ofZ (64 * MiB)))
    1000 1.

Definition nearTieB : Uploader.UploadServer :=
  Uploader.mkUploadServer "srv-b" "https://srv-b" true 1 3 "eu"
    (Uploader.mkCapabilities (Number_ofZ (8 * MiB)) [] 1
                             (Number_ofZ (64 * MiB)))
    1000 0.

(** A server that reports a negative amount of free space, and
    requirements that ask for no free space. *)
Definition overdrawnServer : Uploader.UploadServer :=
  Uploader.mkUploadServer "srv-a" "https://srv-a" true 0 10 "eu"
    (Uploader.mkCapabilities (Number_ofZ (8 * MiB)) [] 1 (-5)) 1000 1.

Definition zeroSpaceRequirements : Uploader.Requirements :=
  Uploader.mkRequirements (Some 0%float) None None.

(** A registry with one server below and one at its maximum load, and
    one whose servers differ in success rate only. *)
Definition loadedRegistry : list Uploader.UploadServer :=
  [sampleServer "srv-a" 5 1; sampleServer "srv-b" 10 1].


(** A sample environment: three servers that never change, ranked
    [srv-a], [srv-b], [srv-c] by success rate; no latency; tasks run one
    after the other. *)
Definition demoRegistry : list Uploader.UploadServer :=
  [sampleServer "srv-a" 0 1; sampleServer "srv-b" 0 0.75;
   sampleServer "srv-c" 0 0.5].

Definition steadyServers (t : Z) : list Uploader.UploadServer := demoRegistry.

(** A registry whose only server is switched off. *)
Definition offlineRegistry : list Uploader.UploadServer :=
  [Uploader.mkUploadServer "srv-a" "https://srv-a" false 0 10 "eu"
     (Uploader.mkCapabilities (Number_ofZ (8 * MiB)) [] 1
                              (Number_ofZ (64 * MiB)))
     1000 1].

Definition offlineServers (t : Z) : list Uploader.UploadServer :=
  offlineRegistry.

Definition offlineComponent : Uploader.Component :=
  Uploader.mkComponent offlineRegistry None false.

Definition noLag (t : Z) : Z := 0.

Definition alwaysStored (t idx : Z) (srv : Uploader.UploadServer)
    : Uploader.FetchOutcome :=
  Uploader.JsonBody true None None.

(** Chunk 1 is refused by every server but [srv-c]. *)
Definition refusedTwice (t idx : Z) (srv : Uploader.UploadServer)
    : Uploader.FetchOutcome :=
  if (idx =? 1) && negb (String.eqb (Uploader.id srv) "srv-c")
  then Uploader.HttpError "503: Service Unavailable"
  else Uploader.JsonBody true None None.

Definition sequential (traces : list (list Uploader.Effect))
    : list Uploader.Effect :=
  List.concat traces.

Definition demoFile : File := mkFile "video.mp4" (10 * MiB) "video/mp4".

Definition demoComponent : Uploader.Component :=
  Uploader.mkComponent demoRegistry None false.

Definition emptyFile : File := mkFile "empty.txt" 0 "text/plain".

Definition smallFile : File := mkFile "notes.txt" 1000 "text/plain".

(** A single server that refuses every chunk. *)
Definition loneRegistry : list Uploader.UploadServer :=
  [sampleServer "srv-a" 0 1].

Definition loneServer (t : Z) : list Uploader.UploadServer := loneRegistry.

Definition alwaysRefused (t idx : Z) (srv : Uploader.UploadServer)
    : Uploader.FetchOutcome :=
  Uploader.JsonBody false None (Some "quota exceeded"%string).

(** A sample resume: chunks 0 and 2 of three are recorded complete. *)
Definition demoEntry : Ledger.Entry :=
  Ledger.mkEntry "pu-1" "forum-1" "user-1" "video.mp4" (10 * MiB)
    (Some "video/mp4"%string) "9f2c" 3 [0; 2].

Definition demoPartial : FileUpload.PartialUpload :=
  FileUpload.mkPartialUpload "pu-1" "video.mp4" (10 * MiB) 2 3 (200 # 3).

Definition resumeForm (f : File) : FileUpload.Form :=
  FileUpload.mkForm (Some f) 0 0 (Some demoPartial) true (Some "9f2c"%string).

(** A file with the checksum of [demoEntry] and another size. *)
Definition shortFile : File := mkFile "video.mp4" (5 * MiB) "video/mp4".

Definition bigFile : File := mkFile "movie.mkv" (11 * MiB) "video/x-matroska".

(** The session fields that chunk updates never touch. *)
Definition sameSession (p q : Uploader.FileUploadState) : Prop :=
  Uploader.fileId q = Uploader.fileId p
  /\ Uploader.fileName q = Uploader.fileName p
  /\ Uploader.totalSize q = Uploader.totalSize p
  /\ Uploader.chunkSize q = Uploader.chunkSize p
  /\ Uploader.totalChunks q = Uploader.totalChunks p
  /\ Uploader.sessionStatus q = Uploader.sessionStatus p
  /\ Uploader.startTime q = Uploader.startTime p
  /\ Uploader.endTime q = Uploader.endTime p.

(** Reading a trace. *)

(** The servers the task posted the chunk to, in order. *)
Fixpoint posts (tr : list Uploader.Effect) : list Uploader.UploadServer :=
  match tr with
  | [] => []
  | Uploader.PostChunk _ srv :: rest => srv :: posts rest
  | _ :: rest => posts rest
  end.

(** The updates of the chunk [idx], in order. *)
Fixpoint updatesFor (idx : Z) (tr : list Uploader.Effect)
    : list Uploader.ChunkUpdate :=
  match tr with
  | [] => []
  | Uploader.SetChunk i u :: rest =>
      if i =? idx then u :: updatesFor idx rest else updatesFor idx rest
  | _ :: rest => updatesFor idx rest
  end.

(** The descriptor of chunk [idx] once the updates of a trace are
    applied. *)
Definition chunkAfter (idx : Z) (tr : list Uploader.Effect)
    (c : Uploader.ChunkUploadStatus) : Uploader.ChunkUploadStatus :=
  fold_left Uploader.mergeChunk (updatesFor idx tr) c.

(** The steps of a trace that name chunk [idx], its updates and its
    posts, in order. *)
Definition names (idx : Z) (e : Uploader.Effect) : bool :=
  match e with
  | Uploader.SetChunk i _ => i =? idx
  | Uploader.PostChunk i _ => i =? idx
  | _ => false
  end.

Definition ownPart (idx : Z) (tr : list Uploader.Effect)
    : list Uploader.Effect :=
  filter (names idx) tr.

(** An effect a task for chunk [idx] may perform: it touches no other
    chunk. *)
Definition ownEffect (idx : Z) (e : Uploader.Effect) : Prop :=
  match e with
  | Uploader.SetChunk i _ => i = idx
  | Uploader.PostChunk i _ => i = idx
  | _ => True
  end.

(** The order in which [processChunk] may change the status of its chunk:
    [mayFollow a b] when an update to [b] may come after the status [a]. *)
Definition mayFollow (a b : Uploader.ChunkStatus) : bool :=
  match a, b with
  | Uploader.pending, Uploader.waiting => true
  | Uploader.waiting, Uploader.waiting => true
  | Uploader.waiting, Uploader.uploading => true
  | Uploader.waiting, Uploader.failed => true
  | Uploader.uploading, Uploader.completed => true
  | Uploader.uploading, Uploader.failed => true
  | Uploader.failed, Uploader.waiting => true
  | Uploader.failed, Uploader.failed => true
  | _, _ => false
  end.

Fixpoint inOrder (from : Uploader.ChunkStatus)
    (l : list Uploader.ChunkStatus) : bool :=
  match l with
  | [] => true
  | x :: r => mayFollow from x && inOrder x r
  end.

(** What a server descriptor must offer for a chunk of [size] bytes to be
    posted to it: it is active, not at or above its maximum load, its
    maximum chunk size is not below [size] and its free space is not below
    twice [size]. *)
Definition fitFor (size : Z) (s : Uploader.UploadServer) : Prop :=
  Uploader.isActive s = true
  /\ (Uploader.maxLoad s <=? Uploader.currentLoad s)%float = false
  /\ (Uploader.maxChunkSize (Uploader.capabilities s) <? Number_ofZ size)%float
     = false
  /\ (Uploader.freeSpace (Uploader.capabilities s)
      <? Number_ofZ size * 2)%float = false.

(** A descriptor with another response time, and with another amount of
    free space. *)
Definition withResponseTime (s : Uploader.UploadServer) (ms : float)
    : Uploader.UploadServer :=
  Uploader.mkUploadServer (Uploader.id s) (Uploader.url s)
    (Uploader.isActive s) (Uploader.currentLoad s) (Uploader.maxLoad s)
    (Uploader.region s) (Uploader.capabilities s) ms (Uploader.successRate s).

Definition withFreeSpace (s : Uploader.UploadServer) (bytes : float)
    : Uploader.UploadServer :=
  Uploader.mkUploadServer (Uploader.id s) (Uploader.url s)
    (Uploader.isActive s) (Uploader.currentLoad s) (Uploader.maxLoad s)
    (Uploader.region s)
    (Uploader.mkCapabilities
       (Uploader.maxChunkSize (Uploader.capabilities s))
       (Uploader.supportedFormats (Uploader.capabilities s))
       (Uploader.dropboxAccounts (Uploader.capabilities s)) bytes)
    (Uploader.responseTime s) (Uploader.successRate s).

Definition GiB : Z := 1024 * 1024 * 1024.

(** Whether the upload endpoint answers the probe for [checksum] with
    "resume required". *)
Definition resumeRequired (forumId : string)
    (endpoint : FileUpload.FormData -> option FileUpload.CheckResponse)
    (checksum : string) : bool :=
  match endpoint (FileUpload.checkRequest forumId checksum) with
  | Some r =>
      (FileUpload.resp_status r =? 200) && FileUpload.resp_resumeRequired r
  | None => false
  end.

(** The partial upload that answer carries. *)
Definition offeredUpload (forumId : string)
    (endpoint : FileUpload.FormData -> option FileUpload.CheckResponse)
    (checksum : string) : option FileUpload.PartialUpload :=
  match endpoint (FileUpload.checkRequest forumId checksum) with
  | Some r => FileUpload.resp_partialUpload r
  | None => None
  end.

(** One byte of a digest as [calculateChecksum] prints it. *)
Definition byteHex (b : Z) : string :=
  JSText.padStart (JSText.Number_toString 16 b) 2 "0"%char.

Definition isHexDigit (ch : ascii) : bool :=
  existsb (Ascii.eqb ch) (list_ascii_of_string "0123456789abcdef").

Definition isByte (b : Z) : Prop := 0 <= b < 256.

(** The player after a sequence of events, oldest first. *)
Definition afterControls (controls : list VideoPreview.Control)
    (p : VideoPreview.Player) : VideoPreview.Player :=
  fold_left (fun p c => VideoPreview.handle c p) controls p.

(** The volume of the element, if it is mounted. *)
Definition elementVolume (p : VideoPreview.Player) : option Q :=
  option_map VideoPreview.v_volume (VideoPreview.videoRef p).

Definition elementTime (p : VideoPreview.Player) : option Q :=
  option_map VideoPreview.v_currentTime (VideoPreview.videoRef p).

(** The [<meta>] elements of a document in tree order, and the content of
    the element a selector finds. *)
Definition allMetas (d : MetaTags.Document) : list MetaTags.Meta :=
  MetaTags.head_metas d ++ MetaTags.later_metas d.

Definition metaContent (property : bool) (name : string)
    (d : MetaTags.Document) : option string :=
  option_map MetaTags.m_content (MetaTags.querySelector property name d).

(** An element that carries a [name] or a [property] attribute, not
    both. *)
Definition oneKey (m : MetaTags.Meta) : Prop :=
  MetaTags.m_name m = None \/ MetaTags.m_property m = None.

(** The value of an optional prop when it is truthy. *)
Definition given (x : option string) : option string :=
  match x with
  | Some s => if String.eqb s EmptyString then None else Some s
  | None => None
  end.

(** What a tag holds after the effect: the prop when it is given, else
    what it held before. *)
Definition orKeep (x : option string) (old : option string) : option string :=
  match given x with
  | Some s => Some s
  | None => old
  end.

(** The element [updateMetaTag] creates when the selector finds none. *)
Definition createdMeta (property : bool) (name content : string)
    : MetaTags.Meta :=
  if property then MetaTags.mkMeta None (Some name) content
  else MetaTags.mkMeta (Some name) None content.

(** Sample data for the upload form, the player and the page. *)
Definition sampleDigest : list Z := [0; 15; 16; 255; 171].

Definition digestOf (file : File) : list Z := sampleDigest.

(** An endpoint that cannot be reached, and one that reports a partial
    upload for every checksum. *)
Definition unreachableEndpoint (body : FileUpload.FormData)
    : option FileUpload.CheckResponse :=
  None.

Definition resumingEndpoint (body : FileUpload.FormData)
    : option FileUpload.CheckResponse :=
  Some (FileUpload.mkCheckResponse 200 true (Some demoPartial)).

Definition emptyForm : FileUpload.Form :=
  FileUpload.mkForm None 0 0 None false None.

Definition freshForm (f : File) : FileUpload.Form :=
  FileUpload.mkForm (Some f) 0 0 None false (Some "9f2c"%string).

(** A player five seconds before the end of a video of 100 seconds. *)
Definition samplePlayer : VideoPreview.Player :=
  VideoPreview.mkPlayer (Some (VideoPreview.mkVideo 95 100 1)) 95 100 1 false.

Definition samplePage : MetaTags.Document :=
  MetaTags.mkDocument "Forum"
    [MetaTags.mkMeta (Some "description"%string) None "old"] [].

Definition sampleProps : MetaTags.Props :=
  MetaTags.mkProps (Some "Uploads"%string) (Some "Shared files"%string)
    None None "https://example.org/f" "website".

(** ** Numbers

    Facts about binary64 arithmetic that the selection relies on, read off
    the specification of the primitive operations ([SpecFloat]). *)

Section Numbers.

Lemma digits2_pos_bounds (m : positive) :
  2 ^ (Z.pos (digits2_pos m) - 1) <= Z.pos m < 2 ^ Z.pos (digits2_pos m).
Proof.
  induction m as [m IH|m IH|]; cbn [digits2_pos].
  - rewrite Pos2Z.inj_succ.
    replace (Z.succ (Z.pos (digits2_pos m)) - 1)
      with (Z.succ (Z.pos (digits2_pos m) - 1)) by lia.
    rewrite !Z.pow_succ_r by lia. lia.
  - rewrite Pos2Z.inj_succ.
    replace (Z.succ (Z.pos (digits2_pos m)) - 1)
      with (Z.succ (Z.pos (digits2_pos m) - 1)) by lia.
    rewrite !Z.pow_succ_r by lia. lia.
  - cbn. lia.
Qed.

(** What validity says of a finite number. *)
Lemma bounded_facts (m : positive) (e : Z) :
  bounded prec emax m e = true ->
  -1074 <= e <= 971
  /\ Z.pos m < 2 ^ 53
  /\ (-1074 < e -> 2 ^ 52 <= Z.pos m).
Proof.
  unfold bounded, canonical_mantissa, fexp, SpecFloat.emin, prec, emax.
  intros H. apply andb_true_iff in H. destruct H as [Hc He].
  apply Z.eqb_eq in Hc. apply Z.leb_le in He.
  pose proof (digits2_pos_bounds m) as [Hlo Hhi].
  assert (Hd : Z.pos (digits2_pos m) <= 53) by lia.
  split; [lia|]. split.
  - eapply Z.lt_le_trans; [exact Hhi|]. apply Z.pow_le_mono_r; lia.
  - intros Hgt. assert (Z.pos (digits2_pos m) = 53) as E by lia.
    rewrite E in Hlo. exact Hlo.
Qed.

Lemma finite_key_bounds (m : positive) (e : Z) :
  bounded prec emax m e = true ->
  0 < Z.pos m * 2 ^ (e + 1074) < 2 ^ 2100.
Proof.
  intros H. destruct (bounded_facts m e H) as (He & Hm & _).
  assert (0 < 2 ^ (e + 1074)) by (apply Z.pow_pos_nonneg; lia).
  split; [lia|].
  assert (2 ^ (e + 1074) <= 2 ^ 2045) by (apply Z.pow_le_mono_r; lia).
  assert (E : 2 ^ 2100 = 2 ^ 55 * 2 ^ 2045)
    by (rewrite <- Z.pow_add_r by lia; reflexivity).
  rewrite E.
  assert (0 < 2 ^ 2045) by (apply Z.pow_pos_nonneg; lia).
  assert (2 ^ 53 < 2 ^ 55) by (apply Z.pow_lt_mono_r; lia).
  nia.
Qed.

(** Among valid positive numbers the order of the pairs (exponent,
    mantissa) is the order of the values. *)
Lemma finite_compare (m1 : positive) (e1 : Z) (m2 : positive) (e2 : Z) :
  bounded prec emax m1 e1 = true ->
  bounded prec emax m2 e2 = true ->
  match e1 ?= e2 with
  | Lt => Lt
  | Gt => Gt
  | Eq => Pos.compare_cont Eq m1 m2
  end
  = (Z.pos m1 * 2 ^ (e1 + 1074) ?= Z.pos m2 * 2 ^ (e2 + 1074)).
Proof.
  intros H1 H2.
  destruct (bounded_facts m1 e1 H1) as (He1 & Hm1 & Hn1).
  destruct (bounded_facts m2 e2 H2) as (He2 & Hm2 & Hn2).
  assert (Hstep : forall (ma mb : positive) ea eb,
             -1074 <= ea -> ea < eb -> Z.pos ma < 2 ^ 53 -> 2 ^ 52 <= Z.pos mb ->
             Z.pos ma * 2 ^ (ea + 1074) < Z.pos mb * 2 ^ (eb + 1074)).
  { intros ma mb ea eb Ha Hab Hma Hmb.
    assert (P : 0 < 2 ^ (ea + 1074)) by (apply Z.pow_pos_nonneg; lia).
    assert (Q : 2 * 2 ^ (ea + 1074) <= 2 ^ (eb + 1074)).
    { rewrite <- Z.pow_succ_r by lia. apply Z.pow_le_mono_r; lia. }
    assert (R : 2 ^ 53 = 2 * 2 ^ 52) by reflexivity.
    nia. }
  destruct (Z.compare_spec e1 e2) as [E|L|G].
  - subst e2. symmetry.
    rewrite <- Zmult_compare_compat_r
      by (apply Z.lt_gt, Z.pow_pos_nonneg; lia).
    reflexivity.
  - symmetry. apply Z.compare_lt_iff. apply Hstep; auto; lia.
  - symmetry. apply Z.compare_gt_iff. apply Hstep; auto; lia.
Qed.

(** [SFcompare] on valid numbers is the comparison of their keys. *)
Lemma SFcompare_key (x y : spec_float) :
  valid_binary x = true -> valid_binary y = true ->
  SFcompare x y
  = match SFkey x, SFkey y with
    | Some a, Some b => Some (a ?= b)
    | _, _ => None
    end.
Proof.
  intros Hx Hy.
  assert (Hinf : 0 < 2 ^ 2100) by (apply Z.pow_pos_nonneg; lia).
  destruct x as [sx|sx| |sx mx ex], y as [sy|sy| |sy my ey];
    cbn [SFcompare SFkey valid_binary] in *; try reflexivity.
  - f_equal. destruct sy; cbn [cond_Zopp]; symmetry;
      [apply Z.compare_gt_iff|apply Z.compare_lt_iff]; lia.
  - pose proof (finite_key_bounds my ey Hy).
    f_equal. destruct sy; cbn [cond_Zopp]; symmetry;
      [apply Z.compare_gt_iff|apply Z.compare_lt_iff]; lia.
  - f_equal. destruct sx; cbn [cond_Zopp]; symmetry;
      [apply Z.compare_lt_iff|apply Z.compare_gt_iff]; lia.
  - f_equal. destruct sx, sy; cbn [cond_Zopp]; symmetry;
      first [apply Z.compare_eq_iff; lia | apply Z.compare_lt_iff; lia
            | apply Z.compare_gt_iff; lia].
  - pose proof (finite_key_bounds my ey Hy).
    f_equal. destruct sx, sy; cbn [cond_Zopp]; symmetry;
      first [apply Z.compare_lt_iff; lia | apply Z.compare_gt_iff; lia].
  - pose proof (finite_key_bounds mx ex Hx).
    f_equal. destruct sx; cbn [cond_Zopp]; symmetry;
      [apply Z.compare_lt_iff|apply Z.compare_gt_iff]; lia.
  - pose proof (finite_key_bounds mx ex Hx).
    f_equal. destruct sx, sy; cbn [cond_Zopp]; symmetry;
      first [apply Z.compare_lt_iff; lia | apply Z.compare_gt_iff; lia].
  - pose proof (finite_key_bounds mx ex Hx).
    pose proof (finite_key_bounds my ey Hy).
    f_equal. destruct sx, sy; cbn [cond_Zopp].
    + rewrite Z.compare_opp. rewrite <- (finite_compare my ey mx ex Hy Hx).
      rewrite (Z.compare_antisym ey ex).
      destruct (ey ?= ex); cbn [CompOpp]; try reflexivity.
      rewrite (ZC4 my mx). reflexivity.
    + symmetry. apply Z.compare_lt_iff. lia.
    + symmetry. apply Z.compare_gt_iff. lia.
    + apply finite_compare; assumption.
Qed.


(** *** Rounding keeps the sign *)

Lemma shr_1_half mrs :
  0 <= shr_m mrs -> shr_m (shr_1 mrs) = shr_m mrs / 2.
Proof.
  destruct mrs as [m r s]. cbn [shr_m shr_1]. intros Hm.
  destruct m as [|p|p]; [reflexivity| |lia].
  destruct p as [p|p|]; cbn [shr_m].
  - rewrite Pos2Z.inj_xI. apply Z.div_unique with (r := 1); lia.
  - rewrite Pos2Z.inj_xO. apply Z.div_unique with (r := 0); lia.
  - reflexivity.
Qed.

Lemma iter_pos_shr_1 (q : positive) mrs :
  0 <= shr_m mrs ->
  shr_m (iter_pos shr_1 q mrs) = shr_m mrs / 2 ^ Z.pos q.
Proof.
  revert mrs. induction q as [q IH|q IH|]; intros mrs Hm; cbn [iter_pos].
  - assert (H1 : 0 <= shr_m (shr_1 mrs))
      by (rewrite shr_1_half by exact Hm; apply Z.div_pos; lia).
    assert (H2 : 0 <= shr_m (iter_pos shr_1 q (shr_1 mrs))).
    { rewrite IH by exact H1. apply Z.div_pos; [exact H1|].
      apply Z.pow_pos_nonneg; lia. }
    rewrite IH by exact H2. rewrite IH by exact H1.
    rewrite shr_1_half by exact Hm.
    assert (P : 0 < 2 ^ Z.pos q) by (apply Z.pow_pos_nonneg; lia).
    rewrite !Z.div_div by lia. f_equal.
    rewrite Pos2Z.inj_xI.
    replace (2 * Z.pos q + 1) with (1 + Z.pos q + Z.pos q) by lia.
    rewrite !Z.pow_add_r by lia. change (2 ^ 1) with 2. ring.
  - assert (H2 : 0 <= shr_m (iter_pos shr_1 q mrs)).
    { rewrite IH by exact Hm. apply Z.div_pos; [exact Hm|].
      apply Z.pow_pos_nonneg; lia. }
    rewrite IH by exact H2. rewrite IH by exact Hm.
    assert (P : 0 < 2 ^ Z.pos q) by (apply Z.pow_pos_nonneg; lia).
    rewrite !Z.div_div by lia. f_equal.
    replace (Z.pos q~0) with (Z.pos q + Z.pos q) by lia.
    rewrite !Z.pow_add_r by lia. ring.
  - rewrite shr_1_half by exact Hm. reflexivity.
Qed.

Lemma shr_record_of_loc_m m l : shr_m (shr_record_of_loc m l) = m.
Proof. destruct l as [|[]]; reflexivity. Qed.

Lemma Zdigits2_bounds m :
  0 < m -> 2 ^ (Zdigits2 m - 1) <= m < 2 ^ Zdigits2 m.
Proof.
  destruct m as [|p|p]; try lia. intros _. apply digits2_pos_bounds.
Qed.

(** One shift to the target exponent: the mantissa stays non-negative, and
    it stays positive unless the number lies below the smallest positive
    one. *)
Lemma shr_fexp_m (m e : Z) (l : location) :
  0 <= m ->
  0 <= shr_m (fst (shr_fexp prec emax m e l))
  /\ (0 < m -> -1074 - e < Zdigits2 m ->
      0 < shr_m (fst (shr_fexp prec emax m e l))
      /\ -1074 <= snd (shr_fexp prec emax m e l)).
Proof.
  intros Hm. unfold shr_fexp, shr, fexp, SpecFloat.emin, prec, emax.
  change (3 - 1024 - 53) with (-1074).
  set (n := Z.max (Zdigits2 m + e - 53) (-1074) - e).
  destruct n as [|q|q] eqn:En; cbn [fst snd];
    rewrite ?shr_record_of_loc_m.
  - split; [exact Hm|]. intros Hp Hd. split; [exact Hp|]. lia.
  - rewrite iter_pos_shr_1 by (rewrite shr_record_of_loc_m; exact Hm).
    rewrite shr_record_of_loc_m.
    assert (P : 0 < 2 ^ Z.pos q) by (apply Z.pow_pos_nonneg; lia).
    split; [apply Z.div_pos; lia|].
    intros Hp Hd. split; [|lia].
    destruct (Zdigits2_bounds m Hp) as [Hlo _].
    apply Z.div_str_pos. split; [exact P|].
    eapply Z.le_trans; [|exact Hlo]. apply Z.pow_le_mono_r; lia.
  - split; [exact Hm|]. intros Hp Hd. split; [exact Hp|]. lia.
Qed.

Lemma round_nearest_even_ge m l : m <= round_nearest_even m l.
Proof.
  destruct l as [|[]]; cbn [round_nearest_even]; try lia.
  destruct (Z.even m); lia.
Qed.

(** The result of rounding a non-negative mantissa has the sign asked for;
    it is not zero when the value is at least the smallest positive
    number. *)
Lemma binary_round_aux_sign (sx : bool) (m e : Z) (l : location) :
  0 <= m ->
  let r := binary_round_aux prec emax sx m e l in
  (r = S754_zero sx \/ r = S754_infinity sx
   \/ exists m' e', r = S754_finite sx m' e')
  /\ (0 < m -> -1074 - e < Zdigits2 m -> r <> S754_zero sx).
Proof.
  intros Hm. unfold binary_round_aux.
  destruct (shr_fexp_m m e l Hm) as [H1 H1p].
  destruct (shr_fexp prec emax m e l) as [mrs' e'] eqn:E1.
  cbn [fst snd] in H1, H1p.
  set (m2 := round_nearest_even (shr_m mrs') (loc_of_shr_record mrs')).
  assert (Hm2 : shr_m mrs' <= m2) by apply round_nearest_even_ge.
  assert (H2' : 0 <= m2) by lia.
  destruct (shr_fexp_m m2 e' loc_Exact H2') as [H2 H2p].
  destruct (shr_fexp prec emax m2 e' loc_Exact) as [mrs'' e''] eqn:E2.
  cbn [fst snd] in H2, H2p. cbn zeta.
  destruct (shr_m mrs'') as [|p|p] eqn:E3; [| |lia].
  - split; [now left|]. intros Hp Hd. exfalso.
    destruct (H1p Hp Hd) as [Hp1 He1].
    assert (Hp2 : 0 < m2) by lia.
    assert (Hd2 : -1074 - e' < Zdigits2 m2).
    { destruct m2; cbn [Zdigits2]; lia. }
    destruct (H2p Hp2 Hd2) as [Hp3 _]. lia.
  - split.
    + destruct (e'' <=? emax - prec); [right; right; eauto|right; now left].
    + intros _ _. destruct (e'' <=? emax - prec); discriminate.
Qed.

Lemma iter_xO_pow (m d : positive) :
  Z.pos (Pos.iter xO m d) = Z.pos m * 2 ^ Z.pos d.
Proof.
  induction d as [|d IH] using Pos.peano_ind.
  - cbn [Pos.iter]. rewrite Pos2Z.inj_xO. lia.
  - rewrite Pos.iter_succ, Pos2Z.inj_xO, IH, Pos2Z.inj_succ,
      Z.pow_succ_r by lia. lia.
Qed.

Lemma shl_align_value (m : positive) (e e' : Z) :
  let r := shl_align m e e' in
  snd r = Z.min e e'
  /\ Z.pos (fst r) = Z.pos m * 2 ^ (e - snd r)
  /\ Z.pos (digits2_pos m) + e <= Z.pos (digits2_pos (fst r)) + snd r.
Proof.
  unfold shl_align. destruct (e' - e) as [|d|d] eqn:E; cbn [fst snd].
  - split; [lia|]. rewrite Z.sub_diag. cbn. split; lia.
  - split; [lia|]. rewrite Z.sub_diag. cbn. split; lia.
  - split; [lia|]. replace (e - e') with (Z.pos d) by lia.
    split; [apply iter_xO_pow|].
    pose proof (digits2_pos_bounds m) as [Hlo _].
    pose proof (digits2_pos_bounds (Pos.iter xO m d)) as [_ Hhi].
    rewrite iter_xO_pow in Hhi.
    assert (H : 2 ^ (Z.pos (digits2_pos m) - 1 + Z.pos d)
                < 2 ^ Z.pos (digits2_pos (Pos.iter xO m d))).
    { eapply Z.le_lt_trans; [|exact Hhi]. rewrite Z.pow_add_r by lia.
      apply Z.mul_le_mono_nonneg_r; [apply Z.pow_nonneg; lia|exact Hlo]. }
    apply Z.pow_lt_mono_r_iff in H; lia.
Qed.

(** Rounding a non-zero integer multiple of a power of two that is not
    below the smallest exponent never gives zero and keeps the sign. *)
Lemma binary_normalize_sign (m e : Z) (szero : bool) :
  -1074 <= e ->
  let r := binary_normalize prec emax m e szero in
  (m = 0 -> r = S754_zero szero)
  /\ (0 < m -> r = S754_infinity false \/ exists m' e', r = S754_finite false m' e')
  /\ (m < 0 -> r = S754_infinity true \/ exists m' e', r = S754_finite true m' e').
Proof.
  intros He.
  assert (Hround : forall s p,
             binary_round prec emax s p e = S754_infinity s
             \/ exists m' e', binary_round prec emax s p e = S754_finite s m' e').
  { intros s p. unfold binary_round.
    pose proof (shl_align_value p e (fexp prec emax (Z.pos (digits2_pos p) + e)))
      as (Hs & Hv & Hd).
    destruct (shl_align p e _) as [mz ez]. cbn [fst snd] in Hs, Hv, Hd.
    destruct (binary_round_aux_sign s (Z.pos mz) ez loc_Exact ltac:(lia))
      as [Hcases Hnz].
    assert (Hne : binary_round_aux prec emax s (Z.pos mz) ez loc_Exact
                  <> S754_zero s).
    { apply Hnz; [lia|]. cbn [Zdigits2].
      assert (-1074 <= ez).
      { rewrite Hs. unfold fexp, SpecFloat.emin, prec, emax. lia. }
      lia. }
    destruct Hcases as [Hz|[Hi|Hf]]; [contradiction|now left|now right]. }
  cbn zeta. split; [intros ->; reflexivity|]. split.
  - intros Hp. destruct m as [|p|p]; try lia. apply Hround.
  - intros Hn. destruct m as [|p|p]; try lia. apply Hround.
Qed.


(** *** Comparisons of numbers *)

Lemma ltb_key (x y : float) :
  (x <? y)%float
  = match numKey x, numKey y with
    | Some a, Some b => a <? b
    | _, _ => false
    end.
Proof.
  rewrite ltb_spec. unfold SFltb, numKey.
  rewrite SFcompare_key by apply Prim2SF_valid.
  destruct (SFkey (Prim2SF x)) as [a|]; [|reflexivity].
  destruct (SFkey (Prim2SF y)) as [b|]; [|reflexivity].
  unfold Z.ltb. now destruct (a ?= b).
Qed.

Lemma leb_key (x y : float) :
  (x <=? y)%float
  = match numKey x, numKey y with
    | Some a, Some b => a <=? b
    | _, _ => false
    end.
Proof.
  rewrite leb_spec. unfold SFleb, numKey.
  rewrite SFcompare_key by apply Prim2SF_valid.
  destruct (SFkey (Prim2SF x)) as [a|]; [|reflexivity].
  destruct (SFkey (Prim2SF y)) as [b|]; [|reflexivity].
  unfold Z.leb. now destruct (a ?= b).
Qed.

Lemma eqb_key (x y : float) :
  (x =? y)%float
  = match numKey x, numKey y with
    | Some a, Some b => a =? b
    | _, _ => false
    end.
Proof.
  rewrite eqb_spec. unfold SFeqb, numKey.
  rewrite SFcompare_key by apply Prim2SF_valid.
  destruct (SFkey (Prim2SF x)) as [a|]; [|reflexivity].
  destruct (SFkey (Prim2SF y)) as [b|]; [|reflexivity].
  rewrite Z.eqb_compare. now destruct (a ?= b).
Qed.

Lemma is_nan_key (x : float) :
  is_nan x = match numKey x with Some _ => false | None => true end.
Proof.
  unfold is_nan. rewrite eqb_key. destruct (numKey x) as [a|]; [|reflexivity].
  now rewrite Z.eqb_refl.
Qed.

(** The sign of a difference is the comparison of its operands: the
    comparator [(a, b) => b - a] is positive exactly when [a < b]. *)
Lemma SFsub_positive (x y : spec_float) :
  valid_binary x = true -> valid_binary y = true ->
  SFltb (S754_zero false) (SF64sub y x) = SFltb x y.
Proof.
  intros Hx Hy.
  destruct x as [sx|sx| |sx mx ex], y as [sy|sy| |sy my ey];
    try reflexivity;
    try (destruct sx; reflexivity);
    try (destruct sy; reflexivity);
    try (destruct sx, sy; reflexivity).
  unfold SFltb at 2. rewrite SFcompare_key by assumption.
  cbn [SFkey valid_binary] in *.
  destruct (bounded_facts mx ex Hx) as (Hex & _).
  destruct (bounded_facts my ey Hy) as (Hey & _).
  unfold SF64sub, SFsub.
  set (ez := Z.min ey ex).
  assert (Hez : ez <= ex /\ ez <= ey /\ -1074 <= ez) by (subst ez; lia).
  clearbody ez.
  pose proof (shl_align_value my ey ez) as (Hsy & Hvy & _).
  pose proof (shl_align_value mx ex ez) as (Hsx & Hvx & _).
  cbn zeta in Hsy, Hvy, Hsx, Hvx.
  replace (snd (shl_align my ey ez)) with ez in Hvy by lia.
  replace (snd (shl_align mx ex ez)) with ez in Hvx by lia.
  rewrite Hvy, Hvx.
  set (D := cond_Zopp sy (Z.pos my * 2 ^ (ey - ez))
            - cond_Zopp sx (Z.pos mx * 2 ^ (ex - ez))).
  assert (Hkey : cond_Zopp sy (Z.pos my * 2 ^ (ey + 1074))
                 - cond_Zopp sx (Z.pos mx * 2 ^ (ex + 1074))
                 = D * 2 ^ (ez + 1074)).
  { subst D.
    replace (ey + 1074) with ((ey - ez) + (ez + 1074)) by lia.
    replace (ex + 1074) with ((ex - ez) + (ez + 1074)) by lia.
    rewrite (Z.pow_add_r 2 (ey - ez) (ez + 1074)),
      (Z.pow_add_r 2 (ex - ez) (ez + 1074)) by lia.
    generalize (2 ^ (ey - ez)) (2 ^ (ex - ez)) (2 ^ (ez + 1074)).
    intros a b c. destruct sx, sy; cbn [cond_Zopp]; ring. }
  assert (P : 0 < 2 ^ (ez + 1074)) by (apply Z.pow_pos_nonneg; lia).
  destruct (binary_normalize_sign D ez false ltac:(lia)) as (Hz & Hp & Hn).
  cbn zeta in Hz, Hp, Hn.
  destruct (Z.lt_trichotomy D 0) as [L|[E|G]].
  - assert (Hlt : (cond_Zopp sx (Z.pos mx * 2 ^ (ex + 1074))
                   ?= cond_Zopp sy (Z.pos my * 2 ^ (ey + 1074))) = Gt)
      by (apply Z.compare_gt_iff; nia).
    rewrite Hlt.
    destruct (Hn L) as [->|(m' & e' & ->)]; reflexivity.
  - assert (Hlt : (cond_Zopp sx (Z.pos mx * 2 ^ (ex + 1074))
                   ?= cond_Zopp sy (Z.pos my * 2 ^ (ey + 1074))) = Eq)
      by (apply Z.compare_eq_iff; nia).
    rewrite Hlt, (Hz E). reflexivity.
  - assert (Hlt : (cond_Zopp sx (Z.pos mx * 2 ^ (ex + 1074))
                   ?= cond_Zopp sy (Z.pos my * 2 ^ (ey + 1074))) = Lt)
      by (apply Z.compare_lt_iff; nia).
    rewrite Hlt.
    destruct (Hp G) as [->|(m' & e' & ->)]; reflexivity.
Qed.

Lemma sub_positive (x y : float) : (0 <? y - x)%float = (x <? y)%float.
Proof.
  rewrite !ltb_spec, sub_spec.
  change (Prim2SF 0) with (S754_zero false).
  apply SFsub_positive; apply Prim2SF_valid.
Qed.


Lemma ltb_true (x y : float) :
  (x <? y)%float = true
  <-> exists a b, numKey x = Some a /\ numKey y = Some b /\ a < b.
Proof.
  rewrite ltb_key.
  destruct (numKey x) as [a|], (numKey y) as [b|]; split;
    try discriminate; try (intros (a' & b' & H1 & H2 & _); discriminate).
  - intros H. apply Z.ltb_lt in H. eauto.
  - intros (a' & b' & H1 & H2 & H). injection H1 as <-. injection H2 as <-.
    now apply Z.ltb_lt.
Qed.

Lemma is_nan_false (x : float) :
  is_nan x = false <-> exists a, numKey x = Some a.
Proof.
  rewrite is_nan_key. destruct (numKey x) as [a|]; split;
    try discriminate; eauto. intros (a & H). discriminate.
Qed.

Lemma ltb_trans (x y z : float) :
  (x <? y)%float = true -> (y <? z)%float = true -> (x <? z)%float = true.
Proof.
  rewrite !ltb_true.
  intros (a & b & Ha & Hb & H1) (b' & c & Hb' & Hc & H2).
  rewrite Hb in Hb'. injection Hb' as <-. exists a, c. repeat split; auto. lia.
Qed.

(** Between two numbers of which one is below the other, a third number
    that is not NaN is above the first or below the second. *)
Lemma ltb_between (x y z : float) :
  is_nan y = false -> (x <? z)%float = true ->
  (x <? y)%float = true \/ (y <? z)%float = true.
Proof.
  rewrite is_nan_false, !ltb_true.
  intros (b & Hb) (a & c & Ha & Hc & H).
  destruct (Z_lt_le_dec a b) as [L|G].
  - left. exists a, b. auto.
  - right. exists b, c. repeat split; auto. lia.
Qed.

Lemma ltb_irrefl (x : float) : (x <? x)%float = false.
Proof.
  rewrite ltb_key. destruct (numKey x); [apply Z.ltb_irrefl|reflexivity].
Qed.

Lemma leb_not_ltb (x y : float) :
  is_nan x = false -> is_nan y = false ->
  (x <=? y)%float = negb (y <? x)%float.
Proof.
  rewrite !is_nan_false. intros (a & Ha) (b & Hb).
  rewrite leb_key, ltb_key, Ha, Hb.
  destruct (Z.leb_spec a b), (Z.ltb_spec b a); try reflexivity; lia.
Qed.

Lemma leb_true_not_nan (x y : float) :
  (x <=? y)%float = true -> is_nan x = false /\ is_nan y = false.
Proof.
  rewrite leb_key, !is_nan_key.
  destruct (numKey x), (numKey y); try discriminate. auto.
Qed.

Lemma eqb_true_ltb (x y : float) :
  (x =? y)%float = true ->
  (x <? y)%float = false /\ (y <? x)%float = false.
Proof.
  rewrite eqb_key, !ltb_key.
  destruct (numKey x) as [a|], (numKey y) as [b|]; try discriminate.
  intros H. apply Z.eqb_eq in H. subst b. now rewrite Z.ltb_irrefl.
Qed.

(** *** Byte counts as numbers *)

Lemma Number_ofZ_positive (z : Z) :
  0 < z < 2 ^ 63 ->
  Prim2SF (Number_ofZ z) = S754_infinity false
  \/ exists m e, Prim2SF (Number_ofZ z) = S754_finite false m e.
Proof.
  intros Hz. unfold Number_ofZ. rewrite of_uint63_spec, Uint63.of_Z_spec.
  rewrite Z.mod_small by (change Uint63Axioms.wB with (2 ^ 63); lia).
  destruct (binary_normalize_sign z 0 false ltac:(lia)) as (_ & Hp & _).
  apply Hp. lia.
Qed.

Lemma positive_number (x : spec_float) :
  valid_binary x = true ->
  (x = S754_infinity false \/ exists m e, x = S754_finite false m e) ->
  SFeqb x (S754_zero false) = false /\ SFeqb x x = true.
Proof.
  intros Hv [->|(m & e & ->)]; [split; reflexivity|].
  split; [reflexivity|]. unfold SFeqb. cbn [SFcompare].
  rewrite Z.compare_refl, Pcompare_refl. reflexivity.
Qed.

(** Twice a positive number is a positive number. *)
Lemma twice_positive (x : float) :
  (Prim2SF x = S754_infinity false
   \/ exists m e, Prim2SF x = S754_finite false m e) ->
  Prim2SF (x * 2)%float = S754_infinity false
  \/ exists m e, Prim2SF (x * 2)%float = S754_finite false m e.
Proof.
  intros Hx. rewrite mul_spec.
  change (Prim2SF 2) with (S754_finite false 4503599627370496 (-51)).
  pose proof (Prim2SF_valid x) as Hv.
  destruct Hx as [->|(m & e & E)]; [now left|].
  rewrite E in Hv |- *. cbn [valid_binary] in Hv.
  destruct (bounded_facts m e Hv) as (He & _).
  unfold SF64mul, SFmul. cbn [xorb].
  destruct (binary_round_aux_sign false
              (Z.pos (m * 4503599627370496)) (e + -51) loc_Exact ltac:(lia))
    as [Hcases Hnz].
  cbn zeta in Hcases, Hnz.
  assert (Hne : binary_round_aux prec emax false
                  (Z.pos (m * 4503599627370496)) (e + -51) loc_Exact
                <> S754_zero false).
  { apply Hnz; [lia|]. cbn [Zdigits2].
    pose proof (digits2_pos_bounds (m * 4503599627370496)) as [_ Hhi].
    assert (H : 2 ^ 52 < 2 ^ Z.pos (digits2_pos (m * 4503599627370496))).
    { eapply Z.le_lt_trans; [|exact Hhi]. rewrite Pos2Z.inj_mul.
      change (2 ^ 52) with 4503599627370496. lia. }
    apply Z.pow_lt_mono_r_iff in H; lia. }
  destruct Hcases as [Hz|[Hi|Hf]]; [contradiction|now left|now right].
Qed.

Lemma doubled_size_truthy (z : Z) :
  0 < z < 2 ^ 63 -> truthy_num (Some (Number_ofZ z * 2)%float) = true.
Proof.
  intros Hz. pose proof (twice_positive _ (Number_ofZ_positive z Hz)) as H.
  destruct (positive_number _ (Prim2SF_valid _) H) as [H0 Hr].
  unfold truthy_num, is_nan. rewrite !eqb_spec.
  change (Prim2SF 0) with (S754_zero false). now rewrite H0, Hr.
Qed.

(** *** The terms of the score *)

Lemma Math_max_zero (q : float) :
  Math_max 0 q
  = if is_nan q then nan else if (0 <? q)%float then q else 0%float.
Proof.
  unfold Math_max. change (is_nan 0) with false. cbn [orb].
  destruct (is_nan q); [reflexivity|].
  destruct (0 <? q)%float; [reflexivity|].
  destruct (q <? 0)%float; [reflexivity|].
  change (get_sign 0) with false. reflexivity.
Qed.




Lemma SFsub_not_nan (x y : spec_float) :
  valid_binary x = true -> valid_binary y = true ->
  (exists m e, x = S754_finite false m e) -> y <> S754_nan ->
  SF64sub x y <> S754_nan.
Proof.
  intros Hx Hy (m & e & ->) Hn.
  destruct y as [sy|sy| |sy my ey]; try discriminate; [contradiction|].
  cbn [valid_binary] in Hx, Hy.
  destruct (bounded_facts m e Hx) as (He & _).
  destruct (bounded_facts my ey Hy) as (Hey & _).
  unfold SF64sub, SFsub.
  set (D := _ - _).
  destruct (binary_normalize_sign D (Z.min e ey) false ltac:(lia))
    as (Hz & Hp & Hneg). cbn zeta in Hz, Hp, Hneg.
  destruct (Z.lt_trichotomy D 0) as [L|[E|G]].
  - destruct (Hneg L) as [->|(m' & e' & ->)]; discriminate.
  - rewrite (Hz E). discriminate.
  - destruct (Hp G) as [->|(m' & e' & ->)]; discriminate.
Qed.

Lemma SFdiv_core_nonneg (m1 : positive) (e1 : Z) (m2 : positive) (e2 : Z) :
  0 <= fst (fst (SFdiv_core_binary prec emax (Z.pos m1) e1 (Z.pos m2) e2)).
Proof.
  unfold SFdiv_core_binary.
  set (s := _ - _ - _).
  set (m' := match s with Z.pos _ => Z.shiftl (Z.pos m1) s | 0 => Z.pos m1
                     | Z.neg _ => 0 end).
  assert (Hm' : 0 <= m').
  { subst m'. destruct s; try lia. apply Z.shiftl_nonneg. lia. }
  pose proof (Z_div_mod m' (Z.pos m2) ltac:(lia)) as H.
  destruct (Z.div_eucl m' (Z.pos m2)) as [q r]. cbn [fst]. nia.
Qed.

(** The quotient of a number that is not above zero by a positive number
    is not above zero, and is a number. *)
Lemma SFdiv_not_positive (x y : spec_float) :
  x <> S754_nan -> SFltb (S754_zero false) x = false ->
  (exists m e, y = S754_finite false m e) ->
  SF64div x y <> S754_nan
  /\ SFltb (S754_zero false) (SF64div x y) = false.
Proof.
  intros Hn Hx (m & e & ->).
  destruct x as [sx|sx| |sx mx ex]; try contradiction.
  - split; [discriminate|reflexivity].
  - destruct sx; [|discriminate]. split; [discriminate|reflexivity].
  - destruct sx; [|discriminate].
    unfold SF64div, SFdiv. cbn [xorb].
    pose proof (SFdiv_core_nonneg mx ex m e) as Hq.
    destruct (SFdiv_core_binary prec emax (Z.pos mx) ex (Z.pos m) e)
      as [[mz ez] lz]. cbn [fst] in Hq.
    destruct (binary_round_aux_sign true mz ez lz Hq)
      as [[H|[H|(m' & e' & H)]] _]; cbn zeta in H; rewrite H;
      split; try discriminate; reflexivity.
Qed.

(** A response time of one second or more earns nothing. *)
Lemma slow_response_term (r : float) :
  (1000 <=? r)%float = true ->
  Math_max 0 ((1000 - r) / 1000)%float = 0%float.
Proof.
  intros Hr.
  destruct (leb_true_not_nan _ _ Hr) as [_ Hrn].
  assert (Hlt : (r <? 1000)%float = false).
  { rewrite leb_not_ltb in Hr by (auto; reflexivity).
    now apply negb_true_iff in Hr. }
  assert (Hd : (0 <? 1000 - r)%float = false) by now rewrite sub_positive.
  assert (Hdn : Prim2SF (1000 - r)%float <> S754_nan).
  { rewrite sub_spec. apply SFsub_not_nan; try apply Prim2SF_valid.
    - change (Prim2SF 1000) with (S754_finite false 8796093022208000 (-43)).
      eauto.
    - intros E. unfold is_nan in Hrn. rewrite eqb_spec, E in Hrn.
      discriminate. }
  rewrite ltb_spec in Hd. change (Prim2SF 0) with (S754_zero false) in Hd.
  destruct (SFdiv_not_positive (Prim2SF (1000 - r)%float) (Prim2SF 1000)
              Hdn Hd) as [Hqn Hq].
  { change (Prim2SF 1000) with (S754_finite false 8796093022208000 (-43)).
    eauto. }
  rewrite <- div_spec in Hqn, Hq.
  rewrite Math_max_zero.
  assert (Hnan : is_nan ((1000 - r) / 1000)%float = false).
  { unfold is_nan. rewrite eqb_spec.
    destruct (Prim2SF ((1000 - r) / 1000)%float) as [s|s| |s m e] eqn:E;
      try contradiction; try (destruct s; reflexivity).
    unfold SFeqb. cbn [SFcompare].
    rewrite Z.compare_refl, Pcompare_refl. now destruct s. }
  rewrite Hnan, ltb_spec. change (Prim2SF 0) with (S754_zero false).
  now rewrite Hq.
Qed.

Lemma normal_digits (m : positive) :
  2 ^ 52 <= Z.pos m < 2 ^ 53 -> digits2_pos m = 53%positive.
Proof.
  intros [Hlo Hhi]. pose proof (digits2_pos_bounds m) as [Dlo Dhi].
  assert (H1 : 2 ^ 52 < 2 ^ Z.pos (digits2_pos m)) by lia.
  assert (H2 : 2 ^ (Z.pos (digits2_pos m) - 1) < 2 ^ 53) by lia.
  apply Z.pow_lt_mono_r_iff in H1; [|lia|lia].
  apply Z.pow_lt_mono_r_iff in H2; [|lia|lia].
  lia.
Qed.

(** Dividing a number of at least [2^-19] by [2^30] changes its exponent
    only. *)
Lemma SFdiv_GiB (m : positive) (e : Z) :
  bounded prec emax m e = true -> -19 <= e ->
  SF64div (S754_finite false m e) (S754_finite false 4503599627370496 (-22))
  = S754_finite false m (e - 30).
Proof.
  intros Hb He.
  destruct (bounded_facts m e Hb) as (Hr & Hhi & Hlo).
  specialize (Hlo ltac:(lia)).
  pose proof (normal_digits m (conj Hlo Hhi)) as Hd.
  unfold SF64div, SFdiv, SFdiv_core_binary. cbn [xorb Zdigits2].
  rewrite Hd. cbn [digits2_pos Pos.succ].
  unfold fexp, SpecFloat.emin, prec, emax.
  replace (Z.min (Z.max (53 + e - (53 + -22) - 53) (3 - 1024 - 53)) (e - -22))
    with (e - 31) by lia.
  replace (e - -22 - (e - 31)) with 53 by lia.
  pose proof (Z_div_mod (Z.shiftl (Z.pos m) 53) 4503599627370496 ltac:(lia))
    as Hdiv.
  rewrite Z.shiftl_mul_pow2 in Hdiv |- * by lia.
  change (2 ^ 53) with 9007199254740992 in Hdiv |- *.
  destruct (Z.div_eucl (Z.pos m * 9007199254740992) 4503599627370496)
    as [q r].
  assert (Eq : q = Z.pos m~0) by lia.
  assert (Er : r = 0) by lia.
  subst q r.
  change (new_location 4503599627370496 0) with loc_Exact.
  unfold binary_round_aux, shr_fexp, fexp, SpecFloat.emin.
  cbn [Zdigits2].
  replace (Z.pos (digits2_pos m~0)) with 54
    by (cbn [digits2_pos]; rewrite Hd; reflexivity).
  replace (Z.max (54 + (e - 31) - 53) (3 - 1024 - 53) - (e - 31)) with 1
    by lia.
  cbn [shr shr_record_of_loc iter_pos shr_1 shr_m loc_of_shr_record
       round_nearest_even Zdigits2 orb].
  rewrite Hd.
  replace (Z.max (53 + (e - 31 + 1) - 53) (3 - 1024 - 53) - (e - 31 + 1))
    with 0 by lia.
  cbn [shr shr_m].
  replace (e - 31 + 1) with (e - 30) by lia.
  destruct (Z.leb_spec (e - 30) (1024 - 53)); [reflexivity|lia].
Qed.

(** Free space of 10 GiB or more earns the full ten points. *)
Lemma ample_space_term (b : float) :
  (10737418240 <=? b)%float = true ->
  Math_min (b / (1024 * 1024 * 1024))%float 10 = 10%float.
Proof.
  intros Hb.
  change (1024 * 1024 * 1024)%float with 1073741824%float.
  pose proof Hb as Hkey. rewrite leb_key in Hkey. unfold numKey in Hkey.
  change (Prim2SF 10737418240)
    with (S754_finite false 5629499534213120 (-19)) in Hkey.
  pose proof (Prim2SF_valid b) as Hv.
  assert (Hq : Prim2SF (b / 1073741824)%float = S754_infinity false
               \/ exists m e,
                    Prim2SF (b / 1073741824)%float = S754_finite false m e
                    /\ 5629499534213120 * 2 ^ (-49 + 1074)
                       <= Z.pos m * 2 ^ (e + 1074)).
  { rewrite div_spec.
    change (Prim2SF 1073741824)
      with (S754_finite false 4503599627370496 (-22)).
    destruct (Prim2SF b) as [s|s| |s m e]; cbn [SFkey] in Hkey;
      try discriminate.
    - destruct s; [|now left]. apply Z.leb_le in Hkey.
      cbn [cond_Zopp] in Hkey.
      assert (0 < 5629499534213120 * 2 ^ (-19 + 1074))
        by (apply Z.mul_pos_pos; [lia|apply Z.pow_pos_nonneg; lia]).
      assert (0 < 2 ^ 2100) by (apply Z.pow_pos_nonneg; lia). lia.
    - cbn [valid_binary] in Hv. apply Z.leb_le in Hkey.
      destruct (bounded_facts m e Hv) as (Hr & Hhi & _).
      assert (P : 0 < 2 ^ (e + 1074)) by (apply Z.pow_pos_nonneg; lia).
      assert (P' : 0 < 5629499534213120 * 2 ^ (-19 + 1074))
        by (apply Z.mul_pos_pos; [lia|apply Z.pow_pos_nonneg; lia]).
      destruct s; cbn [cond_Zopp] in Hkey; [lia|].
      assert (He : -19 <= e).
      { destruct (Z_lt_le_dec e (-19)) as [L|G]; [exfalso|exact G].
        assert (2 ^ (e + 1074) <= 2 ^ (-20 + 1074))
          by (apply Z.pow_le_mono_r; lia).
        assert (E : 2 ^ (-19 + 1074) = 2 * 2 ^ (-20 + 1074)).
        { change (-19 + 1074) with (Z.succ (-20 + 1074)).
          rewrite Z.pow_succ_r by lia. reflexivity. }
        assert (0 < 2 ^ (-20 + 1074)) by (apply Z.pow_pos_nonneg; lia).
        change (2 ^ 53) with 9007199254740992 in Hhi. nia. }
      right. exists m, (e - 30). split; [now apply SFdiv_GiB|].
      replace (e + 1074) with ((e - 30 + 1074) + 30) in Hkey by lia.
      rewrite (Z.pow_add_r 2 (e - 30 + 1074) 30) in Hkey by lia.
      replace (-19 + 1074) with ((-49 + 1074) + 30) in Hkey by lia.
      rewrite (Z.pow_add_r 2 (-49 + 1074) 30) in Hkey by lia.
      assert (Hz : 0 < 2 ^ 30) by lia.
      revert Hz Hkey.
      generalize (2 ^ (e - 30 + 1074)) (2 ^ (-49 + 1074)) (2 ^ 30).
      intros x y z Hz Hkey. nia. }
  unfold Math_min.
  assert (Hcmp : is_nan (b / 1073741824)%float = false
                 /\ (b / 1073741824 <? 10)%float = false
                 /\ get_sign (b / 1073741824)%float = false).
  { unfold get_sign, is_zero, is_nan.
    rewrite !eqb_key, !ltb_key. unfold numKey.
    change (Prim2SF 10) with (S754_finite false 5629499534213120 (-49)).
    change (Prim2SF zero) with (S754_zero false).
    assert (P' : 0 < 5629499534213120 * 2 ^ (-49 + 1074))
      by (apply Z.mul_pos_pos; [lia|apply Z.pow_pos_nonneg; lia]).
    destruct Hq as [E|(m & e & E & Hle)]; rewrite E; cbn [SFkey cond_Zopp].
    - assert (P : 0 < 2 ^ 2100) by (apply Z.pow_pos_nonneg; lia).
      assert (B : 5629499534213120 * 2 ^ (-49 + 1074) < 2 ^ 2100).
      { apply (finite_key_bounds 5629499534213120 (-49)). reflexivity. }
      rewrite Z.eqb_refl.
      destruct (Z.eqb_spec (2 ^ 2100) 0); [lia|]. rewrite E. cbn [SFkey cond_Zopp].
      split; [reflexivity|]. split; apply Z.ltb_ge; lia.
    - rewrite Z.eqb_refl.
      destruct (Z.eqb_spec (Z.pos m * 2 ^ (e + 1074)) 0); [lia|].
      rewrite E. cbn [SFkey cond_Zopp].
      split; [reflexivity|]. split; apply Z.ltb_ge; lia. }
  destruct Hcmp as (Hn & Hlt & Hs).
  rewrite Hn, Hlt, Hs. change (is_nan 10) with false. cbn [orb].
  now destruct (10 <? b / 1073741824)%float.
Qed.

End Numbers.

(** ** Chunk planning *)

Section ChunkPlan.

Import Uploader.

Lemma for_range_nil a b : b <= a -> for_range a b = [].
Proof.
  intros H. unfold for_range.
  replace (Z.to_nat (b - a)) with O by lia. reflexivity.
Qed.

Lemma for_range_cons a b : a < b -> for_range a b = a :: for_range (a + 1) b.
Proof.
  intros H. unfold for_range.
  replace (Z.to_nat (b - a)) with (S (Z.to_nat (b - (a + 1)))) by lia.
  cbn [seq map]. f_equal; [lia|].
  rewrite <- seq_shift, map_map.
  apply map_ext. intros k. lia.
Qed.

Lemma map_seq_offset (a : Z) (x s m : nat) :
  map (fun k => a + Z.of_nat k) (seq (x + s) m)
  = map (fun k => a + Z.of_nat x + Z.of_nat k) (seq s m).
Proof.
  revert s. induction m as [|m IH]; intros s; [reflexivity|].
  cbn [seq map]. f_equal; [lia|].
  replace (S (x + s)) with (x + S s)%nat by lia. apply IH.
Qed.

Lemma for_range_app a b c :
  a <= b -> b <= c -> for_range a c = for_range a b ++ for_range b c.
Proof.
  intros Hab Hbc. unfold for_range.
  replace (Z.to_nat (c - a)) with (Z.to_nat (b - a) + Z.to_nat (c - b))%nat by lia.
  rewrite seq_app, map_app. f_equal.
  rewrite (Nat.add_comm 0), map_seq_offset.
  apply map_ext. intros k. lia.
Qed.

Lemma for_range_length a b : Z.of_nat (List.length (for_range a b)) = Z.max 0 (b - a).
Proof. unfold for_range. rewrite length_map, length_seq. lia. Qed.

Lemma In_for_range a b i : In i (for_range a b) <-> a <= i < b.
Proof.
  unfold for_range. rewrite in_map_iff. split.
  - intros (k & <- & Hk). apply in_seq in Hk. lia.
  - intros H. exists (Z.to_nat (i - a)). split; [lia|]. apply in_seq. lia.
Qed.

Lemma ceil_quotient a b :
  0 < b -> Math_ceil (num_div a b) = - ((- a) / b).
Proof.
  intros Hb. unfold Math_ceil, num_div, Qceiling. f_equal.
  rewrite Zdiv_Qdiv. apply Qfloor_comp.
  rewrite inject_Z_opp. field.
  intros E. apply (Qeq_eq_bool) in E. revert E.
  unfold Qeq_bool, inject_Z; cbn. rewrite Z.mul_1_r.
  destruct b; cbn; lia || discriminate.
Qed.

Lemma computeTotalChunks_bounds f :
  let n := computeTotalChunks f in
  file_size f <= n * CHUNK_SIZE /\ (n - 1) * CHUNK_SIZE < file_size f.
Proof.
  unfold computeTotalChunks. rewrite ceil_quotient by reflexivity.
  cbv zeta. unfold CHUNK_SIZE.
  pose proof (Z.div_mod (- file_size f) (4 * 1024 * 1024) ltac:(lia)) as E.
  pose proof (Z.mod_pos_bound (- file_size f) (4 * 1024 * 1024) ltac:(lia)) as B.
  lia.
Qed.

Lemma computeTotalChunks_nonneg f : 0 <= file_size f -> 0 <= computeTotalChunks f.
Proof.
  intros H. pose proof (computeTotalChunks_bounds f) as [B _].
  unfold CHUNK_SIZE in B. lia.
Qed.

Lemma initialChunks_indices n :
  map chunkIndex (initialChunks n) = for_range 0 n.
Proof.
  unfold initialChunks. rewrite map_map. cbn. apply map_id.
Qed.

(** With enough fuel the batch loop hands out the chunks
    [batchStart .. n-1], in index order. *)
Lemma batchLoop_tasks f n fuel batchStart :
  0 <= batchStart ->
  n - batchStart <= Z.of_nat fuel ->
  exists batches,
    batchLoop fuel f n batchStart = Some batches
    /\ concat (map batch_tasks batches)
       = map (sliceChunk f) (for_range batchStart n).
Proof.
  revert batchStart. induction fuel as [|fuel IH]; intros b Hb Hfuel.
  - cbn. destruct (Z.ltb_spec b n); [lia|].
    exists []. split; [reflexivity|]. now rewrite for_range_nil by lia.
  - cbn [batchLoop]. destruct (Z.ltb_spec b n) as [Hlt|Hge].
    + destruct (IH (b + MAX_CONCURRENT_UPLOADS)) as (rest & -> & Hrest).
      * unfold MAX_CONCURRENT_UPLOADS. lia.
      * unfold MAX_CONCURRENT_UPLOADS. lia.
      * eexists. split; [reflexivity|].
        cbn [map concat batch_tasks]. rewrite Hrest.
        destruct (Z.le_ge_cases (b + MAX_CONCURRENT_UPLOADS) n) as [Hle|Hgt].
        -- rewrite Z.min_l by lia. rewrite <- map_app.
           rewrite <- for_range_app; unfold MAX_CONCURRENT_UPLOADS in *; auto; lia.
        -- rewrite Z.min_r by lia.
           rewrite (for_range_nil (b + MAX_CONCURRENT_UPLOADS) n) by lia.
           cbn. now rewrite app_nil_r.
    + exists []. split; [reflexivity|]. now rewrite for_range_nil by lia.
Qed.

Lemma sliceChunk_range f i :
  0 <= i -> i * CHUNK_SIZE < file_size f ->
  let t := sliceChunk f i in
  task_index t = i
  /\ task_start t = i * CHUNK_SIZE
  /\ task_end t = Z.min ((i + 1) * CHUNK_SIZE) (file_size f)
  /\ task_start t < task_end t
  /\ blob_offset (task_blob t) = task_start t
  /\ blob_size (task_blob t) = task_end t - task_start t.
Proof.
  intros Hi Hlt. unfold sliceChunk, Blob_slice, clamp_bound, file_blob.
  cbn [task_index task_start task_end task_blob blob_offset blob_size].
  unfold CHUNK_SIZE in *.
  destruct (Z.ltb_spec (i * (4 * 1024 * 1024)) 0); [lia|].
  destruct (Z.ltb_spec (Z.min (i * (4 * 1024 * 1024) + 4 * 1024 * 1024) (file_size f)) 0); lia.
Qed.

Lemma sliceChunks_tile f a n :
  0 <= a -> (n - 1) * CHUNK_SIZE < file_size f -> file_size f <= n * CHUNK_SIZE ->
  a <= n -> (a = n -> a * CHUNK_SIZE = file_size f) ->
  a * CHUNK_SIZE <= file_size f ->
  tiles (a * CHUNK_SIZE) (file_size f) (map (sliceChunk f) (for_range a n)).
Proof.
  intros Ha Hlo Hhi Han Hend Hle.
  remember (Z.to_nat (n - a)) as k eqn:Hk. revert a Ha Han Hend Hle Hk.
  induction k as [|k IH]; intros a Ha Han Hend Hle Hk.
  - assert (a = n) by lia. subst a. rewrite for_range_nil by lia. cbn.
    exact (Hend eq_refl).
  - assert (Han' : a < n) by lia.
    rewrite for_range_cons by lia. cbn [map tiles].
    assert (Hlt : a * CHUNK_SIZE < file_size f) by (unfold CHUNK_SIZE in *; lia).
    destruct (sliceChunk_range f a Ha Hlt) as (_ & Hs & He & Hne & _).
    split; [exact Hs|]. split; [lia|].
    rewrite He.
    destruct (Z.eq_dec (a + 1) n) as [Elast|Nlast].
    + subst n. rewrite Z.min_r by (unfold CHUNK_SIZE in *; lia).
      rewrite for_range_nil by lia. reflexivity.
    + rewrite Z.min_l by (unfold CHUNK_SIZE in *; lia).
      apply IH; try lia.
      unfold CHUNK_SIZE in *; lia.
Qed.

Lemma tiles_sum lo hi tasks :
  tiles lo hi tasks ->
  sumZ (map (fun t => task_end t - task_start t) tasks) = hi - lo.
Proof.
  revert lo. induction tasks as [|t r IH]; intros lo H.
  - cbn in *. lia.
  - destruct H as (Hs & _ & Hr). cbn [map sumZ fold_right].
    fold (sumZ (map (fun t => task_end t - task_start t) r)).
    rewrite (IH _ Hr). lia.
Qed.

(** The plan of a file of [size >= 0] bytes: [totalChunks] is the ceiling
    of [size / 4 MiB]; the descriptors carry the indices
    [0 .. totalChunks-1] in order; the batch loop terminates and hands out
    exactly one task per index, in order, cut from the byte range
    [[i * 4 MiB, min ((i+1) * 4 MiB, size))]; these ranges are non-empty,
    adjacent and cover [[0, size)], every blob has the size of its range and
    the sizes add up to [size]. *)
Lemma planBatches_partitions (f : File) :
  0 <= file_size f ->
  let n := computeTotalChunks f in
  (file_size f <= n * CHUNK_SIZE /\ (n - 1) * CHUNK_SIZE < file_size f)
  /\ CHUNK_SIZE = 4 * MiB
  /\ map chunkIndex (initialChunks n) = for_range 0 n
  /\ exists batches,
       planBatches f = Some batches
       /\ let tasks := List.concat (map batch_tasks batches) in
          map task_index tasks = for_range 0 n
          /\ (forall t, In t tasks ->
                task_start t = task_index t * CHUNK_SIZE
                /\ task_end t
                   = Z.min ((task_index t + 1) * CHUNK_SIZE) (file_size f)
                /\ blob_offset (task_blob t) = task_start t
                /\ blob_size (task_blob t) = task_end t - task_start t)
          /\ tiles 0 (file_size f) tasks
          /\ sumZ (map (fun t => blob_size (task_blob t)) tasks) = file_size f
          /\ (file_size f = 10 * MiB ->
              map (fun t => blob_size (task_blob t)) tasks
              = [4 * MiB; 4 * MiB; 2 * MiB]).
Proof.
  intros Hsize n.
  pose proof (computeTotalChunks_bounds f) as [Hhi Hlo]. fold n in Hhi, Hlo.
  pose proof (computeTotalChunks_nonneg f Hsize) as Hn. fold n in Hn.
  split; [split; assumption|]. split; [reflexivity|].
  split; [apply initialChunks_indices|].
  destruct (batchLoop_tasks f n (Z.to_nat n) 0) as (batches & Hplan & Htasks);
    [lia|lia|].
  exists batches. split; [exact Hplan|]. cbv zeta. rewrite Htasks.
  assert (Hin : forall t, In t (map (sliceChunk f) (for_range 0 n)) ->
                exists i, t = sliceChunk f i /\ 0 <= i
                          /\ i * CHUNK_SIZE < file_size f).
  { intros t Ht. apply in_map_iff in Ht. destruct Ht as (i & <- & Hi).
    apply In_for_range in Hi. exists i. split; [reflexivity|].
    unfold CHUNK_SIZE in *. lia. }
  assert (Htiles : tiles 0 (file_size f) (map (sliceChunk f) (for_range 0 n))).
  { change 0 with (0 * CHUNK_SIZE) at 1.
    apply sliceChunks_tile; lia. }
  assert (Hsum : sumZ (map (fun t => blob_size (task_blob t))
                           (map (sliceChunk f) (for_range 0 n)))
                 = file_size f).
  { rewrite <- (Z.sub_0_r (file_size f)).
    rewrite <- (tiles_sum _ _ _ Htiles). f_equal.
    apply map_ext_in. intros t Ht.
    destruct (Hin t Ht) as (i & -> & Hi0 & Hi).
    now destruct (sliceChunk_range f i Hi0 Hi) as (_ & _ & _ & _ & _ & ->). }
  split; [|split; [|split; [exact Htiles|split; [exact Hsum|]]]].
  - rewrite map_map. cbn. apply map_id.
  - intros t Ht. destruct (Hin t Ht) as (i & -> & Hi0 & Hi).
    destruct (sliceChunk_range f i Hi0 Hi) as (Ei & Es & Ee & _ & Eo & Eb).
    rewrite Ei. auto.
  - intros E. assert (En : n = 3) by (unfold CHUNK_SIZE, MiB in *; lia).
    rewrite En. unfold sliceChunk, Blob_slice, clamp_bound, file_blob.
    cbn [for_range]. rewrite E. reflexivity.
Qed.

End ChunkPlan.

(** ** Server selection *)

Section Selection.

Import Uploader.

(** The comparator of the sort is positive exactly when its first
    argument has the lower score. *)
Lemma byScoreDesc_positive x y :
  (0 <? byScoreDesc x y)%float = (snd x <? snd y)%float.
Proof. unfold byScoreDesc. apply sub_positive. Qed.

Lemma sort_insert_head (x : UploadServer * float) l :
  hd_error (sort_insert byScoreDesc x l)
  = match hd_error l with
    | None => Some x
    | Some y => if (snd x <? snd y)%float then Some y else Some x
    end.
Proof.
  destruct l as [|y r]; [reflexivity|]. cbn [sort_insert hd_error].
  rewrite byScoreDesc_positive. now destruct (snd x <? snd y)%float.
Qed.

Lemma sort_insert_length {A} (cmp : A -> A -> float) x l :
  List.length (sort_insert cmp x l) = S (List.length l).
Proof.
  induction l as [|y r IH]; [reflexivity|]. cbn [sort_insert].
  destruct (0 <? cmp x y)%float; cbn [List.length]; [|reflexivity].
  now rewrite IH.
Qed.

Lemma Array_sort_length {A} (cmp : A -> A -> float) l :
  List.length (Array_sort cmp l) = List.length l.
Proof.
  induction l as [|x r IH]; [reflexivity|]. cbn [Array_sort].
  now rewrite sort_insert_length, IH.
Qed.

(** The head of the sorted array is the leftmost best element of the
    unsorted one. *)
Lemma sorted_head_firstBest l :
  hd_error (Array_sort byScoreDesc l) = firstBest l.
Proof.
  induction l as [|x r IH]; [reflexivity|].
  cbn [Array_sort firstBest]. rewrite sort_insert_head, IH.
  destruct (firstBest r); reflexivity.
Qed.

Lemma firstBest_In l b : firstBest l = Some b -> In b l.
Proof.
  revert b. induction l as [|x r IH]; intros b H; [discriminate|].
  cbn [firstBest] in H. destruct (firstBest r) as [y|].
  - destruct (snd x <? snd y)%float; injection H as <-.
    + right. now apply IH.
    + now left.
  - injection H as <-. now left.
Qed.

(** When the scores are numbers, everything in front of the leftmost best
    element scores strictly lower and nothing behind it scores higher. *)
Lemma firstBest_split l b :
  Forall (fun x => is_nan (snd x) = false) l ->
  firstBest l = Some b ->
  exists pre post,
    l = pre ++ b :: post
    /\ (forall x, In x pre -> (snd x <? snd b)%float = true)
    /\ (forall x, In x post -> (snd b <? snd x)%float = false).
Proof.
  intros Hnum. revert b.
  induction Hnum as [|x r Hx Hr IH]; intros b H; [discriminate|].
  cbn [firstBest] in H. destruct (firstBest r) as [y|] eqn:Er.
  - destruct (IH y eq_refl) as (pre & post & -> & Hpre & Hpost).
    assert (Hy : is_nan (snd y) = false).
    { rewrite Forall_forall in Hr. apply Hr. apply in_or_app. right. now left. }
    destruct (snd x <? snd y)%float eqn:E; injection H as <-.
    + exists (x :: pre), post.
      split; [reflexivity|]. split; [|exact Hpost].
      intros z [<-|Hz]; [exact E|now apply Hpre].
    + exists [], (pre ++ y :: post).
      split; [reflexivity|]. split; [intros ? []|].
      intros z Hz. apply in_app_or in Hz.
      destruct (snd x <? snd z)%float eqn:Ez; [exfalso|reflexivity].
      destruct Hz as [Hz|[<-|Hz]].
      * apply Hpre in Hz. rewrite (ltb_trans _ _ _ Ez Hz) in E. discriminate.
      * congruence.
      * apply Hpost in Hz.
        destruct (ltb_between _ (snd y) _ Hy Ez); congruence.
  - injection H as <-. destruct r as [|z r'].
    + exists [], []. split; [reflexivity|]. split; intros ? [].
    + cbn [firstBest] in Er.
      destruct (firstBest r'); [destruct (_ <? _)%float|]; discriminate.
Qed.

Lemma firstBest_none l : firstBest l = None -> l = [].
Proof.
  destruct l as [|x r]; [reflexivity|]. cbn.
  destruct (firstBest r); [destruct (_ <? _)%float|]; discriminate.
Qed.

(** [findOptimalServer] in one equation. *)
Lemma findOptimalServer_firstBest servers chunkSize req :
  findOptimalServer servers chunkSize req
  = option_map fst
      (firstBest (map (fun s => (s, serverScore req s))
                      (filter (capable chunkSize req) servers))).
Proof.
  unfold findOptimalServer.
  rewrite <- sorted_head_firstBest.
  destruct (filter (capable chunkSize req) servers) as [|c r]; [reflexivity|].
  cbn [List.length Nat.eqb].
  destruct (Array_sort byScoreDesc _) as [|b t]; reflexivity.
Qed.

(** The selected server is one of the candidates. *)
Lemma findOptimalServer_position servers chunkSize req s :
  findOptimalServer servers chunkSize req = Some s ->
  exists pre post,
    filter (capable chunkSize req) servers = pre ++ s :: post.
Proof.
  rewrite findOptimalServer_firstBest. intros H.
  destruct (firstBest _) as [[b q]|] eqn:E; [|discriminate].
  cbn in H. injection H as ->.
  apply firstBest_In in E. apply in_map_iff in E.
  destruct E as (s' & Es & Hin). injection Es as -> _.
  now apply in_split.
Qed.

(** Position of the selected server among candidates whose scores are
    numbers: everything in front of it scores strictly lower, nothing
    behind it scores higher. *)
Lemma findOptimalServer_ranking servers chunkSize req s :
  scoresAreNumbers req (filter (capable chunkSize req) servers) ->
  findOptimalServer servers chunkSize req = Some s ->
  exists pre post,
    filter (capable chunkSize req) servers = pre ++ s :: post
    /\ (forall x, In x pre ->
          (serverScore req x <? serverScore req s)%float = true)
    /\ (forall x, In x post ->
          (serverScore req s <? serverScore req x)%float = false).
Proof.
  intros Hnum. rewrite findOptimalServer_firstBest. intros H.
  destruct (firstBest _) as [[b q]|] eqn:E; [|discriminate].
  cbn in H. injection H as ->.
  apply firstBest_split in E.
  2:{ apply Forall_map. exact Hnum. }
  destruct E as (pre & post & Hl & Hpre & Hpost).
  apply map_eq_app in Hl. destruct Hl as (pre' & rest & Hf & <- & Hrest).
  apply map_eq_cons in Hrest.
  destruct Hrest as (s' & post' & -> & Es & <-).
  injection Es as <- <-.
  exists pre', post'. split; [exact Hf|]. split.
  - intros x Hx. apply (Hpre (x, serverScore req x)).
    apply in_map_iff. now exists x.
  - intros x Hx. apply (Hpost (x, serverScore req x)).
    apply in_map_iff. now exists x.
Qed.

Lemma findOptimalServer_none servers chunkSize req :
  findOptimalServer servers chunkSize req = None
  <-> filter (capable chunkSize req) servers = [].
Proof.
  rewrite findOptimalServer_firstBest. split.
  - intros H. destruct (firstBest _) eqn:E; [discriminate|].
    apply firstBest_none in E. now destruct (filter _ _).
  - intros ->. reflexivity.
Qed.

Lemma includes_false l x : includes l x = false <-> ~ In x l.
Proof.
  unfold includes. split.
  - intros H Hin. assert (existsb (String.eqb x) l = true); [|congruence].
    apply existsb_exists. exists x. split; [exact Hin|apply String.eqb_refl].
  - intros H. destruct (existsb (String.eqb x) l) eqn:E; [|reflexivity].
    apply existsb_exists in E. destruct E as (y & Hy & Ey).
    apply String.eqb_eq in Ey. subst y. contradiction.
Qed.

Lemma ltb_nan_r (x m : float) : is_nan m = true -> (x <? m)%float = false.
Proof.
  rewrite is_nan_key, ltb_key.
  destruct (numKey x), (numKey m); try reflexivity; discriminate.
Qed.

(** The filter callback decides the constraints.  A required free space
    of [0] is falsy and skips the free-space test; so does NaN, below which
    no number lies. *)
Lemma capable_eligible chunkSize req s :
  capable chunkSize req s = true <-> eligible chunkSize req s.
Proof.
  unfold capable, eligible.
  destruct (isActive s); cbn [negb];
    [|split; [discriminate|intros (? & _); discriminate]].
  destruct (maxLoad s <=? currentLoad s)%float;
    [split; [discriminate|intros (_ & ? & _); discriminate]|].
  destruct (maxChunkSize (capabilities s) <? chunkSize)%float;
    [split; [discriminate|intros (_ & _ & ? & _); discriminate]|].
  assert (Hex : (if match excludeServers req with
                     | Some l => includes l (id s)
                     | None => false
                     end then false else true) = true
                <-> forall l, excludeServers req = Some l -> ~ In (id s) l).
  { destruct (excludeServers req) as [l|].
    - destruct (includes l (id s)) eqn:Einc.
      + split; [discriminate|]. intros H. specialize (H l eq_refl).
        apply includes_false in H. congruence.
      + apply includes_false in Einc. split; [|reflexivity].
        intros _ l' E. now injection E as <-.
    - split; [|reflexivity]. intros _ l' E. discriminate. }
  destruct (minFreeSpace req) as [m|]; cbn [truthy_num].
  - destruct (m =? 0)%float eqn:Ezero; cbn [negb andb].
    + rewrite Hex. split.
      * intros H. repeat split; auto. intros m' E. injection E as <-. congruence.
      * intros (_ & _ & _ & _ & H). exact H.
    + destruct (is_nan m) eqn:Enan; cbn [negb andb].
      * rewrite Hex. split.
        -- intros H. repeat split; auto.
           intros m' E _. injection E as <-. now apply ltb_nan_r.
        -- intros (_ & _ & _ & _ & H). exact H.
      * destruct (freeSpace (capabilities s) <? m)%float eqn:Efree.
        -- split; [discriminate|]. intros (_ & _ & _ & H & _).
           specialize (H m eq_refl Ezero). congruence.
        -- rewrite Hex. split.
           ++ intros H. repeat split; auto.
              intros m' E _. now injection E as <-.
           ++ intros (_ & _ & _ & _ & H). exact H.
  - cbn [andb]. rewrite Hex. split.
    + intros H. repeat split; auto. discriminate.
    + intros (_ & _ & _ & _ & H). exact H.
Qed.

(** C2, as stated, fails.  A required free space of [0] is falsy in the
    guard of the filter, which then skips the free-space test: for this
    requirement a server that reports a negative amount of free space, less
    than what is required, is returned. *)
Lemma required_free_space_counterexample :
  minFreeSpace zeroSpaceRequirements = Some 0%float
  /\ findOptimalServer [overdrawnServer] 1 zeroSpaceRequirements
     = Some overdrawnServer
  /\ (freeSpace (capabilities overdrawnServer) <? 0)%float = true.
Proof.
  repeat split; reflexivity.
Qed.

(** C2, amended.  For every server list, chunk size and requirements, the
    server [findOptimalServer] returns is one of the list, active, not at or
    above its maximum load, with a maximum chunk size that is not below the
    chunk size, not excluded, and, when the required free space is not
    zero, with a free space that is not below it (a requirement of [0] is
    falsy and skips that test).  The function returns [null] exactly when no
    server of the list satisfies these constraints; and when some server
    does, the sorted array is not empty, so the read of [scoredServers[0]]
    is defined. *)
Theorem findOptimalServer_respects_constraints
    (servers : list UploadServer) (chunkSize : float) (req : Requirements) :
  (forall s, findOptimalServer servers chunkSize req = Some s ->
             In s servers /\ eligible chunkSize req s)
  /\ (findOptimalServer servers chunkSize req = None
      <-> forall s, In s servers -> ~ eligible chunkSize req s)
  /\ (filter (capable chunkSize req) servers <> [] ->
      Array_sort byScoreDesc
        (map (fun s => (s, serverScore req s))
             (filter (capable chunkSize req) servers)) <> []).
Proof.
  split; [|split].
  3:{ intros Hne Hnil. apply (f_equal (@List.length _)) in Hnil.
      rewrite Array_sort_length, length_map in Hnil.
      destruct (filter (capable chunkSize req) servers);
        [contradiction|discriminate]. }
  - intros s H. apply findOptimalServer_position in H.
    destruct H as (pre & post & Hf).
    assert (Hin : In s (filter (capable chunkSize req) servers)).
    { rewrite Hf. apply in_or_app. right. now left. }
    apply filter_In in Hin. destruct Hin as [Hin Hcap].
    split; [exact Hin|]. now apply capable_eligible.
  - rewrite findOptimalServer_none. split.
    + intros Hnil s Hin He. apply capable_eligible in He.
      assert (Hf : In s (filter (capable chunkSize req) servers))
        by (apply filter_In; auto).
      rewrite Hnil in Hf. exact Hf.
    + intros Hnone.
      destruct (filter (capable chunkSize req) servers) as [|c r] eqn:E;
        [reflexivity|].
      assert (Hc : In c (filter (capable chunkSize req) servers))
        by (rewrite E; now left).
      apply filter_In in Hc. destruct Hc as [Hin Hcap].
      apply capable_eligible in Hcap. now apply Hnone in Hcap.
Qed.

(** [srv-b] is at its maximum load and [srv-c] would be excluded: a 4 MiB
    chunk goes to [srv-a]. *)
Lemma findOptimalServer_respects_constraints_witness :
  findOptimalServer loadedRegistry (Number_ofZ (4 * MiB))
    (chunkRequirements (4 * MiB) ["srv-c"%string])
  = Some (sampleServer "srv-a" 5 1)
  /\ eligible (Number_ofZ (4 * MiB))
       (chunkRequirements (4 * MiB) ["srv-c"%string])
       (sampleServer "srv-a" 5 1).
Proof.
  split; [reflexivity|].
  apply (proj1 (findOptimalServer_respects_constraints
                  loadedRegistry (Number_ofZ (4 * MiB))
                  (chunkRequirements (4 * MiB) ["srv-c"%string]))).
  reflexivity.
Defined.





(** C4, as stated, fails.  [srv-a] (load 5 of 10, success rate 1) and
    [srv-b] (load 0 of 10, success rate 0) have the same score; listed in
    this order the busier [srv-a] is returned.  Two servers that differ in
    their identifier only are returned in list order, whichever identifier
    is smaller. *)
Lemma tie_break_by_load_then_id_counterexample :
  serverScore noRequirements busyServer
  = serverScore noRequirements idleServer
  /\ (currentLoad idleServer <? currentLoad busyServer)%float = true
  /\ findOptimalServer [busyServer; idleServer] 1 noRequirements
     = Some busyServer
  /\ serverScore noRequirements twinA = serverScore noRequirements twinB
  /\ currentLoad twinA = currentLoad twinB
  /\ String.ltb (id twinA) (id twinB) = true
  /\ findOptimalServer [twinA; twinB] 1 noRequirements = Some twinA
  /\ findOptimalServer [twinB; twinA] 1 noRequirements = Some twinB.
Proof.
  repeat split; reflexivity.
Qed.

(** C4, amended.  The comparator looks at scores only and the sort is
    stable, so a tie is decided by the position in the server list: among
    candidates whose scores are numbers, the selected server is the first
    candidate of maximal score.  Every candidate listed before it scores
    strictly lower and none listed after it scores higher; of two
    candidates of equal score alone, the first is returned, whatever their
    loads and identifiers.  The result is a function of the list, the chunk
    size and the requirements. *)
Theorem findOptimalServer_ties_by_position
    (servers : list UploadServer) (chunkSize : float) (req : Requirements)
    (best : UploadServer) :
  findOptimalServer servers chunkSize req = Some best ->
  (scoresAreNumbers req (filter (capable chunkSize req) servers) ->
   exists pre post,
      filter (capable chunkSize req) servers = pre ++ best :: post
      /\ (forall x, In x pre ->
            (serverScore req x <? serverScore req best)%float = true)
      /\ (forall x, In x post ->
            (serverScore req best <? serverScore req x)%float = false))
  /\ (forall a b,
        filter (capable chunkSize req) servers = [a; b] ->
        (serverScore req a =? serverScore req b)%float = true -> best = a).
Proof.
  intros H. split.
  - intros Hnum. now apply findOptimalServer_ranking.
  - intros a b Hab Heq.
    rewrite findOptimalServer_firstBest, Hab in H. cbn in H.
    destruct (eqb_true_ltb _ _ Heq) as [Hlt _]. rewrite Hlt in H.
    now injection H as <-.
Qed.

Lemma findOptimalServer_ties_by_position_witness :
  findOptimalServer [busyServer; idleServer] 1 noRequirements
  = Some busyServer
  /\ forall a b,
       filter (capable 1 noRequirements) [busyServer; idleServer] = [a; b] ->
       (serverScore noRequirements a =? serverScore noRequirements b)%float
       = true ->
       busyServer = a.
Proof.
  split; [reflexivity|].
  apply (findOptimalServer_ties_by_position
           [busyServer; idleServer] 1 noRequirements busyServer).
  reflexivity.
Defined.

End Selection.

(** ** The per-chunk task *)

Section Retry.

Import Uploader.

Variable visibleServers : Z -> list UploadServer.
Variable lag : Z -> Z.
Variable fetchChunk : Z -> Z -> UploadServer -> FetchOutcome.

Hypothesis lag_nonneg : forall t, 0 <= lag t.

Local Abbreviation find_at t := (findOptimalServer (visibleServers t)).

Lemma waitLoop_unfold fuel cs req timeout start s :
  waitLoop visibleServers lag fuel cs req timeout start s
  = if clock s - start <? timeout then
      match fuel with
      | O => None
      | S fuel' =>
          match find_at (clock s) cs req with
          | Some srv => Some (Some srv, s)
          | None =>
              waitLoop visibleServers lag fuel' cs req timeout start
                (mkTS (clock s + 0 + lag (clock s) + 2000
                       + lag (clock s + 0 + lag (clock s)))
                      (trace s ++ pollRound))
          end
      end
    else Some (None, s).
Proof.
  destruct fuel as [|fuel']; cbn [waitLoop]; unfold bind, now;
    destruct (clock s - start <? timeout); try reflexivity.
  unfold findServerNow, bind, now, ret.
  destruct (find_at (clock s) cs req); [reflexivity|].
  unfold loadUploadServers, sleep, bind, emit, await. cbn [clock trace].
  rewrite <- app_assoc. reflexivity.
Qed.

(** The waiting loop always returns: each turn lasts two seconds or more,
    so the fuel outlasts the timeout.  It returns a server that passed the
    selection at the time of the last poll, before the timeout; or nothing,
    once the timeout has elapsed.  Every turn that found nothing refreshed
    the registry and slept two seconds. *)
Lemma waitLoop_runs fuel cs req timeout start s :
  start <= clock s ->
  timeout - (clock s - start) <= 2000 * Z.of_nat fuel ->
  exists r s' k,
    waitLoop visibleServers lag fuel cs req timeout start s = Some (r, s')
    /\ trace s' = trace s ++ rounds k
    /\ (k = 0%nat \/ clock s + 2000 * (Z.of_nat k - 1) - start < timeout)
    /\ clock s + 2000 * Z.of_nat k <= clock s'
    /\ match r with
       | Some srv => clock s' - start < timeout
                     /\ find_at (clock s') cs req = Some srv
       | None => timeout <= clock s' - start
       end
    /\ (find_at (clock s) cs req = None -> clock s - start < timeout ->
        (1 <= k)%nat)
    /\ ((forall t, clock s <= t < start + timeout -> find_at t cs req = None) ->
        r = None).
Proof.
  unfold rounds.
  revert s. induction fuel as [|fuel IH]; intros s Hstart Hfuel;
    rewrite waitLoop_unfold.
  - destruct (Z.ltb_spec (clock s - start) timeout); [lia|].
    exists None, s, 0%nat. cbn [repeat List.concat]. rewrite app_nil_r.
    repeat split; auto; lia.
  - destruct (Z.ltb_spec (clock s - start) timeout) as [Hlt|Hge].
    + destruct (find_at (clock s) cs req) as [srv|] eqn:Efind.
      * exists (Some srv), s, 0%nat. cbn [repeat List.concat].
        rewrite app_nil_r.
        split; [reflexivity|]. split; [reflexivity|]. split; [now left|].
        split; [lia|]. split; [auto|]. split; [discriminate|].
        intros Hnone. rewrite Hnone in Efind by lia. discriminate.
      * pose proof (lag_nonneg (clock s)) as L1.
        pose proof (lag_nonneg (clock s + 0 + lag (clock s))) as L2.
        destruct (IH (mkTS (clock s + 0 + lag (clock s) + 2000
                            + lag (clock s + 0 + lag (clock s)))
                           (trace s ++ pollRound)))
          as (r & s' & k & Hrun & Htr & Hlast & Hclk & Hr & _ & Hnone);
          cbn [clock trace] in *; try lia.
        exists r, s', (S k). rewrite Hrun. split; [reflexivity|].
        split; [rewrite Htr; cbn [repeat List.concat]; now rewrite app_assoc|].
        split; [right; lia|]. split; [lia|]. split; [exact Hr|].
        split; [lia|].
        intros Hall. apply Hnone. intros t Ht. apply Hall. lia.
    + exists None, s, 0%nat. cbn [repeat List.concat]. rewrite app_nil_r.
      repeat split; auto; lia.
Qed.

Local Abbreviation Acquired := (Acquired visibleServers).
Local Abbreviation Retried := (Retried visibleServers lag fetchChunk).

(** Steps 1 and 2 of the lifecycle are what [acquireServer] does; it
    always returns. *)
Lemma acquireServer_Acquired chunkData idx excluded s :
  exists r s' tr,
    acquireServer visibleServers lag chunkData idx excluded s = Some (r, s')
    /\ trace s' = trace s ++ tr
    /\ Acquired chunkData idx excluded (clock s) tr r (clock s').
Proof.
  cbv beta iota delta [acquireServer bind findServerNow now ret].
  destruct (find_at (clock s) (Number_ofZ (blob_size chunkData))
              (chunkRequirements (blob_size chunkData) excluded))
    as [srv|] eqn:Efind.
  - exists (Some srv), s, []. rewrite app_nil_r.
    split; [reflexivity|]. split; [reflexivity|].
    now apply acquired_at_once.
  - cbv beta iota delta [setChunk emit waitForCapableServer bind now].
    cbn [clock trace].
    destruct (waitLoop_runs waitFuel (Number_ofZ (blob_size chunkData))
                (chunkRequirements (blob_size chunkData) excluded)
                SERVER_SELECTION_TIMEOUT (clock s)
                (mkTS (clock s) (trace s ++ [SetChunk idx upStillWaiting])))
      as (r & s' & k & Hrun & Htr & Hlast & Hclk & Hr & Hk & _);
      cbn [clock trace] in *;
      [lia|unfold SERVER_SELECTION_TIMEOUT, waitFuel; lia|].
    specialize (Hk Efind ltac:(unfold SERVER_SELECTION_TIMEOUT; lia)).
    assert (Hk15 : (1 <= k <= 15)%nat)
      by (unfold SERVER_SELECTION_TIMEOUT in Hlast; lia).
    exists r, s', (SetChunk idx upStillWaiting :: rounds k).
    split; [exact Hrun|].
    split; [rewrite Htr, <- app_assoc; reflexivity|].
    destruct r as [srv|].
    + destruct Hr as [Hlt Hsel]. now apply acquired_after_wait.
    + now apply acquired_timeout.
Qed.

Lemma retryLoop_unfold fuel chunkData idx attempts excluded s :
  retryLoop visibleServers lag fetchChunk (S fuel) chunkData idx
            attempts excluded s
  = if attempts <? MAX_RETRIES then
      match acquireServer visibleServers lag chunkData idx excluded
              (mkTS (clock s)
                    (trace s ++ [SetChunk idx (upWaiting (attempts + 1))]))
      with
      | None => None
      | Some (None, s1) =>
          Some (tt, mkTS (clock s1) (trace s1 ++ [SetChunk idx upNoServer]))
      | Some (Some srv, s1) =>
          let res := uploadOutcome (fetchChunk (clock s1) idx srv) in
          let t2 := clock s1 + 0 + lag (clock s1) in
          let tr2 := trace s1 ++ [SetChunk idx (upUploading srv);
                                  PostChunk idx srv] in
          if r_success res then
            Some (tt, mkTS t2
                        (tr2 ++ [SetChunk idx
                                   (upCompleted t2 (r_dropboxDetails res))]))
          else
            retryLoop visibleServers lag fetchChunk fuel chunkData idx
              (attempts + 1) (excluded ++ [id srv])
              (mkTS (if attempts + 1 <? MAX_RETRIES
                     then t2 + 1000 * (attempts + 1) + lag t2 else t2)
                    (tr2 ++ [SetChunk idx (upFailed (r_error res))]
                     ++ backoff (attempts + 1)))
      end
    else Some (tt, mkTS (clock s) (trace s ++ [SetChunk idx upExhausted])).
Proof.
  cbn [retryLoop]. destruct (attempts <? MAX_RETRIES); [|reflexivity].
  unfold bind at 1. unfold setChunk at 1. unfold emit at 1.
  unfold bind at 1.
  destruct (acquireServer _ _ _ _ _ _) as [[[srv|] s1]|]; try reflexivity.
  cbv beta iota zeta
      delta [bind setChunk emit uploadChunkToServer now await ret backoff
             sleep clock trace].
  destruct s1 as [c1 tr1].
  destruct (r_success _).
  - rewrite <- !app_assoc. reflexivity.
  - destruct (attempts + 1 <? MAX_RETRIES);
      rewrite <- ?app_assoc; cbn [app]; try rewrite app_nil_r; reflexivity.
Qed.

(** Steps 3 to 5 of the lifecycle are what the retry loop does; with fuel
    for the attempts that remain it always returns. *)
Lemma retryLoop_Retried fuel chunkData idx attempts excluded s :
  MAX_RETRIES - attempts <= Z.of_nat fuel ->
  exists s' tr,
    retryLoop visibleServers lag fetchChunk fuel chunkData idx
              attempts excluded s = Some (tt, s')
    /\ trace s' = trace s ++ tr
    /\ Retried chunkData idx attempts excluded (clock s) tr (clock s').
Proof.
  revert attempts excluded s.
  induction fuel as [|fuel IH]; intros attempts excluded s Hfuel.
  - cbn [retryLoop]. destruct (Z.ltb_spec attempts MAX_RETRIES); [lia|].
    eexists _, _. split; [reflexivity|]. split; [reflexivity|].
    now apply retried_exhausted.
  - rewrite retryLoop_unfold.
    destruct (Z.ltb_spec attempts MAX_RETRIES) as [Hlt|Hge].
    2:{ eexists _, _. split; [reflexivity|]. split; [reflexivity|].
        now apply retried_exhausted. }
    destruct (acquireServer_Acquired chunkData idx excluded
                (mkTS (clock s)
                      (trace s ++ [SetChunk idx (upWaiting (attempts + 1))])))
      as (r & s1 & tr & -> & Htr & Hacq).
    cbn [clock trace] in Htr, Hacq.
    destruct r as [srv|].
    + cbv zeta.
      destruct (r_success (uploadOutcome (fetchChunk (clock s1) idx srv)))
        eqn:Esucc.
      * eexists _, _. split; [reflexivity|]. cbn [clock trace].
        split.
        -- rewrite Htr, <- !app_assoc. cbn [app]. reflexivity.
        -- eapply retried_success; eauto.
      * edestruct (IH (attempts + 1) (excluded ++ [id srv]))
          as (s' & rest & Hrun & Hrest & Hret); [lia|].
        rewrite Hrun. exists s'. eexists. split; [reflexivity|].
        cbn [clock trace] in Hrest, Hret. split.
        -- rewrite Hrest, Htr, <- !app_assoc. cbn [app]. reflexivity.
        -- eapply retried_failure; eauto.
    + eexists _, _. split; [reflexivity|]. cbn [clock trace]. split.
      * rewrite Htr, <- !app_assoc. cbn [app]. reflexivity.
      * now apply retried_no_server.
Qed.

(** *** What a conforming trace looks like *)

Lemma posts_app a b : posts (a ++ b) = posts a ++ posts b.
Proof.
  induction a as [|e a IH]; [reflexivity|].
  destruct e; cbn; now rewrite ?IH.
Qed.

Lemma updatesFor_app idx a b :
  updatesFor idx (a ++ b) = updatesFor idx a ++ updatesFor idx b.
Proof.
  induction a as [|e a IH]; [reflexivity|].
  destruct e; cbn; try exact IH.
  destruct (_ =? _); cbn; now rewrite IH.
Qed.

Lemma chunkAfter_app idx a b c :
  chunkAfter idx (a ++ b) c = chunkAfter idx b (chunkAfter idx a c).
Proof. unfold chunkAfter. now rewrite updatesFor_app, fold_left_app. Qed.

Lemma rounds_posts k : posts (rounds k) = [].
Proof. induction k; [reflexivity|exact IHk]. Qed.

Lemma rounds_updates idx k : updatesFor idx (rounds k) = [].
Proof. induction k; [reflexivity|exact IHk]. Qed.

Lemma rounds_own idx k : Forall (ownEffect idx) (rounds k).
Proof.
  induction k; [constructor|].
  unfold rounds. cbn [repeat List.concat pollRound app].
  repeat constructor. exact IHk.
Qed.

Lemma backoff_posts a : posts (backoff a) = [].
Proof. unfold backoff. now destruct (_ <? _). Qed.

Lemma backoff_updates idx a : updatesFor idx (backoff a) = [].
Proof. unfold backoff. now destruct (_ <? _). Qed.

Lemma backoff_own idx a : Forall (ownEffect idx) (backoff a).
Proof. unfold backoff. destruct (_ <? _); repeat constructor. Qed.

(** Whatever the requirements, a selected server is not on the exclusion
    list. *)
Lemma selectAt_not_excluded chunkData excluded t srv :
  selectAt visibleServers chunkData excluded t = Some srv ->
  ~ In (id srv) excluded.
Proof.
  unfold selectAt. intros H. apply findOptimalServer_position in H.
  destruct H as (pre & post & Hf).
  assert (Hin : In srv (filter (capable (Number_ofZ (blob_size chunkData))
                          (chunkRequirements (blob_size chunkData) excluded))
                          (visibleServers t))).
  { rewrite Hf. apply in_or_app. right. now left. }
  apply filter_In in Hin. destruct Hin as [_ Hcap].
  unfold capable in Hcap. cbn [excludeServers chunkRequirements] in Hcap.
  apply includes_false.
  destruct (includes excluded (id srv)); [|reflexivity].
  repeat match type of Hcap with
         | (if ?b then _ else _) = _ => destruct b; try discriminate
         end.
Qed.

Lemma Acquired_facts chunkData idx excluded t tr r t' :
  Acquired chunkData idx excluded t tr r t' ->
  posts tr = []
  /\ Forall (ownEffect idx) tr
  /\ (updatesFor idx tr = [] \/ updatesFor idx tr = [upStillWaiting])
  /\ t <= t'
  /\ (forall srv, r = Some srv -> ~ In (id srv) excluded).
Proof.
  intros H. destruct H as [t srv Hsel|t k t' srv Hnone Hk Ht Hlt Hsel
                          |t k t' Hnone Hk Ht Hge].
  - repeat split; auto; try lia. intros s' E. injection E as <-.
    eapply selectAt_not_excluded; eauto.
  - cbn [posts updatesFor]. rewrite Z.eqb_refl, rounds_posts, rounds_updates.
    repeat split; auto; try lia.
    + constructor; [reflexivity|apply rounds_own].
    + intros s' E. injection E as <-.
      eapply selectAt_not_excluded; eauto.
  - cbn [posts updatesFor]. rewrite Z.eqb_refl, rounds_posts, rounds_updates.
    repeat split; auto; try lia.
    + constructor; [reflexivity|apply rounds_own].
    + discriminate.
Qed.

Lemma chunkAfter_cons_own idx u tr c :
  chunkAfter idx (SetChunk idx u :: tr) c = chunkAfter idx tr (mergeChunk c u).
Proof. unfold chunkAfter. cbn [updatesFor]. now rewrite Z.eqb_refl. Qed.

Lemma chunkAfter_cons_post idx i srv tr c :
  chunkAfter idx (PostChunk i srv :: tr) c = chunkAfter idx tr c.
Proof. reflexivity. Qed.

Lemma chunkAfter_acquired chunkData idx excluded t tr r t' c :
  Acquired chunkData idx excluded t tr r t' ->
  attempts (chunkAfter idx tr c) = attempts c.
Proof.
  intros H. destruct (Acquired_facts _ _ _ _ _ _ _ H) as (_ & _ & [E|E] & _);
    unfold chunkAfter; rewrite E; reflexivity.
Qed.

Lemma chunkAfter_backoff idx a c : chunkAfter idx (backoff a) c = c.
Proof. unfold chunkAfter. now rewrite backoff_updates. Qed.

(** Consequences of the lifecycle for the trace of one task and for the
    descriptor it leaves behind. *)
Lemma Retried_facts chunkData idx a excluded t tr t' :
  Retried chunkData idx a excluded t tr t' ->
  0 <= a ->
  Forall (ownEffect idx) tr
  /\ t <= t'
  /\ Z.of_nat (List.length (posts tr)) <= Z.max 0 (MAX_RETRIES - a)
  /\ (forall srv, In srv (posts tr) -> ~ In (id srv) excluded)
  /\ NoDup (map id (posts tr))
  /\ updatesFor idx tr <> []
  /\ forall c,
       (status (chunkAfter idx tr c) = completed
        \/ status (chunkAfter idx tr c) = failed)
       /\ (status (chunkAfter idx tr c) = completed ->
           attempts (chunkAfter idx tr c)
           = a + Z.of_nat (List.length (posts tr)))
       /\ (status (chunkAfter idx tr c) = failed ->
           (error (chunkAfter idx tr c)
            = Some "No capable server available"%string
            /\ Z.of_nat (List.length (posts tr)) < MAX_RETRIES - a)
           \/ (error (chunkAfter idx tr c)
               = Some "Failed after 3 attempts"%string
               /\ Z.of_nat (List.length (posts tr))
                  = Z.max 0 (MAX_RETRIES - a))).
Proof.
  induction 1 as [a excluded t Hge
                 |a excluded t tr t' Hlt Hacq
                 |a excluded t tr srv t1 res Hlt Hacq Hres Hok
                 |a excluded t tr srv t1 res t2 rest t' Hlt Hacq Hres Hko Ht2
                    Hrest IH]; intros Ha.
  - split; [repeat constructor|]. split; [lia|]. split; [cbn [List.length posts]; lia|].
    split; [intros ? []|]. split; [constructor|].
    split; [cbn; rewrite Z.eqb_refl; discriminate|].
    intros c. rewrite chunkAfter_cons_own. cbn [status error mergeChunk
      override upExhausted u_status u_error List.length posts].
    split; [now right|].
    split; [discriminate|]. intros _. right. split; [reflexivity|lia].
  - destruct (Acquired_facts _ _ _ _ _ _ _ Hacq)
      as (Hposts & Hown & _ & Hclk & _).
    split.
    { constructor; [reflexivity|]. apply Forall_app. split; [exact Hown|].
      repeat constructor. }
    split; [exact Hclk|].
    split; [cbn [posts]; rewrite posts_app, Hposts; cbn [List.length posts app]; lia|].
    split; [cbn [posts]; rewrite posts_app, Hposts; intros ? []|].
    split; [cbn [posts]; rewrite posts_app, Hposts; constructor|].
    split; [cbn; rewrite Z.eqb_refl; discriminate|].
    intros c. rewrite chunkAfter_cons_own, chunkAfter_app, chunkAfter_cons_own.
    cbn [status error mergeChunk override upNoServer u_status u_error posts].
    rewrite posts_app, Hposts. cbn [app posts List.length].
    split; [now right|]. split; [discriminate|]. intros _.
    left. split; [reflexivity|lia].
  - destruct (Acquired_facts _ _ _ _ _ _ _ Hacq)
      as (Hposts & Hown & _ & Hclk & Hex).
    pose proof (lag_nonneg t1) as L.
    assert (Ep : posts (SetChunk idx (upWaiting (a + 1)) :: tr
                        ++ [SetChunk idx (upUploading srv); PostChunk idx srv;
                            SetChunk idx (upCompleted (t1 + 0 + lag t1)
                                            (r_dropboxDetails res))])
                 = [srv])
      by (cbn [posts]; rewrite posts_app, Hposts; reflexivity).
    rewrite Ep.
    split.
    { constructor; [reflexivity|]. apply Forall_app. split; [exact Hown|].
      repeat constructor. }
    split; [lia|]. split; [cbn [List.length posts]; lia|].
    split; [intros s' [<-|[]]; now apply Hex|].
    split; [repeat constructor; intros []|].
    split; [cbn; rewrite Z.eqb_refl; discriminate|].
    intros c. rewrite chunkAfter_cons_own, chunkAfter_app, chunkAfter_cons_own,
      chunkAfter_cons_post, chunkAfter_cons_own.
    cbn. split; [now left|]. split; [|discriminate]. intros _.
    rewrite (chunkAfter_acquired _ _ _ _ _ _ _ _ Hacq). cbn. lia.
  - destruct (Acquired_facts _ _ _ _ _ _ _ Hacq)
      as (Hposts & Hown & _ & Hclk & Hex).
    destruct (IH ltac:(lia)) as (IHown & IHclk & IHlen & IHex & IHnd & IHne & IHc).
    pose proof (lag_nonneg t1) as L1.
    pose proof (lag_nonneg (t1 + 0 + lag t1)) as L2.
    assert (Ep : posts (SetChunk idx (upWaiting (a + 1)) :: tr
                        ++ [SetChunk idx (upUploading srv); PostChunk idx srv;
                            SetChunk idx (upFailed (r_error res))]
                        ++ backoff (a + 1) ++ rest)
                 = srv :: posts rest).
    { cbn [posts]. rewrite posts_app, Hposts. cbn [app posts].
      now rewrite posts_app, backoff_posts. }
    rewrite Ep.
    split.
    { constructor; [reflexivity|]. apply Forall_app. split; [exact Hown|].
      repeat (constructor; [reflexivity|]).
      apply Forall_app. split; [apply backoff_own|exact IHown]. }
    split.
    { subst t2. destruct (a + 1 <? MAX_RETRIES); lia. }
    split; [cbn [List.length]; lia|].
    split.
    { intros s' [<-|Hin]; [now apply Hex|].
      intros Hbad. apply (IHex s' Hin). apply in_or_app. now left. }
    split.
    { cbn [map]. constructor; [|exact IHnd].
      intros Hin. apply in_map_iff in Hin. destruct Hin as (s' & Es & Hin).
      apply (IHex s' Hin). apply in_or_app. right. rewrite Es. now left. }
    split; [cbn; rewrite Z.eqb_refl; discriminate|].
    intros c.
    rewrite chunkAfter_cons_own, chunkAfter_app. cbn [app].
    rewrite chunkAfter_cons_own,
      chunkAfter_cons_post, chunkAfter_cons_own, chunkAfter_app,
      chunkAfter_backoff.
    destruct (IHc (mergeChunk
                     (mergeChunk
                        (chunkAfter idx tr (mergeChunk c (upWaiting (a + 1))))
                        (upUploading srv))
                     (upFailed (r_error res)))) as (Hst & Hatt & Herr).
    split; [exact Hst|]. split.
    { intros Hc. rewrite (Hatt Hc). cbn [List.length]. lia. }
    intros Hf. destruct (Herr Hf) as [[He Hn]|[He Hn]].
    + left. split; [exact He|]. cbn [List.length]. lia.
    + right. split; [exact He|]. cbn [List.length]. lia.
Qed.





End Retry.

(** ** The session state under concurrent updates *)

Section Updates.

Import Uploader.

Lemma mergeChunk_index c u : chunkIndex (mergeChunk c u) = chunkIndex c.
Proof. reflexivity. Qed.

(** With distinct chunk indices, the [findIndex]/assignment pair of
    [updateChunkStatus] rewrites exactly the chunk of that index. *)
Lemma update_by_index idx u (l : list ChunkUploadStatus) :
  NoDup (map chunkIndex l) ->
  match findIndex (fun c => chunkIndex c =? idx) l with
  | Some k => match nth_error l k with
              | Some c => set_at l k (mergeChunk c u)
              | None => l
              end
  | None => l
  end
  = map (fun c => if chunkIndex c =? idx then mergeChunk c u else c) l.
Proof.
  induction l as [|x r IH]; intros Hnd; [reflexivity|].
  cbn [map] in Hnd. apply NoDup_cons_iff in Hnd. destruct Hnd as [Hx Hnd].
  cbn [findIndex map]. destruct (Z.eqb_spec (chunkIndex x) idx) as [E|N].
  - cbn [nth_error set_at]. f_equal.
    rewrite <- (map_id r) at 1. apply map_ext_in. intros c Hc.
    destruct (Z.eqb_spec (chunkIndex c) idx) as [E'|]; [|reflexivity].
    exfalso. apply Hx. apply in_map_iff. exists c. split; [congruence|exact Hc].
  - specialize (IH Hnd).
    destruct (findIndex (fun c => chunkIndex c =? idx) r) as [k|].
    + cbn [nth_error]. destruct (nth_error r k) as [c|].
      * cbn [set_at]. now f_equal.
      * now f_equal.
    + now f_equal.
Qed.

Lemma chunkAfter_index idx tr c : chunkIndex (chunkAfter idx tr c) = chunkIndex c.
Proof.
  unfold chunkAfter. generalize (updatesFor idx tr) as us. intros us.
  revert c. induction us as [|u us IH]; intros c; [reflexivity|].
  cbn [fold_left]. now rewrite IH.
Qed.

Lemma sameSession_refl p : sameSession p p.
Proof. repeat split. Qed.

Lemma sameSession_trans p q r :
  sameSession p q -> sameSession q r -> sameSession p r.
Proof. unfold sameSession. intuition congruence. Qed.

Lemma has_update_dec (effects : list Effect) :
  (exists idx u, In (SetChunk idx u) effects)
  \/ (forall idx u, ~ In (SetChunk idx u) effects).
Proof.
  induction effects as [|e effects [(i & u & H)|H]].
  - right. intros ? ? [].
  - left. exists i, u. now right.
  - destruct e as [i u| | |];
      try (right; intros i' u' [E|Hin]; [discriminate|now apply (H i' u')]).
    left. exists i, u. now left.
Qed.

(** Applying a sequence of effects to a session applies to every chunk
    the updates addressed to its index, in order; after an update the
    progress is the one computed from the new chunks. *)
Lemma apply_effects effects p :
  NoDup (map chunkIndex (chunks p)) ->
  exists q,
    fold_left applyEffect effects (Some p) = Some q
    /\ chunks q = map (fun c => chunkAfter (chunkIndex c) effects c) (chunks p)
    /\ sameSession p q
    /\ ((exists idx u, In (SetChunk idx u) effects) ->
        overallProgress q = progressOf (chunks q))
    /\ ((forall idx u, ~ In (SetChunk idx u) effects) -> q = p).
Proof.
  revert p. induction effects as [|e effects IH]; intros p Hnd.
  - exists p. split; [reflexivity|]. split.
    + rewrite <- (map_id (chunks p)) at 1. reflexivity.
    + split; [apply sameSession_refl|]. split; [intros (? & ? & [])|auto].
  - cbn [fold_left].
    assert (Hstep : exists p1,
               applyEffect (Some p) e = Some p1
               /\ chunks p1
                  = map (fun c => chunkAfter (chunkIndex c) [e] c) (chunks p)
               /\ sameSession p p1
               /\ (forall idx u, e = SetChunk idx u ->
                   overallProgress p1 = progressOf (chunks p1))
               /\ ((forall idx u, e <> SetChunk idx u) -> p1 = p)).
    { destruct e as [i u| | |]; cbn [applyEffect];
        try (exists p; split; [reflexivity|]; split;
             [rewrite <- (map_id (chunks p)) at 1; reflexivity|];
             split; [apply sameSession_refl|]; split;
             [discriminate|reflexivity]).
      unfold updateChunkStatus. rewrite update_by_index by exact Hnd.
      eexists. split; [reflexivity|]. cbn [chunks overallProgress].
      split.
      { apply map_ext. intros c. unfold chunkAfter. cbn [updatesFor].
        rewrite (Z.eqb_sym i). now destruct (chunkIndex c =? i). }
      split; [repeat split|]. split; [reflexivity|].
      intros H. exfalso. now apply (H i u). }
    destruct Hstep as (p1 & -> & Hc1 & Hs1 & Hprog1 & Hsame1).
    assert (Hnd1 : NoDup (map chunkIndex (chunks p1))).
    { rewrite Hc1, map_map.
      erewrite map_ext; [exact Hnd|]. intros c. apply chunkAfter_index. }
    destruct (IH p1 Hnd1) as (q & Hq & Hcq & Hsq & Hprog & Hsame).
    exists q. split; [exact Hq|]. split.
    { rewrite Hcq, Hc1, map_map. apply map_ext. intros c.
      rewrite chunkAfter_index.
      change (e :: effects) with ([e] ++ effects).
      now rewrite chunkAfter_app. }
    split; [eapply sameSession_trans; eauto|].
    split.
    + intros (idx & u & Hin).
      destruct (has_update_dec effects) as [Hsome|Hnone].
      * now apply Hprog.
      * rewrite (Hsame Hnone). destruct Hin as [->|Hin].
        -- eapply Hprog1. reflexivity.
        -- exfalso. eapply Hnone. exact Hin.
    + intros Hnone. rewrite Hsame.
      * apply Hsame1. intros idx u ->. apply (Hnone idx u). now left.
      * intros idx u Hin. apply (Hnone idx u). now right.
Qed.

(** *** Interleaved traces *)

Lemma foreign_updates idx o tr :
  Forall (ownEffect o) tr -> o <> idx -> updatesFor idx tr = [].
Proof.
  intros H Hne. induction H as [|e tr He _ IH]; [reflexivity|].
  destruct e as [i u| | |]; cbn [updatesFor]; try exact IH.
  cbn in He. subst i. destruct (Z.eqb_spec o idx); [contradiction|exact IH].
Qed.

Lemma foreign_concat {T} (R : T -> list Effect -> Prop) (ix : T -> Z)
    tasks traces idx :
  Forall2 R tasks traces ->
  (forall x tr, R x tr -> Forall (ownEffect (ix x)) tr) ->
  (forall x, In x tasks -> ix x <> idx) ->
  List.concat (map (updatesFor idx) traces) = [].
Proof.
  intros H Hown Hne. induction H as [|x tr xs trs Hx _ IH]; [reflexivity|].
  cbn [map List.concat].
  rewrite (foreign_updates idx (ix x) tr (Hown _ _ Hx)) by (apply Hne; now left).
  apply IH. intros y Hy. apply Hne. now right.
Qed.

(** Among the traces of tasks with distinct indices, the updates of a
    chunk are those of the task that owns it. *)
Lemma owned_updates {T} (R : T -> list Effect -> Prop) (ix : T -> Z)
    tasks traces :
  Forall2 R tasks traces ->
  (forall x tr, R x tr -> Forall (ownEffect (ix x)) tr) ->
  NoDup (map ix tasks) ->
  forall x, In x tasks ->
    exists tr,
      R x tr /\ In tr traces
      /\ List.concat (map (updatesFor (ix x)) traces) = updatesFor (ix x) tr.
Proof.
  intros H Hown. induction H as [|y tr ys trs Hy Hrest IH]; intros Hnd x Hin.
  - destruct Hin.
  - cbn [map] in Hnd. apply NoDup_cons_iff in Hnd. destruct Hnd as [Hy' Hnd].
    cbn [map List.concat]. destruct Hin as [->|Hin].
    + exists tr. split; [exact Hy|]. split; [now left|].
      rewrite (foreign_concat R ix ys trs (ix x) Hrest Hown).
      * apply app_nil_r.
      * intros z Hz E. apply Hy'. rewrite <- E. now apply in_map.
    + destruct (IH Hnd x Hin) as (tr' & Hr & Hin' & E).
      exists tr'. split; [exact Hr|]. split; [now right|].
      rewrite (foreign_updates (ix x) (ix y) tr (Hown _ _ Hy)); [exact E|].
      intros E'. apply Hy'. rewrite E'. now apply in_map.
Qed.

(** However the scheduler interleaves tasks that own distinct chunks, each
    chunk sees the updates of the tasks in their own order. *)
Lemma interleaving_updates owners (ls : list (list Effect)) l idx :
  Interleaving ls l ->
  Forall2 (fun o tr => Forall (ownEffect o) tr) owners ls ->
  NoDup owners ->
  updatesFor idx l = List.concat (map (updatesFor idx) ls).
Proof.
  intros H. revert owners.
  induction H as [ls Hnil|pre x xs post l H IH]; intros owners Hown Hnd.
  - clear Hown. induction Hnil as [|t ts -> _ IHn]; [reflexivity|exact IHn].
  - apply Forall2_app_inv_r in Hown.
    destruct Hown as (o1 & o2 & Hpre & Hrest & ->).
    inversion Hrest as [|o tr o2' post' Hx Hpost]; subst.
    assert (Hxs : Forall (ownEffect o) xs) by (now inversion Hx).
    specialize (IH (o1 ++ o :: o2')
                   (Forall2_app Hpre (Forall2_cons _ _ Hxs Hpost)) Hnd).
    rewrite map_app, concat_app in IH |- *. cbn [map List.concat] in IH |- *.
    destruct x as [i u| | |]; cbn [updatesFor]; try exact IH.
    destruct (Z.eqb_spec i idx) as [E|N]; [|exact IH].
    rewrite IH.
    assert (Eo : o = idx) by (inversion Hx as [|? ? Hh _]; cbn in Hh; congruence).
    rewrite (foreign_concat (fun o tr => Forall (ownEffect o) tr) (fun o => o)
               o1 pre idx Hpre); auto.
    intros z Hz Ez. subst z o.
    apply NoDup_remove_2 in Hnd. apply Hnd. apply in_or_app. now left.
Qed.

Lemma foreign_ownPart idx o tr :
  Forall (ownEffect o) tr -> o <> idx -> ownPart idx tr = [].
Proof.
  intros H Hne. induction H as [|e tr He _ IH]; [reflexivity|].
  unfold ownPart in *. cbn [filter].
  destruct e as [i u| | |i srv]; cbn [names]; try exact IH;
    cbn in He; subst i; destruct (Z.eqb_spec o idx); try contradiction;
    exact IH.
Qed.

Lemma foreign_ownPart_concat {T} (R : T -> list Effect -> Prop) (ix : T -> Z)
    tasks traces idx :
  Forall2 R tasks traces ->
  (forall x tr, R x tr -> Forall (ownEffect (ix x)) tr) ->
  (forall x, In x tasks -> ix x <> idx) ->
  List.concat (map (ownPart idx) traces) = [].
Proof.
  intros H Hown Hne. induction H as [|x tr xs trs Hx _ IH]; [reflexivity|].
  cbn [map List.concat].
  rewrite (foreign_ownPart idx (ix x) tr (Hown _ _ Hx)) by (apply Hne; now left).
  apply IH. intros y Hy. apply Hne. now right.
Qed.


(** However the scheduler interleaves tasks that own distinct chunks, the
    steps that name a chunk keep the order of the tasks. *)
Lemma interleaving_ownPart owners (ls : list (list Effect)) l idx :
  Interleaving ls l ->
  Forall2 (fun o tr => Forall (ownEffect o) tr) owners ls ->
  NoDup owners ->
  ownPart idx l = List.concat (map (ownPart idx) ls).
Proof.
  intros H. revert owners.
  induction H as [ls Hnil|pre x xs post l H IH]; intros owners Hown Hnd.
  - clear Hown. induction Hnil as [|t ts -> _ IHn]; [reflexivity|exact IHn].
  - apply Forall2_app_inv_r in Hown.
    destruct Hown as (o1 & o2 & Hpre & Hrest & ->).
    inversion Hrest as [|o tr o2' post' Hx Hpost]; subst.
    assert (Hxs : Forall (ownEffect o) xs) by (now inversion Hx).
    specialize (IH (o1 ++ o :: o2')
                   (Forall2_app Hpre (Forall2_cons _ _ Hxs Hpost)) Hnd).
    rewrite map_app, concat_app in IH |- *. cbn [map List.concat] in IH |- *.
    unfold ownPart at 1 3. cbn [filter]. fold (ownPart idx l).
    fold (ownPart idx xs).
    destruct (names idx x) eqn:Ex; [|exact IH].
    rewrite IH.
    assert (Eo : o = idx).
    { inversion Hx as [|? ? Hh _].
      destruct x as [i u| | |i srv]; cbn in Ex, Hh; try discriminate;
        apply Z.eqb_eq in Ex; congruence. }
    rewrite (foreign_ownPart_concat (fun o tr => Forall (ownEffect o) tr)
               (fun o => o) o1 pre idx Hpre); auto.
    intros z Hz Ez. subst z o.
    apply NoDup_remove_2 in Hnd. apply Hnd. apply in_or_app. now left.
Qed.

Lemma interleaving_In {A} (ls : list (list A)) l x :
  Interleaving ls l -> (In x l <-> exists t, In t ls /\ In x t).
Proof.
  induction 1 as [ls Hnil|pre y ys post l H IH].
  - split; [intros []|]. intros (t & Ht & Hx).
    rewrite Forall_forall in Hnil. rewrite (Hnil t Ht) in Hx. destruct Hx.
  - split.
    + intros [->|Hin].
      * exists (x :: ys). split; [apply in_or_app; right; now left|now left].
      * apply IH in Hin. destruct Hin as (t & Ht & Hx).
        apply in_app_or in Ht. destruct Ht as [Ht|[<-|Ht]].
        -- exists t. split; [apply in_or_app; now left|exact Hx].
        -- exists (y :: ys). split; [apply in_or_app; right; now left|now right].
        -- exists t. split; [apply in_or_app; right; now right|exact Hx].
    + intros (t & Ht & Hx). apply in_app_or in Ht.
      destruct Ht as [Ht|[<-|Ht]].
      * right. apply IH. exists t. split; [apply in_or_app; now left|exact Hx].
      * destruct Hx as [->|Hx]; [now left|]. right. apply IH.
        exists ys. split; [apply in_or_app; right; now left|exact Hx].
      * right. apply IH. exists t.
        split; [apply in_or_app; right; now right|exact Hx].
Qed.

(** Running the tasks one after the other is one of the
    interleavings. *)
Lemma concat_Interleaving {A} (ls : list (list A)) :
  Interleaving ls (List.concat ls).
Proof.
  induction ls as [|t ts IH].
  - apply il_done. constructor.
  - induction t as [|x xs IHt].
    + cbn [List.concat app]. remember (List.concat ts) as l eqn:El.
      clear El. induction IH as [ls Hnil|pre y ys post l H IHi].
      * apply il_done. now constructor.
      * apply (il_step ([] :: pre) y ys post l). exact IHi.
    + cbn [List.concat app]. apply (il_step [] x xs ts). exact IHt.
Qed.

End Updates.

(** ** The session *)

Section SessionRun.

Import Uploader.

Variable visibleServers : Z -> list UploadServer.
Variable lag : Z -> Z.
Variable fetchChunk : Z -> Z -> UploadServer -> FetchOutcome.
Variable schedule : list (list Effect) -> list Effect.

Hypothesis lag_nonneg : forall t, 0 <= lag t.
Hypothesis schedule_interleaves : forall ls, Interleaving ls (schedule ls).

Local Abbreviation Retried := (Retried visibleServers lag fetchChunk).

(** A task always returns, and its trace conforms to the lifecycle. *)
Lemma processChunk_Retried chunkData idx t :
  exists s',
    processChunk visibleServers lag fetchChunk chunkData idx (mkTS t [])
    = Some (tt, s')
    /\ Retried chunkData idx 0 [] t (trace s') (clock s').
Proof.
  unfold processChunk.
  destruct (retryLoop_Retried visibleServers lag fetchChunk lag_nonneg
              (Z.to_nat MAX_RETRIES) chunkData idx 0 [] (mkTS t []))
    as (s' & tr & Hrun & Htr & Hret); [unfold MAX_RETRIES; lia|].
  exists s'. split; [exact Hrun|]. cbn [trace clock app] in Htr, Hret.
  now rewrite Htr.
Qed.

Lemma runTasks_spec t tasks :
  exists traces tEnd,
    runTasks visibleServers lag fetchChunk t tasks = Some (traces, tEnd)
    /\ Forall2 (fun task tr => ranTask visibleServers lag fetchChunk t task tr)
               tasks traces
    /\ t <= tEnd.
Proof.
  induction tasks as [|task rest (traces & tEnd & Hrun & Hall & Hclk)].
  - exists [], t. repeat split; [constructor|lia].
  - destruct (processChunk_Retried (task_blob task) (task_index task) t)
      as (s' & Hp & Hret).
    cbn [runTasks]. rewrite Hp, Hrun.
    exists (trace s' :: traces), (Z.max (clock s') tEnd).
    split; [reflexivity|]. split; [|lia].
    constructor; [|exact Hall]. exists t, (clock s'). split; [lia|].
    split; [|exact Hret]. rewrite Hp. now destruct s'.
Qed.

Lemma ranTask_since since since' task tr :
  since <= since' ->
  ranTask visibleServers lag fetchChunk since' task tr ->
  ranTask visibleServers lag fetchChunk since task tr.
Proof.
  intros Hle (t & t' & Ht & H). exists t, t'. split; [lia|exact H].
Qed.

Lemma ranTask_own since task tr :
  ranTask visibleServers lag fetchChunk since task tr ->
  Forall (ownEffect (task_index task)) tr.
Proof.
  intros (t & t' & _ & _ & H).
  now destruct (Retried_facts visibleServers lag fetchChunk lag_nonneg
                  _ _ _ _ _ _ _ H ltac:(lia)) as (Hown & _).
Qed.

(** The batches run one after the other; the session state is the
    initial state with all the effects applied in the order the scheduler
    ran them; every chunk sees the updates of its own task. *)
Lemma runBatches_spec n batches st :
  NoDup (map task_index (List.concat (map batch_tasks batches))) ->
  exists st' new traces,
    runBatches visibleServers lag fetchChunk schedule n batches st = Some st'
    /\ s_effects st' = s_effects st ++ new
    /\ s_file st' = fold_left applyEffect new (s_file st)
    /\ s_clock st <= s_clock st'
    /\ Forall2 (fun task tr =>
                  ranTask visibleServers lag fetchChunk (s_clock st) task tr)
               (List.concat (map batch_tasks batches)) traces
    /\ (forall idx,
          updatesFor idx new = List.concat (map (updatesFor idx) traces))
    /\ (forall tr e, In tr traces -> In e tr -> In e new)
    /\ (forall idx,
          ownPart idx new = List.concat (map (ownPart idx) traces)).
Proof.
  revert st. induction batches as [|b rest IH]; intros st Hnd.
  - exists st, [], []. cbn. rewrite app_nil_r.
    repeat split; auto; try lia; try constructor.
  - cbn [map List.concat] in Hnd.
    rewrite map_app in Hnd.
    pose proof (NoDup_app_remove_r _ _ Hnd) as Hnd_b.
    pose proof (NoDup_app_remove_l _ _ Hnd) as Hnd_rest.
    destruct (runTasks_spec (s_clock st) (batch_tasks b))
      as (traces & tEnd & Hrun & Hall & Hclk).
    cbn [runBatches]. rewrite Hrun.
    set (merged := schedule traces).
    set (pause := if batch_end b <? n then [Sleep 100] else []).
    destruct (IH (mkSession (fold_left applyEffect merged (s_file st))
                    (if batch_end b <? n
                     then tEnd + 100 + lag tEnd else tEnd)
                    (s_effects st ++ merged ++ pause)) Hnd_rest)
      as (st' & new & traces' & Hrest & Heff & Hfile & Hclk' & Hall'
          & Hupd & Hin & Hown).
    cbn [s_effects s_file s_clock] in Heff, Hfile, Hclk', Hall'.
    exists st', (merged ++ pause ++ new), (traces ++ traces').
    split; [exact Hrest|].
    split; [rewrite Heff, <- !app_assoc; reflexivity|].
    split.
    { rewrite Hfile, !fold_left_app. f_equal.
      subst pause. now destruct (batch_end b <? n). }
    split.
    { pose proof (lag_nonneg tEnd). destruct (batch_end b <? n); lia. }
    split.
    { cbn [map List.concat]. apply Forall2_app; [exact Hall|].
      eapply Forall2_impl; [|exact Hall'].
      intros task tr. apply ranTask_since.
      pose proof (lag_nonneg tEnd). destruct (batch_end b <? n); lia. }
    split.
    { intros idx. rewrite !updatesFor_app, map_app, concat_app, Hupd.
      f_equal.
      - apply (interleaving_updates (map task_index (batch_tasks b))).
        + apply schedule_interleaves.
        + clear -Hall lag_nonneg. induction Hall; cbn; constructor; auto.
          eapply ranTask_own; eauto.
        + exact Hnd_b.
      - subst pause. now destruct (batch_end b <? n). }
    split.
    { intros tr e Htr He. apply in_app_or in Htr. destruct Htr as [Htr|Htr].
      + apply in_or_app. left.
        apply (interleaving_In traces merged e (schedule_interleaves traces)).
        now exists tr.
      + apply in_or_app. right. apply in_or_app. right. eapply Hin; eauto. }
    intros idx. unfold ownPart at 1. rewrite !filter_app.
    fold (ownPart idx merged). fold (ownPart idx new). fold (ownPart idx pause).
    rewrite map_app, concat_app, Hown. f_equal.
    { apply (interleaving_ownPart (map task_index (batch_tasks b))).
      + apply schedule_interleaves.
      + clear -Hall lag_nonneg. induction Hall; cbn; constructor; auto.
        eapply ranTask_own; eauto.
      + exact Hnd_b. }
    subst pause. now destruct (batch_end b <? n).
Qed.

Lemma NoDup_for_range a b : NoDup (for_range a b).
Proof.
  remember (Z.to_nat (b - a)) as k eqn:Hk. revert a Hk.
  induction k as [|k IH]; intros a Hk.
  - rewrite for_range_nil by lia. constructor.
  - rewrite for_range_cons by lia. constructor.
    + rewrite In_for_range. lia.
    + apply IH. lia.
Qed.

(** An accepted file: what [handleFileUpload] returns and how its parts
    are related. *)
Lemma handleFileUpload_accepted newFileId t0 f c :
  0 <= file_size f <= MAX_FILE_SIZE ->
  uploadServers c <> [] ->
  let n := computeTotalChunks f in
  exists batches effects traces tEnd q,
    handleFileUpload visibleServers lag fetchChunk schedule
      newFileId t0 (Some f) c
    = Some (mkRun [] (mkComponent (uploadServers c)
                        (finalStatus n tEnd (Some q)) false)
                  batches effects)
    /\ planBatches f = Some batches
    /\ List.concat (map batch_tasks batches)
       = map (sliceChunk f) (for_range 0 n)
    /\ fold_left applyEffect effects (Some (sessionStart newFileId t0 f))
       = Some q
    /\ chunks q
       = map (fun i => chunkAfter i effects (pendingChunk i)) (for_range 0 n)
    /\ sameSession (sessionStart newFileId t0 f) q
    /\ ((exists idx u, In (SetChunk idx u) effects) ->
        overallProgress q = progressOf (chunks q))
    /\ Forall2 (fun task tr =>
                  ranTask visibleServers lag fetchChunk t0 task tr)
               (map (sliceChunk f) (for_range 0 n)) traces
    /\ (forall idx,
          updatesFor idx effects = List.concat (map (updatesFor idx) traces))
    /\ (forall tr e, In tr traces -> In e tr -> In e effects)
    /\ t0 <= tEnd
    /\ (forall idx,
          ownPart idx effects = List.concat (map (ownPart idx) traces)).
Proof.
  intros [Hlo Hhi] Hservers n.
  pose proof (computeTotalChunks_nonneg f Hlo) as Hn. fold n in Hn.
  destruct (batchLoop_tasks f n (Z.to_nat n) 0) as (batches & Hplan & Htasks);
    [lia|lia|].
  assert (Hnd : NoDup (map task_index (List.concat (map batch_tasks batches)))).
  { rewrite Htasks, map_map. cbn. rewrite map_id. apply NoDup_for_range. }
  destruct (runBatches_spec n batches
              (mkSession (Some (sessionStart newFileId t0 f)) t0 []) Hnd)
    as (st' & new & traces & Hrun & Heff & Hfile & Hclk & Hall & Hupd & Hin
        & Hown).
  cbn [s_effects s_file s_clock app] in Heff, Hfile, Hclk.
  assert (Hnd0 : NoDup (map chunkIndex (chunks (sessionStart newFileId t0 f)))).
  { cbn [chunks sessionStart]. rewrite initialChunks_indices.
    apply NoDup_for_range. }
  destruct (apply_effects new (sessionStart newFileId t0 f) Hnd0)
    as (q & Hq & Hchunks & Hsame & Hprog & _).
  exists batches, new, traces, (s_clock st'), q.
  split.
  { unfold handleFileUpload.
    destruct (uploadServers c) as [|s0 rest] eqn:Es; [contradiction|].
    cbn [List.length Nat.eqb].
    destruct (Z.gtb_spec (file_size f) MAX_FILE_SIZE) as [Hgt|_]; [lia|].
    fold n. unfold planBatches. fold n. rewrite Hplan.
    cbn [setStatus fileId fileName totalSize chunkSize totalChunks chunks
         overallProgress startTime endTime].
    change (mkFileUploadState newFileId (file_name f) (file_size f) CHUNK_SIZE
              n (initialChunks n) 0 s_uploading t0 None)
      with (sessionStart newFileId t0 f).
    rewrite Hrun, Hfile, Hq, Heff. reflexivity. }
  split; [exact Hplan|]. split; [exact Htasks|]. split; [exact Hq|].
  split.
  { rewrite Hchunks. cbn [chunks sessionStart]. fold n. unfold initialChunks.
    rewrite map_map. reflexivity. }
  split; [exact Hsame|]. split; [exact Hprog|].
  split; [rewrite <- Htasks; exact Hall|].
  split; [exact Hupd|]. split; [exact Hin|]. split; [exact Hclk|exact Hown].
Qed.

Lemma isCompleted_iff ch : isCompleted ch = true <-> status ch = completed.
Proof. unfold isCompleted. destruct (status ch); cbn; split; congruence. Qed.

Lemma completedCount_all (l : list ChunkUploadStatus) :
  completedCount l = Z.of_nat (List.length l)
  <-> Forall (fun ch => status ch = completed) l.
Proof.
  unfold completedCount. split.
  - intros H. apply Nat2Z.inj in H.
    induction l as [|x r IH]; [constructor|].
    cbn [filter List.length] in H.
    pose proof (filter_length_le isCompleted r) as Hle.
    destruct (isCompleted x) eqn:E.
    + cbn [List.length] in H. constructor; [now apply isCompleted_iff|].
      apply IH. lia.
    + lia.
  - intros H. f_equal. induction H as [|x r Hx _ IH]; [reflexivity|].
    cbn [filter]. apply isCompleted_iff in Hx. rewrite Hx. cbn [List.length].
    now rewrite IH.
Qed.

Lemma updatesFor_In idx tr :
  updatesFor idx tr <> [] -> exists u, In (SetChunk idx u) tr.
Proof.
  induction tr as [|e tr IH]; [now intros []|].
  destruct e as [i u| | |]; cbn [updatesFor]; intros H;
    try (destruct (IH H) as (u' & Hu); exists u'; now right).
  destruct (Z.eqb_spec i idx) as [->|_].
  - exists u. now left.
  - destruct (IH H) as (u' & Hu). exists u'. now right.
Qed.

(** In a session, every descriptor is the initial one of its index with
    the updates of the trace of its own task applied. *)
Lemma session_chunk_trace since f traces effects i :
  Forall2 (fun task tr => ranTask visibleServers lag fetchChunk since task tr)
          (map (sliceChunk f) (for_range 0 (computeTotalChunks f))) traces ->
  (forall idx,
      updatesFor idx effects = List.concat (map (updatesFor idx) traces)) ->
  In i (for_range 0 (computeTotalChunks f)) ->
  exists tr,
    ranTask visibleServers lag fetchChunk since (sliceChunk f i) tr
    /\ In tr traces
    /\ forall c0, chunkAfter i effects c0 = chunkAfter i tr c0.
Proof.
  intros Hall Hupd Hi.
  destruct (owned_updates
              (fun task tr =>
                 ranTask visibleServers lag fetchChunk since task tr)
              task_index _ _ Hall (ranTask_own since))
    with (x := sliceChunk f i)
    as (tr & Hran & Hin & E).
  - rewrite map_map. cbn. rewrite map_id. apply NoDup_for_range.
  - now apply in_map.
  - exists tr. split; [exact Hran|]. split; [exact Hin|].
    intros c0. unfold chunkAfter. rewrite Hupd.
    cbn [task_index sliceChunk] in E. now rewrite E.
Qed.

(** What a session does, in one statement; the theorems below are read off
    it. *)
Lemma session_summary
    (newFileId : string) (t0 : Z) (f : File) (c : Component) :
  0 <= file_size f <= MAX_FILE_SIZE ->
  uploadServers c <> [] ->
  exists run p,
    handleFileUpload visibleServers lag fetchChunk schedule
      newFileId t0 (Some f) c = Some run
    /\ run_alerts run = []
    /\ isUploading (run_component run) = false
    /\ fileUpload (run_component run) = Some p
    /\ (exists tEnd,
          finalStatus (computeTotalChunks f) tEnd
            (fold_left applyEffect (run_effects run)
                       (Some (sessionStart newFileId t0 f))) = Some p)
    /\ totalChunks p = computeTotalChunks f
    /\ Z.of_nat (List.length (chunks p)) = totalChunks p
    /\ Forall (fun ch => status ch = completed \/ status ch = failed)
              (chunks p)
    /\ (sessionStatus p = s_completed
        <-> Forall (fun ch => status ch = completed) (chunks p))
    /\ (Exists (fun ch => status ch = failed) (chunks p) ->
        sessionStatus p = s_failed)
    /\ (forall pre idx u post,
          run_effects run = pre ++ SetChunk idx u :: post ->
          exists q,
            fold_left applyEffect (pre ++ [SetChunk idx u])
                      (Some (sessionStart newFileId t0 f)) = Some q
            /\ (overallProgress q
                == num_div (completedCount (chunks q)) (totalChunks q) * 100)%Q)
    /\ (sessionStatus p = s_completed -> 0 < totalChunks p ->
        (overallProgress p == 100)%Q)
    /\ chunks p
       = map (fun i => chunkAfter i (run_effects run) (pendingChunk i))
             (for_range 0 (computeTotalChunks f))
    /\ (forall i, In i (for_range 0 (computeTotalChunks f)) ->
          exists tr t t',
            t0 <= t
            /\ Retried (task_blob (sliceChunk f i)) i 0 [] t tr t'
            /\ forall c0, chunkAfter i (run_effects run) c0
                          = chunkAfter i tr c0)
    /\ totalSize p = file_size f
    /\ planBatches f = Some (run_batches run).
Proof.
  intros Hsize Hservers.
  destruct (handleFileUpload_accepted newFileId t0 f c Hsize Hservers)
    as (batches & effects & traces & tEnd & q & Hrun & Hplan & Htasks & Hq
        & Hchunks & Hsame & Hprog & Hall & Hupd & Hin & Hclk & Hown).
  set (n := computeTotalChunks f) in *.
  pose proof (computeTotalChunks_nonneg f (proj1 Hsize)) as Hn. fold n in Hn.
  destruct Hsame as (_ & _ & Hbytes & _ & Htotal & _).
  cbn [totalChunks totalSize sessionStart] in Htotal, Hbytes.
  fold n in Htotal.
  assert (Hlen : Z.of_nat (List.length (chunks q)) = n).
  { rewrite Hchunks, length_map, for_range_length. lia. }
  assert (Hsettled : Forall (fun ch => status ch = completed
                                       \/ status ch = failed) (chunks q)).
  { rewrite Hchunks. apply Forall_forall. intros ch Hch.
    apply in_map_iff in Hch. destruct Hch as (i & <- & Hi).
    destruct (session_chunk_trace t0 f traces effects i Hall Hupd Hi)
      as (tr & (t & t' & _ & _ & Hret) & _ & ->).
    now destruct (Retried_facts visibleServers lag fetchChunk lag_nonneg
                    _ _ _ _ _ _ _ Hret ltac:(lia))
      as (_ & _ & _ & _ & _ & _ & Hc);
      destruct (Hc (pendingChunk i)) as (Hst & _). }
  eexists. exists (mkFileUploadState (fileId q) (fileName q) (totalSize q)
                     (chunkSize q) (totalChunks q) (chunks q)
                     (overallProgress q)
                     (if completedCount (chunks q) =? n
                      then s_completed else s_failed)
                     (startTime q) (Some tEnd)).
  split; [exact Hrun|]. cbn [run_alerts run_component run_effects isUploading
                             fileUpload finalStatus totalChunks chunks
                             sessionStatus overallProgress].
  split; [reflexivity|]. split; [reflexivity|]. split; [reflexivity|].
  split; [exists tEnd; rewrite Hq; reflexivity|].
  split; [exact Htotal|]. split; [lia|]. split; [exact Hsettled|].
  assert (Hiff : (if completedCount (chunks q) =? n
                  then s_completed else s_failed) = s_completed
                 <-> Forall (fun ch => status ch = completed) (chunks q)).
  { rewrite <- completedCount_all, Hlen.
    destruct (Z.eqb_spec (completedCount (chunks q)) n); split;
      auto; try discriminate; contradiction. }
  split; [exact Hiff|].
  split.
  { intros Hex. destruct (completedCount (chunks q) =? n) eqn:E;
      [|reflexivity].
    exfalso. assert (Hc : Forall (fun ch => status ch = completed) (chunks q))
      by (apply Hiff; reflexivity).
    apply Exists_exists in Hex. destruct Hex as (ch & Hch & Hf).
    rewrite Forall_forall in Hc. rewrite (Hc ch Hch) in Hf. discriminate. }
  split.
  { intros pre idx u post _.
    assert (Hnd0 : NoDup (map chunkIndex
                            (chunks (sessionStart newFileId t0 f)))).
    { cbn [chunks sessionStart]. rewrite initialChunks_indices.
      apply NoDup_for_range. }
    destruct (apply_effects (pre ++ [SetChunk idx u])
                (sessionStart newFileId t0 f) Hnd0)
      as (q' & Hq' & Hchunks' & Hsame' & Hprog' & _).
    exists q'. split; [exact Hq'|].
    rewrite Hprog'.
    2:{ exists idx, u. apply in_or_app. right. now left. }
    destruct Hsame' as (_ & _ & _ & _ & Htotal' & _).
    unfold progressOf. rewrite Htotal'. cbn [totalChunks sessionStart].
    rewrite Hchunks', length_map. cbn [chunks sessionStart].
    unfold initialChunks. rewrite length_map, for_range_length.
    rewrite Z.sub_0_r, Z.max_r by exact Hn. reflexivity. }
  split.
  2:{ split; [exact Hchunks|]. split; [|split; [exact Hbytes|exact Hplan]].
      intros i Hi.
      destruct (session_chunk_trace t0 f traces effects i Hall Hupd Hi)
        as (tr & (t & t' & Ht & _ & Hret) & _ & E).
      exists tr, t, t'. auto. }
  intros Hdone Hpos. apply Hiff in Hdone.
  apply completedCount_all in Hdone.
  rewrite Htotal in Hpos.
  rewrite Hprog.
  - unfold progressOf, num_div. rewrite Hdone, Hlen. field.
    intros E. apply Qeq_eq_bool in E. revert E.
    unfold Qeq_bool, inject_Z; cbn. rewrite Z.mul_1_r.
    destruct n; cbn; lia || discriminate.
  - assert (Hi : In 0 (for_range 0 n)) by (apply In_for_range; lia).
    destruct (session_chunk_trace t0 f traces effects 0 Hall Hupd Hi)
      as (tr & (t & t' & _ & _ & Hret) & Htr & _).
    destruct (Retried_facts visibleServers lag fetchChunk lag_nonneg
                _ _ _ _ _ _ _ Hret ltac:(lia))
      as (_ & _ & _ & _ & _ & Hne & _).
    cbn [task_index sliceChunk] in Hne.
    destruct (updatesFor_In _ _ Hne) as (u & Hu).
    exists 0, u. eapply Hin; eauto.
Qed.

Lemma Retried_no_server_window chunkData idx a excluded t tr t' :
  Retried chunkData idx a excluded t tr t' ->
  a < MAX_RETRIES ->
  (forall t1, t <= t1 < t + SERVER_SELECTION_TIMEOUT ->
              selectAt visibleServers chunkData excluded t1 = None) ->
  exists k,
    tr = SetChunk idx (upWaiting (a + 1)) :: SetChunk idx upStillWaiting
         :: rounds k ++ [SetChunk idx upNoServer]
    /\ (1 <= k <= 15)%nat
    /\ t + SERVER_SELECTION_TIMEOUT <= t'.
Proof.
  intros H Ha Hnone.
  assert (Hsome : forall tr1 srv t1,
             ~ Acquired visibleServers chunkData idx excluded t tr1
                 (Some srv) t1).
  { intros tr1 srv t1 Hacq. inversion Hacq; subst;
      match goal with
      | Hs : selectAt _ _ _ _ = Some _ |- _ =>
          rewrite Hnone in Hs
            by (unfold SERVER_SELECTION_TIMEOUT in *; lia);
          discriminate
      end. }
  inversion H as [| ? ? ? tr1 ? _ Hacq | ? ? ? tr1 srv t1 ? _ Hacq
                  | ? ? ? tr1 srv t1 ? ? ? ? _ Hacq]; subst; try lia.
  - inversion Hacq; subst. eexists. cbn [app].
    split; [reflexivity|]. split; [assumption|lia].
  - exfalso. eapply Hsome; eauto.
  - exfalso. eapply Hsome; eauto.
Qed.

Lemma Forall2_In_l {A B} (R : A -> B -> Prop) l l' x :
  Forall2 R l l' -> In x l -> exists y, In y l' /\ R x y.
Proof.
  induction 1 as [|a b l l' Hab _ IH]; intros Hin; [destruct Hin|].
  destruct Hin as [<-|Hin].
  - exists b. split; [now left|exact Hab].
  - destruct (IH Hin) as (y & Hy & Hr). exists y. split; [now right|exact Hr].
Qed.


(** An empty file on a loaded registry: no chunk, no batch, no request;
    the session is completed at once and its progress stays at the initial
    0. *)
Lemma empty_file_run newFileId t0 f c :
  uploadServers c <> [] ->
  file_size f = 0 ->
  handleFileUpload visibleServers lag fetchChunk schedule
    newFileId t0 (Some f) c
  = Some (mkRun []
            (mkComponent (uploadServers c)
               (Some (mkFileUploadState newFileId (file_name f) 0 CHUNK_SIZE
                        0 [] 0 s_completed t0 (Some t0)))
               false)
            [] []).
Proof.
  intros Hsome Hzero. unfold handleFileUpload.
  destruct (uploadServers c) as [|s0 rest]; [contradiction|].
  cbn [List.length Nat.eqb].
  assert (En : computeTotalChunks f = 0).
  { unfold computeTotalChunks. rewrite Hzero. reflexivity. }
  unfold planBatches. rewrite Hzero, En.
  change (0 >? MAX_FILE_SIZE) with false. cbv iota. reflexivity.
Qed.


(** C1.  For every file the handler accepts, the session it creates
    starts from the descriptors of the initializer, pending, one for each
    index [0 .. totalChunks-1], with [totalChunks] the ceiling of
    [size / 4 MiB], and keeps these indices to the end; the batches it
    dispatches hold exactly one task per index, in order, cut from the byte
    range [[i * 4 MiB, min ((i+1) * 4 MiB, size))]; these ranges are
    non-empty, adjacent and cover [[0, size)], every blob has the size of
    its range and the sizes add up to [size]; and for every task the
    handler ran [processChunk] on its blob.  A 10 MiB file gives blobs of 4,
    4 and 2 MiB. *)
Theorem chunk_plan_partitions_file
    (newFileId : string) (t0 : Z) (f : File) (c : Component) :
  0 <= file_size f <= MAX_FILE_SIZE ->
  uploadServers c <> [] ->
  let n := computeTotalChunks f in
  exists run p,
    handleFileUpload visibleServers lag fetchChunk schedule
      newFileId t0 (Some f) c = Some run
    /\ fileUpload (run_component run) = Some p
    /\ (exists tEnd,
          finalStatus n tEnd
            (fold_left applyEffect (run_effects run)
                       (Some (sessionStart newFileId t0 f))) = Some p)
    /\ chunks (sessionStart newFileId t0 f) = map pendingChunk (for_range 0 n)
    /\ totalSize p = file_size f
    /\ chunkSize p = CHUNK_SIZE
    /\ CHUNK_SIZE = 4 * MiB
    /\ totalChunks p = n
    /\ (file_size f <= n * CHUNK_SIZE /\ (n - 1) * CHUNK_SIZE < file_size f)
    /\ map chunkIndex (chunks p) = for_range 0 n
    /\ let tasks := List.concat (map batch_tasks (run_batches run)) in
       map task_index tasks = for_range 0 n
       /\ (forall t, In t tasks ->
             task_start t = task_index t * CHUNK_SIZE
             /\ task_end t
                = Z.min ((task_index t + 1) * CHUNK_SIZE) (file_size f)
             /\ blob_offset (task_blob t) = task_start t
             /\ blob_size (task_blob t) = task_end t - task_start t)
       /\ tiles 0 (file_size f) tasks
       /\ sumZ (map (fun t => blob_size (task_blob t)) tasks) = file_size f
       /\ (file_size f = 10 * MiB ->
           map (fun t => blob_size (task_blob t)) tasks
           = [4 * MiB; 4 * MiB; 2 * MiB])
       /\ (forall task, In task tasks ->
             exists t t' tr,
               t0 <= t
               /\ processChunk visibleServers lag fetchChunk
                    (task_blob task) (task_index task) (mkTS t [])
                  = Some (tt, mkTS t' tr)
               /\ (forall e, In e tr -> In e (run_effects run))).
Proof.
  intros Hsize Hservers n.
  destruct (handleFileUpload_accepted newFileId t0 f c Hsize Hservers)
    as (batches & effects & traces & tEnd & q & Hrun & Hplan & Htasks & Hq
        & Hchunks & Hsame & _ & Hall & _ & Hin & _).
  fold n in Hrun, Htasks, Hchunks, Hall.
  destruct (planBatches_partitions f (proj1 Hsize))
    as (Hbounds & Hmib & _ & batches' & Hplan' & Hplanned).
  fold n in Hbounds, Hplanned.
  rewrite Hplan in Hplan'. injection Hplan' as <-.
  destruct Hsame as (_ & _ & Hbytes & Hcs & Htotal & _).
  cbn [totalSize chunkSize totalChunks sessionStart] in Hbytes, Hcs, Htotal.
  fold n in Htotal.
  eexists. eexists. split; [exact Hrun|].
  cbn [run_component fileUpload finalStatus run_effects run_batches].
  split; [reflexivity|].
  split; [exists tEnd; rewrite Hq; reflexivity|].
  split.
  { cbn [chunks sessionStart]. fold n. reflexivity. }
  cbn [totalSize chunkSize totalChunks chunks].
  split; [exact Hbytes|]. split; [exact Hcs|]. split; [exact Hmib|].
  split; [exact Htotal|]. split; [exact Hbounds|].
  split.
  { rewrite Hchunks, map_map. cbn.
    rewrite <- (map_id (for_range 0 n)) at 2. apply map_ext.
    intros i. now rewrite chunkAfter_index. }
  cbv zeta in Hplanned |- *.
  destruct Hplanned as (Hidx & Hrange & Htiles & Hsum & Hten).
  split; [exact Hidx|]. split; [exact Hrange|]. split; [exact Htiles|].
  split; [exact Hsum|]. split; [exact Hten|].
  intros task Htask. rewrite Htasks in Htask.
  destruct (Forall2_In_l _ _ _ _ Hall Htask)
    as (tr & Htr & (t & t' & Ht & Hcall & _)).
  exists t, t', tr. split; [exact Ht|]. split; [exact Hcall|].
  intros e He. eapply Hin; eauto.
Qed.

(** C7, amended.  For an accepted file, whatever the servers answer and
    however the tasks interleave, [handleFileUpload] returns with every
    chunk either completed or failed; the session is ['completed'] if and
    only if every chunk is completed and ['failed'] as soon as one chunk is
    failed; after every chunk update the aggregate progress is
    [completedChunks / totalChunks] (as a percentage).  A completed session
    with at least one chunk reports 100; the session of an empty file is
    completed with no chunk and no update, and reports the initial 0. *)
Theorem session_status_and_progress
    (newFileId : string) (t0 : Z) (f : File) (c : Component) :
  0 <= file_size f <= MAX_FILE_SIZE ->
  uploadServers c <> [] ->
  exists run p,
    handleFileUpload visibleServers lag fetchChunk schedule
      newFileId t0 (Some f) c = Some run
    /\ run_alerts run = []
    /\ isUploading (run_component run) = false
    /\ fileUpload (run_component run) = Some p
    /\ (exists tEnd,
          finalStatus (computeTotalChunks f) tEnd
            (fold_left applyEffect (run_effects run)
                       (Some (sessionStart newFileId t0 f))) = Some p)
    /\ totalChunks p = computeTotalChunks f
    /\ Z.of_nat (List.length (chunks p)) = totalChunks p
    /\ Forall (fun ch => status ch = completed \/ status ch = failed)
              (chunks p)
    /\ (sessionStatus p = s_completed
        <-> Forall (fun ch => status ch = completed) (chunks p))
    /\ (Exists (fun ch => status ch = failed) (chunks p) ->
        sessionStatus p = s_failed)
    /\ (forall pre idx u post,
          run_effects run = pre ++ SetChunk idx u :: post ->
          exists q,
            fold_left applyEffect (pre ++ [SetChunk idx u])
                      (Some (sessionStart newFileId t0 f)) = Some q
            /\ (overallProgress q
                == num_div (completedCount (chunks q)) (totalChunks q) * 100)%Q)
    /\ (sessionStatus p = s_completed ->
        (0 < totalChunks p -> (overallProgress p == 100)%Q)
        /\ (totalChunks p = 0 -> (overallProgress p == 0)%Q))
    /\ (file_size f = 0 ->
        sessionStatus p = s_completed /\ chunks p = []
        /\ run_effects run = [] /\ (overallProgress p == 0)%Q).
Proof.
  intros Hsize Hservers.
  destruct (session_summary newFileId t0 f c Hsize Hservers)
    as (run & p & Hrun & H1 & H2 & H3 & H4 & H5 & H6 & H7 & H8 & H9 & H10
        & H11 & _).
  exists run, p. repeat (split; [assumption|]).
  assert (Hempty : file_size f = 0 ->
                   sessionStatus p = s_completed /\ chunks p = []
                   /\ run_effects run = [] /\ (overallProgress p == 0)%Q).
  { intros Hzero.
    rewrite (empty_file_run newFileId t0 f c Hservers Hzero) in Hrun.
    injection Hrun as <-. cbn in H3. injection H3 as <-.
    cbn. repeat split; reflexivity. }
  split; [|exact Hempty].
  intros Hdone. split; [now apply H11|].
  intros Hzero. apply Hempty.
  rewrite H5 in Hzero.
  pose proof (computeTotalChunks_bounds f) as [Hb _]. cbv zeta in Hb.
  rewrite Hzero in Hb. lia.
Qed.


(** C6.  Whenever an attempt finds no capable server during the thirty
    seconds that follow its start, the retry loop, after the "waiting"
    updates, refreshes the registry and sleeps two seconds between one and
    fifteen times, then marks the chunk failed with "No capable server
    available" and returns without another attempt, thirty seconds or more
    after the attempt began.  In a session in which some chunk never finds a
    capable server, that chunk ends failed with this error after one
    attempt, and the session ends failed. *)
Theorem no_capable_server_is_fatal :
  (forall fuel chunkData idx attempts excluded s,
      attempts < MAX_RETRIES ->
      MAX_RETRIES - attempts <= Z.of_nat fuel ->
      (forall t, clock s <= t < clock s + SERVER_SELECTION_TIMEOUT ->
                 selectAt visibleServers chunkData excluded t = None) ->
      exists s' k,
        retryLoop visibleServers lag fetchChunk fuel chunkData idx
                  attempts excluded s = Some (tt, s')
        /\ trace s'
           = trace s
             ++ SetChunk idx (upWaiting (attempts + 1))
                :: SetChunk idx upStillWaiting
                :: rounds k ++ [SetChunk idx upNoServer]
        /\ (1 <= k <= 15)%nat
        /\ clock s + SERVER_SELECTION_TIMEOUT <= clock s')
  /\ (forall newFileId t0 f c i,
        0 <= file_size f <= MAX_FILE_SIZE ->
        uploadServers c <> [] ->
        In i (for_range 0 (computeTotalChunks f)) ->
        (forall t, t0 <= t ->
                   selectAt visibleServers (task_blob (sliceChunk f i)) [] t
                   = None) ->
        exists run p ch,
          handleFileUpload visibleServers lag fetchChunk schedule
            newFileId t0 (Some f) c = Some run
          /\ fileUpload (run_component run) = Some p
          /\ In ch (chunks p)
          /\ chunkIndex ch = i
          /\ status ch = failed
          /\ error ch = Some "No capable server available"%string
          /\ attempts ch = 1
          /\ sessionStatus p = s_failed).
Proof.
  split.
  - intros fuel chunkData idx attempts excluded s Ha Hfuel Hnone.
    destruct (retryLoop_Retried visibleServers lag fetchChunk lag_nonneg
                fuel chunkData idx attempts excluded s Hfuel)
      as (s' & tr & Hrun & Htr & Hret).
    destruct (Retried_no_server_window _ _ _ _ _ _ _ Hret Ha Hnone)
      as (k & -> & Hk & Hclk).
    exists s', k. auto.
  - intros newFileId t0 f c i Hsize Hservers Hi Hnone.
    destruct (session_summary newFileId t0 f c Hsize Hservers)
      as (run & p & Hrun & _ & _ & Hp & _ & _ & _ & _ & Hiff & Hfail & _ & _
          & Hchunks & Htraces & _).
    destruct (Htraces i Hi) as (tr & t & t' & Ht & Hret & E).
    destruct (Retried_no_server_window _ _ _ _ _ _ _ Hret
                ltac:(unfold MAX_RETRIES; lia)) as (k & Etr & Hk & Hclk).
    { intros t1 Ht1. apply Hnone. lia. }
    assert (Hch : chunkAfter i (run_effects run) (pendingChunk i)
                  = mergeChunk
                      (mergeChunk (mergeChunk (pendingChunk i) (upWaiting 1))
                                  upStillWaiting)
                      upNoServer).
    { rewrite E, Etr.
      rewrite chunkAfter_cons_own, chunkAfter_cons_own, chunkAfter_app.
      unfold chunkAfter at 2. rewrite rounds_updates. cbn [fold_left].
      now rewrite chunkAfter_cons_own. }
    exists run, p, (chunkAfter i (run_effects run) (pendingChunk i)).
    split; [exact Hrun|]. split; [exact Hp|].
    split; [rewrite Hchunks; apply in_map_iff; now exists i|].
    split; [now rewrite chunkAfter_index|].
    rewrite Hch. cbn [status error attempts mergeChunk override upNoServer
                      upStillWaiting upWaiting u_status u_error u_attempts
                      pendingChunk].
    split; [reflexivity|]. split; [reflexivity|]. split; [reflexivity|].
    apply Hfail. apply Exists_exists.
    exists (chunkAfter i (run_effects run) (pendingChunk i)).
    split; [rewrite Hchunks; apply in_map_iff; now exists i|].
    now rewrite Hch.
Qed.

Lemma batchLoop_single f n fuel batches :
  n <= MAX_CONCURRENT_UPLOADS ->
  batchLoop fuel f n 0 = Some batches ->
  (List.length batches <= 1)%nat.
Proof.
  intros Hn H. destruct fuel as [|fuel]; cbn [batchLoop] in H.
  - destruct (0 <? n); [discriminate|]. injection H as <-. cbn. lia.
  - destruct (0 <? n); [|injection H as <-; cbn; lia].
    destruct fuel as [|fuel]; cbn [batchLoop] in H;
      destruct (Z.ltb_spec (0 + MAX_CONCURRENT_UPLOADS) n); try lia;
      injection H as <-; cbn; lia.
Qed.

(** C10.  A file of more than [10 * 1024 * 1024] bytes is turned away by
    both entry points with a message: [handleFileUpload] leaves the
    component state as it was and dispatches nothing, [handleFileSelect]
    leaves the form as it was (and clears the input).  Conversely, a call of
    [handleFileUpload] that showed no alert had a file of at most 10 MiB and
    a file selected without a toast is at most 10 MiB; the session created
    for such a file has that total size, at most 3 chunks and at most one
    batch, which holds all its tasks. *)
Theorem oversized_file_is_rejected
    (newFileId : string) (t0 : Z) (f : File) (c : Component)
    (st : FileUpload.Form) :
  (MAX_FILE_SIZE < file_size f ->
   (exists alert,
       handleFileUpload visibleServers lag fetchChunk schedule
         newFileId t0 (Some f) c = Some (mkRun [alert] c [] []))
   /\ FileUpload.handleFileSelect (Some f) st
      = (st, [FileUpload.FileTooLarge (file_size f)], true))
  /\ MAX_FILE_SIZE = 10 * 1024 * 1024
  /\ FileUpload.MAX_FILE_SIZE = 10 * 1024 * 1024
  /\ (forall run,
        handleFileUpload visibleServers lag fetchChunk schedule
          newFileId t0 (Some f) c = Some run ->
        run_alerts run = [] ->
        file_size f <= MAX_FILE_SIZE /\ uploadServers c <> [])
  /\ (snd (fst (FileUpload.handleFileSelect (Some f) st)) = [] ->
      file_size f <= FileUpload.MAX_FILE_SIZE
      /\ FileUpload.selectedFile
           (fst (fst (FileUpload.handleFileSelect (Some f) st))) = Some f)
  /\ (0 <= file_size f <= MAX_FILE_SIZE ->
      uploadServers c <> [] ->
      exists run p,
        handleFileUpload visibleServers lag fetchChunk schedule
          newFileId t0 (Some f) c = Some run
        /\ fileUpload (run_component run) = Some p
        /\ totalSize p = file_size f
        /\ totalChunks p <= 3
        /\ (List.length (run_batches run) <= 1)%nat
        /\ Z.of_nat (List.length (List.concat (map batch_tasks (run_batches run))))
           = totalChunks p
        /\ totalChunks p <= MAX_CONCURRENT_UPLOADS).
Proof.
  split.
  { intros Hbig. split.
    - unfold handleFileUpload.
      destruct (List.length (uploadServers c) =? 0)%nat; [eauto|].
      destruct (Z.gtb_spec (file_size f) MAX_FILE_SIZE); [eauto|lia].
    - unfold FileUpload.handleFileSelect.
      change FileUpload.MAX_FILE_SIZE with MAX_FILE_SIZE.
      destruct (Z.gtb_spec (file_size f) MAX_FILE_SIZE); [reflexivity|lia]. }
  split; [reflexivity|]. split; [reflexivity|].
  split.
  { intros run Hrun Halerts. unfold handleFileUpload in Hrun.
    destruct (uploadServers c) as [|s0 rest] eqn:Es.
    - cbn in Hrun. injection Hrun as <-. discriminate.
    - cbn [List.length Nat.eqb] in Hrun.
      destruct (Z.gtb_spec (file_size f) MAX_FILE_SIZE).
      + injection Hrun as <-. discriminate.
      + split; [lia|discriminate]. }
  split.
  { unfold FileUpload.handleFileSelect.
    destruct (Z.gtb_spec (file_size f) FileUpload.MAX_FILE_SIZE);
      cbn [fst snd FileUpload.selectedFile]; [discriminate|].
    intros _. split; [lia|reflexivity]. }
  intros Hsize Hservers.
  destruct (session_summary newFileId t0 f c Hsize Hservers)
    as (run & p & Hrun & _ & _ & Hp & _ & Hn & _ & _ & _ & _ & _ & _ & _ & _
        & Hbytes & Hplan).
  pose proof (computeTotalChunks_bounds f) as [_ Hlo].
  assert (Hn3 : totalChunks p <= 3)
    by (rewrite Hn; unfold CHUNK_SIZE, MAX_FILE_SIZE in *; lia).
  exists run, p. split; [exact Hrun|]. split; [exact Hp|].
  split; [exact Hbytes|]. split; [exact Hn3|].
  split.
  { unfold planBatches in Hplan. eapply batchLoop_single; [|exact Hplan].
    rewrite <- Hn. unfold MAX_CONCURRENT_UPLOADS. lia. }
  split.
  { destruct (batchLoop_tasks f (computeTotalChunks f)
                (Z.to_nat (computeTotalChunks f)) 0)
      as (batches & Hplan' & Htasks); [lia|lia|].
    unfold planBatches in Hplan. rewrite Hplan' in Hplan.
    injection Hplan as <-. rewrite Htasks, length_map, for_range_length, Hn.
    pose proof (computeTotalChunks_nonneg f (proj1 Hsize)). lia. }
  unfold MAX_CONCURRENT_UPLOADS. lia.
Qed.

End SessionRun.

(** ** Sample sessions *)

Section Samples.

Import Uploader.

Lemma noLag_nonneg : forall t, 0 <= noLag t.
Proof. intros t. unfold noLag. lia. Qed.

Lemma sequential_interleaves :
  forall ls : list (list Effect), Interleaving ls (sequential ls).
Proof. intros ls. apply concat_Interleaving. Qed.

Lemma demoFile_accepted : 0 <= file_size demoFile <= MAX_FILE_SIZE.
Proof. vm_compute. split; discriminate. Qed.

(** A 10 MiB file on three servers: the session has three descriptors
    and dispatches three tasks, of 4, 4 and 2 MiB. *)
Lemma chunk_plan_partitions_file_witness :
  (forall t, 0 <= noLag t)
  /\ (forall ls : list (list Effect), Interleaving ls (sequential ls))
  /\ 0 <= file_size demoFile <= MAX_FILE_SIZE
  /\ uploadServers demoComponent <> []
  /\ exists run p,
       handleFileUpload steadyServers noLag alwaysStored sequential
         "upload-1" 0 (Some demoFile) demoComponent = Some run
       /\ fileUpload (run_component run) = Some p
       /\ totalChunks p = 3
       /\ map chunkIndex (chunks p) = [0; 1; 2]
       /\ map (fun t => (task_index t, task_start t, task_end t))
              (List.concat (map batch_tasks (run_batches run)))
          = [(0, 0, 4 * MiB); (1, 4 * MiB, 8 * MiB); (2, 8 * MiB, 10 * MiB)]
       /\ map (fun t => blob_size (task_blob t))
              (List.concat (map batch_tasks (run_batches run)))
          = [4 * MiB; 4 * MiB; 2 * MiB].
Proof.
  split; [exact noLag_nonneg|]. split; [exact sequential_interleaves|].
  split; [exact demoFile_accepted|]. split; [discriminate|].
  destruct (chunk_plan_partitions_file steadyServers noLag alwaysStored
              sequential noLag_nonneg sequential_interleaves
              "upload-1" 0 demoFile demoComponent demoFile_accepted
              ltac:(discriminate))
    as (run & p & Hrun & Hp & _ & _ & _ & _ & _ & _ & _ & _ & Hplan).
  cbv zeta in Hplan. destruct Hplan as (_ & _ & _ & _ & Hsizes & _).
  exists run, p. split; [exact Hrun|]. split; [exact Hp|].
  specialize (Hsizes eq_refl).
  vm_compute in Hrun. injection Hrun as <-.
  cbn in Hp. injection Hp as <-.
  split; [reflexivity|]. split; [reflexivity|]. split; [reflexivity|].
  exact Hsizes.
Defined.

(** A 10 MiB file, three servers, every request stored at once: the
    session completes with progress 100. *)
Lemma session_status_and_progress_witness :
  (forall t, 0 <= noLag t)
  /\ (forall ls : list (list Effect), Interleaving ls (sequential ls))
  /\ 0 <= file_size demoFile <= MAX_FILE_SIZE
  /\ uploadServers demoComponent <> []
  /\ exists run p,
       handleFileUpload steadyServers noLag alwaysStored sequential
         "upload-1" 0 (Some demoFile) demoComponent = Some run
       /\ fileUpload (run_component run) = Some p
       /\ map status (chunks p) = [completed; completed; completed]
       /\ sessionStatus p = s_completed
       /\ (overallProgress p == 100)%Q.
Proof.
  split; [exact noLag_nonneg|]. split; [exact sequential_interleaves|].
  split; [exact demoFile_accepted|]. split; [discriminate|].
  destruct (session_status_and_progress steadyServers noLag alwaysStored
              sequential noLag_nonneg sequential_interleaves
              "upload-1" 0 demoFile demoComponent demoFile_accepted
              ltac:(discriminate))
    as (run & p & Hrun & _ & _ & Hp & _ & _ & _ & _ & _ & _ & _ & H100 & _).
  exists run, p. split; [exact Hrun|]. split; [exact Hp|].
  vm_compute in Hrun. injection Hrun as <-.
  cbn in Hp. injection Hp as <-.
  split; [reflexivity|]. split; [reflexivity|].
  apply H100; reflexivity.
Defined.

(** C7, as stated, fails in its consequence.  An empty file is accepted;
    its session has no chunk, so every chunk is completed and the session is
    ['completed'], and no update ever computes the progress: it reports the
    initial 0, not 100. *)
Lemma completed_session_reports_100_counterexample :
  0 <= file_size emptyFile <= MAX_FILE_SIZE
  /\ uploadServers demoComponent <> []
  /\ exists run p,
       handleFileUpload steadyServers noLag alwaysStored sequential
         "upload-3" 0 (Some emptyFile) demoComponent = Some run
       /\ fileUpload (run_component run) = Some p
       /\ sessionStatus p = s_completed
       /\ Forall (fun ch => status ch = completed) (chunks p)
       /\ (overallProgress p == 0)%Q
       /\ ~ (overallProgress p == 100)%Q.
Proof.
  split; [vm_compute; split; discriminate|]. split; [discriminate|].
  eexists. eexists. split; [reflexivity|]. split; [reflexivity|].
  split; [reflexivity|]. split; [constructor|]. split; [reflexivity|].
  discriminate.
Qed.


(** The only server is switched off: every chunk waits thirty seconds and
    fails, and so does the session. *)
Lemma no_capable_server_is_fatal_witness :
  (forall t, 0 <= noLag t)
  /\ (forall ls : list (list Effect), Interleaving ls (sequential ls))
  /\ exists run p,
       handleFileUpload offlineServers noLag alwaysStored sequential
         "upload-1" 0 (Some demoFile) offlineComponent = Some run
       /\ fileUpload (run_component run) = Some p
       /\ map (fun ch => (status ch, attempts ch, error ch)) (chunks p)
          = [(failed, 1, Some "No capable server available"%string);
             (failed, 1, Some "No capable server available"%string);
             (failed, 1, Some "No capable server available"%string)]
       /\ endTime p = Some 30000
       /\ sessionStatus p = s_failed.
Proof.
  split; [exact noLag_nonneg|]. split; [exact sequential_interleaves|].
  destruct (no_capable_server_is_fatal offlineServers noLag alwaysStored
              sequential noLag_nonneg sequential_interleaves)
    as [_ Hsession].
  destruct (Hsession "upload-1"%string 0 demoFile offlineComponent 1
              demoFile_accepted ltac:(discriminate)
              ltac:(vm_compute; tauto) ltac:(reflexivity))
    as (run & p & ch & Hrun & Hp & _ & _ & _ & _ & _ & Hfailed).
  exists run, p. split; [exact Hrun|]. split; [exact Hp|].
  vm_compute in Hrun. injection Hrun as <-.
  cbn in Hp. injection Hp as <-.
  split; [reflexivity|]. split; [reflexivity|]. exact Hfailed.
Defined.

(** The chunk count at the boundaries. *)
Example computeTotalChunks_boundaries :
  map (fun size => computeTotalChunks (mkFile "f" size "t"))
      [0; 1; 4 * MiB; 4 * MiB + 1; 8 * MiB; 10 * MiB]
  = [0; 1; 1; 2; 2; 3].
Proof. reflexivity. Qed.

(** Two servers whose exact scores would be equal (loads of 5 of 6 and
    of 1 of 3, the second with the higher success rate): the scores the
    code computes differ in the last place, and [srv-b] is selected
    whichever comes first. *)
Example rounded_scores_decide :
  (serverScore noRequirements nearTieA <? serverScore noRequirements nearTieB)%float
  = true
  /\ findOptimalServer [nearTieA; nearTieB] 1 noRequirements = Some nearTieB
  /\ findOptimalServer [nearTieB; nearTieA] 1 noRequirements = Some nearTieB.
Proof. repeat split; reflexivity. Qed.

(** The sort keeps elements of equal score in their order. *)
Example Array_sort_is_stable :
  map (fun x => id (fst x))
      (Array_sort byScoreDesc
         [(sampleServer "a" 0 0, 1%float); (sampleServer "b" 0 0, 2%float);
          (sampleServer "c" 0 0, 1%float); (sampleServer "d" 0 0, 2%float)])
  = ["b"; "d"; "a"; "c"]%string.
Proof. reflexivity. Qed.

(** An empty file has no chunk: the session completes at once and its
    progress stays at the initial 0. *)
Example empty_file_session :
  option_map
    (fun run =>
       option_map (fun p => (sessionStatus p, chunks p, overallProgress p))
                  (fileUpload (run_component run)))
    (handleFileUpload steadyServers noLag alwaysStored sequential
       "upload-3" 0 (Some emptyFile) demoComponent)
  = Some (Some (s_completed, [], 0%Q)).
Proof. reflexivity. Qed.

(** One server that refuses the chunk: after the first failure the server
    is excluded, the second attempt finds none, waits thirty seconds and
    gives up; the chunk has two attempts and the session fails. *)
Example lone_server_refuses :
  option_map
    (fun run =>
       option_map
         (fun p => (sessionStatus p,
                    map (fun ch => (status ch, attempts ch, error ch))
                        (chunks p),
                    endTime p))
         (fileUpload (run_component run)))
    (handleFileUpload loneServer noLag alwaysRefused sequential
       "upload-4" 0 (Some smallFile)
       (mkComponent loneRegistry None false))
  = Some (Some (s_failed,
                [(failed, 2, Some "No capable server available"%string)],
                Some 31000)).
Proof. vm_compute. reflexivity. Qed.

(** Every server refuses the chunk: three posts, two backoffs of one and
    two seconds, then the permanent failure. *)
Example three_refusals :
  option_map
    (fun run =>
       (posts (run_effects run),
        filter (fun e => match e with Sleep _ => true | _ => false end)
               (run_effects run),
        option_map
          (fun p => (sessionStatus p,
                     map (fun ch => (status ch, attempts ch, error ch))
                         (chunks p)))
          (fileUpload (run_component run))))
    (handleFileUpload steadyServers noLag alwaysRefused sequential
       "upload-5" 0 (Some smallFile) demoComponent)
  = Some (demoRegistry, [Sleep 1000; Sleep 2000],
          Some (s_failed,
                [(failed, 3, Some "Failed after 3 attempts"%string)])).
Proof. vm_compute. reflexivity. Qed.

(** An 11 MiB file is turned away where a session was shown before. *)
Lemma oversized_file_is_rejected_witness :
  (forall t, 0 <= noLag t)
  /\ (forall ls : list (list Effect), Interleaving ls (sequential ls))
  /\ MAX_FILE_SIZE < file_size bigFile
  /\ handleFileUpload steadyServers noLag alwaysStored sequential
       "upload-2" 0 (Some bigFile) demoComponent
     = Some (mkRun [ExceedsMaximum (11 * MiB)] demoComponent [] [])
  /\ FileUpload.handleFileSelect (Some bigFile) (resumeForm demoFile)
     = (resumeForm demoFile, [FileUpload.FileTooLarge (11 * MiB)], true).
Proof.
  split; [exact noLag_nonneg|]. split; [exact sequential_interleaves|].
  split; [reflexivity|].
  destruct (oversized_file_is_rejected steadyServers noLag alwaysStored
              sequential noLag_nonneg sequential_interleaves
              "upload-2" 0 bigFile demoComponent (resumeForm demoFile))
    as [Hbig _].
  destruct (Hbig eq_refl) as [(alert & Hrun) Hsel].
  split; [reflexivity|exact Hsel].
Defined.

End Samples.

(** ** Resuming through the upload form *)

Section Resume.

Import FileUpload Ledger.

Variable forumId : string.

(** The probe for a partial upload carries the checksum and the forum
    and an empty file: it does not depend on the selected file, and neither
    does what the endpoint answers. *)
Lemma probe_ignores_selected_file endpoint checksum st1 st2 :
  snd (fst (checkPartialUploadMutation forumId endpoint checksum st1))
  = snd (fst (checkPartialUploadMutation forumId endpoint checksum st2))
  /\ fileBytes (checkRequest forumId checksum) = 0.
Proof.
  unfold checkPartialUploadMutation. split; [|reflexivity].
  destruct (endpoint (checkRequest forumId checksum)) as [r|]; [|reflexivity].
  now destruct (_ && _).
Qed.

(** The request [handleResumeUpload] sends: the whole selected file, the
    forum, the checksum and, if it is not empty, the id of the partial
    upload. *)
Lemma handleResumeUpload_request st st' req :
  handleResumeUpload forumId st = (st', Some req) ->
  exists f checksum p,
    selectedFile st = Some f
    /\ fileChecksum st = Some checksum
    /\ partialUpload st = Some p
    /\ req = uploadMutation forumId f checksum (Some (pu_id p))
    /\ filePart req = Some (file_name f, file_size f)
    /\ textPart "checksum" req = Some checksum
    /\ (textPart "resumeUploadId" req = None
        \/ textPart "resumeUploadId" req = Some (pu_id p))
    /\ fileBytes req = file_size f.
Proof.
  unfold handleResumeUpload. intros H.
  destruct (selectedFile st) as [f|]; [|discriminate].
  destruct (fileChecksum st) as [checksum|]; [|discriminate].
  destruct (partialUpload st) as [p|]; [|discriminate].
  destruct (truthy_str (Some checksum)); [|discriminate].
  injection H as _ <-.
  exists f, checksum, p. repeat (split; [reflexivity|]).
  unfold uploadMutation, truthy_str.
  destruct (negb (String.eqb (pu_id p) EmptyString)); cbn;
    repeat split; auto; lia.
Qed.

Lemma remaining_spec e i :
  In i (remaining e)
  <-> 0 <= i < entry_totalChunks e /\ ~ In i (entry_uploadedChunks e).
Proof.
  unfold remaining. rewrite filter_In, In_for_range, negb_true_iff.
  split; intros [Hr Hc]; (split; [lia|]).
  - intros Hin. assert (existsb (Z.eqb i) (entry_uploadedChunks e) = true);
      [|congruence].
    apply existsb_exists. exists i. split; [exact Hin|apply Z.eqb_refl].
  - destruct (existsb (Z.eqb i) (entry_uploadedChunks e)) eqn:E; [|reflexivity].
    apply existsb_exists in E. destruct E as (j & Hj & Ej).
    apply Z.eqb_eq in Ej. subst j. contradiction.
Qed.

(** C8.  When the request sent by [handleResumeUpload] is resumed by the
    server against a ledger entry, the entry has the checksum of the form,
    and the chunks dispatched are exactly the chunks of the entry that are
    not in its completed set, each once: no completed chunk is sent again.
    Such a resume does take place when the form holds a file, its checksum
    and a partial upload with an id, and the ledger has an entry with that
    checksum and the size of the file. *)
Theorem resume_skips_completed_chunks
    (ledger : list Entry) (st : Form) (f : File) (checksum : string)
    (p : PartialUpload) (e : Entry) :
  selectedFile st = Some f ->
  fileChecksum st = Some checksum ->
  checksum <> EmptyString ->
  partialUpload st = Some p ->
  pu_id p <> EmptyString ->
  findByChecksum ledger checksum = Some e ->
  entry_fileSize e = file_size f ->
  exists st' req,
    handleResumeUpload forumId st = (st', Some req)
    /\ textPart "resumeUploadId" req = Some (pu_id p)
    /\ exists dispatch,
         handleUploadRequest ledger req = Resume e dispatch
         /\ entry_checksum e = checksum
         /\ (forall i, In i dispatch -> ~ In i (entry_uploadedChunks e))
         /\ (forall i, In i dispatch
                       <-> 0 <= i < entry_totalChunks e
                           /\ ~ In i (entry_uploadedChunks e))
         /\ NoDup dispatch.
Proof.
  intros Hf Hc Hcne Hp Hpne He Hsize.
  assert (Eid : String.eqb (pu_id p) EmptyString = false)
    by (now apply String.eqb_neq).
  assert (Ecs : String.eqb checksum EmptyString = false)
    by (now apply String.eqb_neq).
  unfold handleResumeUpload. rewrite Hf, Hc, Hp.
  cbn [truthy_str]. rewrite Ecs. cbn [negb].
  eexists _, _. split; [reflexivity|].
  unfold uploadMutation. cbn [truthy_str]. rewrite Eid. cbn [negb app].
  split; [reflexivity|].
  exists (remaining e). split.
  { unfold handleUploadRequest. cbn. rewrite He, Hsize, Z.eqb_refl.
    reflexivity. }
  split.
  { unfold findByChecksum in He. apply find_some in He.
    now apply String.eqb_eq. }
  split; [intros i Hi; now apply remaining_spec in Hi|].
  split; [apply remaining_spec|].
  unfold remaining. apply NoDup_filter, NoDup_for_range.
Qed.

(** C9.  The server handles the request sent by [handleResumeUpload] as
    follows: when it resumes against an entry, both the checksum and the
    size of the selected file equal the entry's; when the request names a
    partial upload and the entry found for its checksum has another total
    size, the request is rejected. *)
Theorem resume_requires_checksum_and_size
    (ledger : list Entry) (st st' : Form) (req : FormData) :
  handleResumeUpload forumId st = (st', Some req) ->
  (forall e dispatch,
      handleUploadRequest ledger req = Resume e dispatch ->
      fileChecksum st = Some (entry_checksum e)
      /\ option_map file_size (selectedFile st) = Some (entry_fileSize e))
  /\ (forall f checksum e,
        selectedFile st = Some f ->
        fileChecksum st = Some checksum ->
        textPart "resumeUploadId" req <> None ->
        findByChecksum ledger checksum = Some e ->
        entry_fileSize e <> file_size f ->
        handleUploadRequest ledger req = Reject).
Proof.
  intros H.
  destruct (handleResumeUpload_request st st' req H)
    as (f & checksum & p & Hf & Hc & Hp & _ & Hfile & Hsum & Hrid & _).
  unfold handleUploadRequest. rewrite Hfile, Hsum. split.
  - intros e dispatch Hres.
    destruct (textPart "resumeUploadId" req); [|discriminate].
    destruct (findByChecksum ledger checksum) as [e'|] eqn:He; [|discriminate].
    destruct (Z.eqb_spec (entry_fileSize e') (file_size f)) as [Es|];
      [|discriminate].
    injection Hres as <- _.
    unfold findByChecksum in He. apply find_some in He.
    destruct He as [_ He]. apply String.eqb_eq in He.
    rewrite Hc, Hf, He. cbn. now rewrite Es.
  - intros f' checksum' e Hf' Hc' Hresume He Hsize.
    rewrite Hf in Hf'. injection Hf' as <-.
    rewrite Hc in Hc'. injection Hc' as <-.
    destruct (textPart "resumeUploadId" req); [|contradiction].
    rewrite He.
    destruct (Z.eqb_spec (entry_fileSize e) (file_size f)); [contradiction|].
    reflexivity.
Qed.

End Resume.

(** Chunks 0 and 2 are recorded complete: chunk 1 alone is dispatched. *)
Lemma resume_skips_completed_chunks_witness :
  FileUpload.selectedFile (resumeForm demoFile) = Some demoFile
  /\ FileUpload.fileChecksum (resumeForm demoFile) = Some "9f2c"%string
  /\ "9f2c"%string <> EmptyString
  /\ FileUpload.partialUpload (resumeForm demoFile) = Some demoPartial
  /\ FileUpload.pu_id demoPartial <> EmptyString
  /\ Ledger.findByChecksum [demoEntry] "9f2c" = Some demoEntry
  /\ Ledger.entry_fileSize demoEntry = file_size demoFile
  /\ exists st' req,
       FileUpload.handleResumeUpload "forum-1" (resumeForm demoFile) = (st', Some req)
       /\ Ledger.handleUploadRequest [demoEntry] req = Ledger.Resume demoEntry [1].
Proof.
  repeat (split; [reflexivity || discriminate|]).
  destruct (resume_skips_completed_chunks "forum-1" [demoEntry] (resumeForm demoFile)
              demoFile "9f2c" demoPartial demoEntry
              eq_refl eq_refl ltac:(discriminate) eq_refl
              ltac:(discriminate) eq_refl eq_refl)
    as (st' & req & Hreq & _ & dispatch & Hdis & _).
  exists st', req. split; [exact Hreq|].
  cbn in Hreq. injection Hreq as _ <-. reflexivity.
Defined.

(** The entry is for 10 MiB, the selected file has 5 MiB: rejected. *)
Lemma resume_requires_checksum_and_size_witness :
  exists st' req,
    FileUpload.handleResumeUpload "forum-1" (resumeForm shortFile) = (st', Some req)
    /\ Ledger.findByChecksum [demoEntry] "9f2c" = Some demoEntry
    /\ Ledger.entry_fileSize demoEntry <> file_size shortFile
    /\ Ledger.handleUploadRequest [demoEntry] req = Ledger.Reject.
Proof.
  eexists _, _. split; [reflexivity|]. split; [reflexivity|].
  split; [discriminate|].
  eapply (resume_requires_checksum_and_size "forum-1" [demoEntry] (resumeForm shortFile)).
  - reflexivity.
  - reflexivity.
  - reflexivity.
  - discriminate.
  - reflexivity.
  - discriminate.
Defined.

(** ** More on the per-chunk task *)

Section Dispatch.

Import Uploader.

Variable visibleServers : Z -> list UploadServer.
Variable lag : Z -> Z.
Variable fetchChunk : Z -> Z -> UploadServer -> FetchOutcome.

Hypothesis lag_nonneg : forall t, 0 <= lag t.

Lemma or_else_nonempty x d : d <> EmptyString -> or_else x d <> EmptyString.
Proof.
  intros Hd. destruct x as [s|]; cbn; [|exact Hd].
  destruct (String.eqb_spec s EmptyString); auto.
Qed.

(** X1.  [uploadChunkToServer] always returns a result object: whatever
    [fetch] does, exactly one request is posted and nothing is thrown.  The
    result is a success only when the body was parsed and its [success]
    field is true; it then carries the [dropboxDetails] of the body and no
    error.  Every failure carries no details and an error message that is
    not empty. *)
Theorem uploadChunkToServer_always_reports
    (idx : Z) (server : UploadServer) (s : TaskState) :
  exists result,
    uploadChunkToServer lag fetchChunk idx server s
    = Some (result, mkTS (clock s + 0 + lag (clock s))
                         (trace s ++ [PostChunk idx server]))
    /\ (r_success result = true ->
        r_error result = None
        /\ exists err,
             fetchChunk (clock s) idx server
             = JsonBody true (r_dropboxDetails result) err)
    /\ (r_success result = false ->
        r_dropboxDetails result = None
        /\ (forall details err,
              fetchChunk (clock s) idx server <> JsonBody true details err)
        /\ exists message,
             r_error result = Some message /\ message <> EmptyString).
Proof.
  exists (uploadOutcome (fetchChunk (clock s) idx server)).
  split; [reflexivity|].
  destruct (fetchChunk (clock s) idx server) as [m|line|[|] d e]; cbn [uploadOutcome r_success r_error r_dropboxDetails].
  - split; [discriminate|]. intros _. split; [reflexivity|]. split; [discriminate|].
    eexists. split; [reflexivity|]. now apply or_else_nonempty.
  - split; [discriminate|]. intros _. split; [reflexivity|]. split; [discriminate|].
    eexists. split; [reflexivity|]. now apply or_else_nonempty.
  - split; [|discriminate]. intros _. split; [reflexivity|]. now exists e.
  - split; [discriminate|]. intros _. split; [reflexivity|]. split; [discriminate|].
    eexists. split; [reflexivity|]. now apply or_else_nonempty.
Qed.

Local Abbreviation find_at t := (findOptimalServer (visibleServers t)).

(** X2.  [waitForCapableServer] with a timeout of at most 32 seconds (its
    caller passes 30) always returns.  Each turn that finds no server
    refreshes the registry and waits two seconds; there are at most
    [ceil (timeout / 2000)] such turns.  A server is returned only before
    the timeout has elapsed, and it is the one [findOptimalServer] selects
    at that moment; [null] is returned only once the timeout has elapsed.
    With a timeout of zero or less the answer is [null] at once, without a
    refresh; a server found at the first look is returned at once; when
    nothing can be selected during the whole window the answer is
    [null]. *)
Theorem waitForCapableServer_outcome
    (chunkSize : float) (requirements : Requirements) (timeout : Z)
    (s : TaskState) :
  timeout <= 32000 ->
  exists r s' k,
    waitForCapableServer visibleServers lag chunkSize requirements timeout s
    = Some (r, s')
    /\ trace s' = trace s ++ rounds k
    /\ Z.of_nat k <= Z.max 0 ((timeout + 1999) / 2000)
    /\ clock s + 2000 * Z.of_nat k <= clock s'
    /\ match r with
       | Some srv =>
           clock s' - clock s < timeout
           /\ find_at (clock s') chunkSize requirements = Some srv
       | None => timeout <= clock s' - clock s
       end
    /\ (timeout <= 0 -> r = None /\ s' = s)
    /\ (0 < timeout -> forall srv,
          find_at (clock s) chunkSize requirements = Some srv ->
          r = Some srv /\ s' = s)
    /\ ((forall t, clock s <= t < clock s + timeout ->
                   find_at t chunkSize requirements = None) ->
        r = None).
Proof.
  intros Hto.
  assert (E : waitForCapableServer visibleServers lag chunkSize requirements
                timeout s
              = waitLoop visibleServers lag waitFuel chunkSize requirements
                  timeout (clock s) s) by reflexivity.
  destruct (waitLoop_runs visibleServers lag lag_nonneg waitFuel chunkSize
              requirements timeout (clock s) s)
    as (r & s' & k & Hrun & Htr & Hk & Hclk & Hr & _ & Hnone);
    [lia|unfold waitFuel; lia|].
  exists r, s', k. rewrite E.
  split; [exact Hrun|]. split; [exact Htr|].
  split.
  { destruct Hk as [->|Hk]; [cbn; apply Z.le_max_l|].
    destruct k as [|k]; [cbn; apply Z.le_max_l|].
    assert (Z.of_nat (S k) <= (timeout + 1999) / 2000); [|lia].
    apply Z.div_le_lower_bound; lia. }
  split; [exact Hclk|]. split; [exact Hr|].
  split.
  { intros Hle. rewrite waitLoop_unfold in Hrun.
    replace (clock s - clock s <? timeout) with false in Hrun
      by (symmetry; apply Z.ltb_ge; lia).
    now inversion Hrun. }
  split.
  { intros Hpos srv Hfound. rewrite waitLoop_unfold in Hrun.
    replace (clock s - clock s <? timeout) with true in Hrun
      by (symmetry; apply Z.ltb_lt; lia).
    unfold waitFuel in Hrun. rewrite Hfound in Hrun. now inversion Hrun. }
  exact Hnone.
Qed.

End Dispatch.

Section FirstTry.

Import Uploader.

Variable visibleServers : Z -> list UploadServer.
Variable lag : Z -> Z.
Variable fetchChunk : Z -> Z -> UploadServer -> FetchOutcome.

(** X3.  When the first selection of [processChunk] finds a server and
    that server stores the chunk, the task takes exactly four steps: the
    chunk is marked waiting with one attempt, then uploading on that server,
    the request is posted, and the chunk is marked completed.  No timer is
    set and the registry is not refreshed; the descriptor ends completed at
    100 with one attempt, no error, the server's id and address, the time
    the request returned and the details of the response. *)
Theorem chunk_stored_at_the_first_try
    (chunkData : Blob) (idx t : Z) (srv : UploadServer)
    (details : option DropboxDetails) (err : option string) :
  selectAt visibleServers chunkData [] t = Some srv ->
  fetchChunk t idx srv = JsonBody true details err ->
  processChunk visibleServers lag fetchChunk chunkData idx (mkTS t [])
  = Some (tt, mkTS (t + 0 + lag t)
                   [SetChunk idx (upWaiting 1);
                    SetChunk idx (upUploading srv);
                    PostChunk idx srv;
                    SetChunk idx (upCompleted (t + 0 + lag t) details)])
  /\ chunkAfter idx
       [SetChunk idx (upWaiting 1);
        SetChunk idx (upUploading srv);
        PostChunk idx srv;
        SetChunk idx (upCompleted (t + 0 + lag t) details)]
       (pendingChunk idx)
     = mkChunk idx completed (Some (id srv)) (Some (url srv)) 100 None 1
               (Some (t + 0 + lag t)) details.
Proof.
  intros Hsel Hfetch. split; [|unfold chunkAfter; cbn; now rewrite Z.eqb_refl].
  unfold processChunk. change (Z.to_nat MAX_RETRIES) with 3%nat.
  rewrite retryLoop_unfold. change (0 <? MAX_RETRIES) with true. cbv iota.
  cbv beta iota delta [acquireServer bind findServerNow now ret clock trace].
  unfold selectAt in Hsel. rewrite Hsel. cbv beta iota zeta delta [clock trace].
  rewrite Hfetch. cbn [uploadOutcome r_success r_dropboxDetails app].
  reflexivity.
Qed.

End FirstTry.

Section TaskDetails.

Import Uploader.

Variable visibleServers : Z -> list UploadServer.
Variable lag : Z -> Z.
Variable fetchChunk : Z -> Z -> UploadServer -> FetchOutcome.

Hypothesis lag_nonneg : forall t, 0 <= lag t.

Local Abbreviation Acquired := (Acquired visibleServers).
Local Abbreviation Retried := (Retried visibleServers lag fetchChunk).

Lemma Acquired_selected chunkData idx excluded t tr srv t1 :
  Acquired chunkData idx excluded t tr (Some srv) t1 ->
  t <= t1 /\ selectAt visibleServers chunkData excluded t1 = Some srv.
Proof.
  inversion 1; subst; split; auto; lia.
Qed.

Lemma selectAt_fit chunkData excluded t srv :
  0 < blob_size chunkData < 2 ^ 63 ->
  selectAt visibleServers chunkData excluded t = Some srv ->
  In srv (visibleServers t) /\ fitFor (blob_size chunkData) srv.
Proof.
  unfold selectAt. intros Hpos H. apply findOptimalServer_position in H.
  destruct H as (pre & post & Hf).
  assert (Hin : In srv (filter (capable (Number_ofZ (blob_size chunkData))
                          (chunkRequirements (blob_size chunkData) excluded))
                          (visibleServers t))).
  { rewrite Hf. apply in_or_app. right. now left. }
  apply filter_In in Hin. destruct Hin as [Hin Hcap]. split; [exact Hin|].
  unfold capable in Hcap.
  cbn [minFreeSpace chunkRequirements] in Hcap.
  rewrite (doubled_size_truthy _ Hpos) in Hcap. cbn [andb] in Hcap.
  destruct (isActive srv) eqn:Ea; cbn [negb] in Hcap; [|discriminate].
  destruct (maxLoad srv <=? currentLoad srv)%float eqn:El; [discriminate|].
  destruct (maxChunkSize (capabilities srv)
            <? Number_ofZ (blob_size chunkData))%float eqn:Ec;
    [discriminate|].
  destruct (freeSpace (capabilities srv)
            <? Number_ofZ (blob_size chunkData) * 2)%float eqn:Ef;
    [discriminate|].
  unfold fitFor. auto.
Qed.

Lemma Retried_posts_fit chunkData idx a excluded t tr t' :
  Retried chunkData idx a excluded t tr t' ->
  0 <= a ->
  0 < blob_size chunkData < 2 ^ 63 ->
  Forall (fun srv =>
            exists t1, t <= t1 <= t'
                       /\ In srv (visibleServers t1)
                       /\ fitFor (blob_size chunkData) srv)
         (posts tr).
Proof.
  induction 1 as [a excluded t Hge
                 |a excluded t tr t' Hlt Hacq
                 |a excluded t tr srv t1 res Hlt Hacq Hres Hok
                 |a excluded t tr srv t1 res t2 rest t' Hlt Hacq Hres Hko Ht2
                    Hrest IH]; intros Ha Hpos.
  - constructor.
  - destruct (Acquired_facts _ _ _ _ _ _ _ _ Hacq) as (Hposts & _).
    cbn [posts]. rewrite posts_app, Hposts. constructor.
  - destruct (Acquired_facts _ _ _ _ _ _ _ _ Hacq) as (Hposts & _).
    destruct (Acquired_selected _ _ _ _ _ _ _ Hacq) as (Hclk & Hsel).
    destruct (selectAt_fit _ _ _ _ Hpos Hsel) as (Hin & Hfit).
    pose proof (lag_nonneg t1) as L.
    cbn [posts]. rewrite posts_app, Hposts. cbn [app posts].
    constructor; [|constructor]. exists t1. split; [lia|]. now split.
  - destruct (Acquired_facts _ _ _ _ _ _ _ _ Hacq) as (Hposts & _).
    destruct (Acquired_selected _ _ _ _ _ _ _ Hacq) as (Hclk & Hsel).
    destruct (selectAt_fit _ _ _ _ Hpos Hsel) as (Hin & Hfit).
    pose proof (lag_nonneg t1) as L1.
    pose proof (lag_nonneg (t1 + 0 + lag t1)) as L2.
    destruct (Retried_facts visibleServers lag fetchChunk lag_nonneg
                _ _ _ _ _ _ _ Hrest ltac:(lia)) as (_ & Hclk' & _).
    assert (Ht12 : t1 <= t2) by (subst t2; destruct (a + 1 <? MAX_RETRIES); lia).
    cbn [posts]. rewrite posts_app, Hposts. cbn [app posts].
    rewrite posts_app, backoff_posts. cbn [app].
    constructor.
    + exists t1. split; [lia|]. now split.
    + eapply Forall_impl; [|apply IH; [lia|exact Hpos]].
      intros s (t3 & Ht3 & H3). exists t3. split; [lia|exact H3].
Qed.

(** The statuses a task writes, in order. *)
Lemma inOrder_completed_last from pre post :
  inOrder from (pre ++ completed :: post) = true -> post = [].
Proof.
  revert from. induction pre as [|x pre IH]; intros from H.
  - cbn in H. destruct post as [|y post]; [reflexivity|].
    cbn in H. rewrite andb_false_r in H. discriminate.
  - cbn in H. apply andb_prop in H. destruct H as [_ H]. eauto.
Qed.

Lemma Retried_statuses chunkData idx a excluded t tr t' :
  Retried chunkData idx a excluded t tr t' ->
  exists sts final,
    map u_status (updatesFor idx tr) = map Some (sts ++ [final])
    /\ (final = completed \/ final = failed)
    /\ forall from,
         mayFollow from waiting = true ->
         (MAX_RETRIES <= a -> mayFollow from failed = true) ->
         inOrder from (sts ++ [final]) = true.
Proof.
  induction 1 as [a excluded t Hge
                 |a excluded t tr t' Hlt Hacq
                 |a excluded t tr srv t1 res Hlt Hacq Hres Hok
                 |a excluded t tr srv t1 res t2 rest t' Hlt Hacq Hres Hko Ht2
                    Hrest IH].
  - exists [], failed. cbn. rewrite Z.eqb_refl. split; [reflexivity|].
    split; [now right|]. intros from _ H. now rewrite (H Hge).
  - destruct (Acquired_facts _ _ _ _ _ _ _ _ Hacq) as (_ & _ & [E|E] & _).
    + exists [waiting], failed. cbn [updatesFor]. rewrite Z.eqb_refl.
      rewrite updatesFor_app, E. cbn. rewrite Z.eqb_refl.
      split; [reflexivity|]. split; [now right|].
      intros from H _. now rewrite H.
    + exists [waiting; waiting], failed. cbn [updatesFor]. rewrite Z.eqb_refl.
      rewrite updatesFor_app, E. cbn. rewrite Z.eqb_refl.
      split; [reflexivity|]. split; [now right|].
      intros from H _. now rewrite H.
  - destruct (Acquired_facts _ _ _ _ _ _ _ _ Hacq) as (_ & _ & [E|E] & _).
    + exists [waiting; uploading], completed. cbn [updatesFor]. rewrite Z.eqb_refl.
      rewrite updatesFor_app, E. cbn. rewrite Z.eqb_refl.
      split; [reflexivity|]. split; [now left|].
      intros from H _. now rewrite H.
    + exists [waiting; waiting; uploading], completed.
      cbn [updatesFor]. rewrite Z.eqb_refl.
      rewrite updatesFor_app, E. cbn. rewrite Z.eqb_refl.
      split; [reflexivity|]. split; [now left|].
      intros from H _. now rewrite H.
  - destruct IH as (sts & final & Eu & Hfinal & Hord).
    specialize (Hord failed eq_refl (fun _ => eq_refl)).
    destruct (Acquired_facts _ _ _ _ _ _ _ _ Hacq) as (_ & _ & [E|E] & _).
    + exists (waiting :: uploading :: failed :: sts), final.
      cbn [updatesFor]. rewrite Z.eqb_refl.
      rewrite updatesFor_app, E. cbn [app updatesFor]. rewrite !Z.eqb_refl.
      rewrite updatesFor_app, backoff_updates. cbn [app map].
      rewrite Eu. split; [reflexivity|]. split; [exact Hfinal|].
      intros from H _. cbn [app inOrder]. rewrite H, Hord. reflexivity.
    + exists (waiting :: waiting :: uploading :: failed :: sts), final.
      cbn [updatesFor]. rewrite Z.eqb_refl.
      rewrite updatesFor_app, E. cbn [app updatesFor]. rewrite !Z.eqb_refl.
      rewrite updatesFor_app, backoff_updates. cbn [app map].
      rewrite Eu. split; [reflexivity|]. split; [exact Hfinal|].
      intros from H _. cbn [app inOrder]. rewrite H, Hord. reflexivity.
Qed.

Lemma uploadOutcome_failure o :
  r_success (uploadOutcome o) = false ->
  r_dropboxDetails (uploadOutcome o) = None
  /\ exists m, r_error (uploadOutcome o) = Some m /\ m <> EmptyString.
Proof.
  destruct o as [m|line|[|] d e];
    cbn [uploadOutcome r_success r_error r_dropboxDetails];
    intros H; try discriminate;
    (split; [reflexivity|]); eexists; (split; [reflexivity|]);
    now apply or_else_nonempty.
Qed.

Lemma uploadOutcome_success o :
  r_success (uploadOutcome o) = true ->
  r_error (uploadOutcome o) = None
  /\ exists err, o = JsonBody true (r_dropboxDetails (uploadOutcome o)) err.
Proof.
  destruct o as [m|line|[|] d e]; cbn; intros H; try discriminate.
  split; [reflexivity|]. now exists e.
Qed.

Lemma chunkAfter_acquired_same chunkData idx excluded t tr r t' c :
  Acquired chunkData idx excluded t tr r t' ->
  chunkAfter idx tr c = c \/ chunkAfter idx tr c = mergeChunk c upStillWaiting.
Proof.
  intros H.
  destruct (Acquired_facts _ _ _ _ _ _ _ _ H) as (_ & _ & [E|E] & _);
    unfold chunkAfter; rewrite E; [now left|now right].
Qed.

(** The descriptor a task leaves behind. *)
Lemma Retried_descriptor chunkData idx a excluded t tr t' :
  Retried chunkData idx a excluded t tr t' ->
  0 <= a ->
  forall c,
    (status (chunkAfter idx tr c) = completed ->
     progress (chunkAfter idx tr c) = 100
     /\ uploadedAt (chunkAfter idx tr c) = Some t'
     /\ exists pre srv t1 err,
          posts tr = pre ++ [srv]
          /\ t <= t1 <= t'
          /\ serverId (chunkAfter idx tr c) = Some (id srv)
          /\ serverUrl (chunkAfter idx tr c) = Some (url srv)
          /\ fetchChunk t1 idx srv
             = JsonBody true (dropboxDetails (chunkAfter idx tr c)) err
          /\ (pre = [] -> error (chunkAfter idx tr c) = error c)
          /\ (pre <> [] ->
              exists m, error (chunkAfter idx tr c) = Some m
                        /\ m <> EmptyString))
    /\ (status (chunkAfter idx tr c) = failed ->
        (a < MAX_RETRIES \/ progress c = 0 ->
         progress (chunkAfter idx tr c) = 0)
        /\ uploadedAt (chunkAfter idx tr c) = uploadedAt c
        /\ dropboxDetails (chunkAfter idx tr c) = dropboxDetails c).
Proof.
  induction 1 as [a excluded t Hge
                 |a excluded t tr t' Hlt Hacq
                 |a excluded t tr srv t1 res Hlt Hacq Hres Hok
                 |a excluded t tr srv t1 res t2 rest t' Hlt Hacq Hres Hko Ht2
                    Hrest IH]; intros Ha c.
  - rewrite chunkAfter_cons_own. cbn. split; [discriminate|]. intros _.
    split; [|now split]. intros [H|H]; [lia|exact H].
  - rewrite chunkAfter_cons_own, chunkAfter_app, chunkAfter_cons_own.
    split; [discriminate|]. intros _.
    destruct (chunkAfter_acquired_same _ _ _ _ _ _ _
                (mergeChunk c (upWaiting (a + 1))) Hacq) as [E|E];
      rewrite E; cbn; auto.
  - destruct (Acquired_facts _ _ _ _ _ _ _ _ Hacq) as (Hposts & _).
    destruct (Acquired_selected _ _ _ _ _ _ _ Hacq) as (Hclk & _).
    pose proof (lag_nonneg t1) as L.
    subst res. destruct (uploadOutcome_success _ Hok) as (_ & err & Eo).
    rewrite chunkAfter_cons_own, chunkAfter_app, chunkAfter_cons_own,
      chunkAfter_cons_post, chunkAfter_cons_own.
    split; [|discriminate]. intros _.
    split; [reflexivity|]. split; [reflexivity|].
    exists [], srv, t1, err.
    split; [cbn [posts]; now rewrite posts_app, Hposts|].
    split; [lia|]. split; [reflexivity|]. split; [reflexivity|].
    split; [exact Eo|]. split; [|now intros []]. intros _.
    destruct (chunkAfter_acquired_same _ _ _ _ _ _ _
                (mergeChunk c (upWaiting (a + 1))) Hacq) as [E|E];
      cbn; rewrite E; reflexivity.
  - destruct (Acquired_facts _ _ _ _ _ _ _ _ Hacq) as (Hposts & _).
    destruct (Acquired_selected _ _ _ _ _ _ _ Hacq) as (Hclk & _).
    pose proof (lag_nonneg t1) as L1.
    pose proof (lag_nonneg (t1 + 0 + lag t1)) as L2.
    assert (Ht12 : t1 <= t2) by (subst t2; destruct (a + 1 <? MAX_RETRIES); lia).
    subst res. destruct (uploadOutcome_failure _ Hko) as (_ & m & Em & Hm).
    assert (Ep : posts (SetChunk idx (upWaiting (a + 1)) :: tr
                        ++ [SetChunk idx (upUploading srv); PostChunk idx srv;
                            SetChunk idx
                              (upFailed
                                 (r_error
                                    (uploadOutcome (fetchChunk t1 idx srv))))]
                        ++ backoff (a + 1) ++ rest)
                 = srv :: posts rest).
    { cbn [posts]. rewrite posts_app, Hposts. cbn [app posts].
      now rewrite posts_app, backoff_posts. }
    rewrite Ep.
    rewrite chunkAfter_cons_own, chunkAfter_app. cbn [app].
    rewrite chunkAfter_cons_own, chunkAfter_cons_post, chunkAfter_cons_own,
      chunkAfter_app, chunkAfter_backoff.
    set (c1 := chunkAfter idx tr (mergeChunk c (upWaiting (a + 1)))).
    set (c2 := mergeChunk (mergeChunk c1 (upUploading srv))
                 (upFailed (r_error (uploadOutcome (fetchChunk t1 idx srv))))).
    destruct (IH ltac:(lia) c2) as (IHc & IHf).
    assert (E1 : uploadedAt c1 = uploadedAt c
                 /\ dropboxDetails c1 = dropboxDetails c).
    { subst c1.
      destruct (chunkAfter_acquired_same _ _ _ _ _ _ _
                  (mergeChunk c (upWaiting (a + 1))) Hacq) as [E|E];
        rewrite E; now split. }
    split.
    + intros Hc. destruct (IHc Hc) as (Hp & Hu & pre & s' & t3 & err & Hpre
                                       & Ht3 & Hid & Hurl & Hf & He0 & He1).
      split; [exact Hp|]. split; [exact Hu|].
      exists (srv :: pre), s', t3, err.
      split; [now rewrite Hpre|]. split; [lia|].
      split; [exact Hid|]. split; [exact Hurl|]. split; [exact Hf|].
      split; [discriminate|]. intros _.
      destruct pre as [|x pre].
      * exists m. split; [|exact Hm]. rewrite (He0 eq_refl). subst c2.
        cbn. exact Em.
      * apply He1. discriminate.
    + intros Hfl. destruct (IHf Hfl) as (Hp & Hu & Hd).
      split; [intros _; apply Hp; now right|].
      destruct E1 as [Eu Ed]. split.
      * rewrite Hu. subst c2. cbn. exact Eu.
      * rewrite Hd. subst c2. cbn. exact Ed.
Qed.

End TaskDetails.


(** ** More on the session *)

Section SessionDetails.

Import Uploader.

Variable visibleServers : Z -> list UploadServer.
Variable lag : Z -> Z.
Variable fetchChunk : Z -> Z -> UploadServer -> FetchOutcome.
Variable schedule : list (list Effect) -> list Effect.

Hypothesis lag_nonneg : forall t, 0 <= lag t.
Hypothesis schedule_interleaves : forall ls, Interleaving ls (schedule ls).

Local Abbreviation Retried := (Retried visibleServers lag fetchChunk).
Local Abbreviation ranTask := (ranTask visibleServers lag fetchChunk).

Lemma Forall2_In_r {A B} (R : A -> B -> Prop) l l' y :
  Forall2 R l l' -> In y l' -> exists x, In x l /\ R x y.
Proof.
  induction 1 as [|a b l l' Hab _ IH]; intros Hin; [destruct Hin|].
  destruct Hin as [<-|Hin].
  - exists a. split; [now left|exact Hab].
  - destruct (IH Hin) as (x & Hx & Hr). exists x. split; [now right|exact Hr].
Qed.

Lemma runBatches_origin n batches st st' :
  runBatches visibleServers lag fetchChunk schedule n batches st = Some st' ->
  forall e, In e (s_effects st') ->
    In e (s_effects st) \/ e = Sleep 100
    \/ exists task tr,
         In task (List.concat (map batch_tasks batches))
         /\ ranTask (s_clock st) task tr /\ In e tr.
Proof.
  revert st. induction batches as [|b rest IH]; intros st Hrun e He.
  - cbn in Hrun. injection Hrun as <-. now left.
  - cbn [runBatches] in Hrun.
    destruct (runTasks_spec visibleServers lag fetchChunk lag_nonneg
                (s_clock st) (batch_tasks b))
      as (traces & tEnd & Htasks & Hall & Hclk).
    rewrite Htasks in Hrun.
    destruct (IH _ Hrun e He) as [Hin|[->|(task & tr & Hin & Hran & Hetr)]].
    + cbn [s_effects] in Hin. apply in_app_or in Hin.
      destruct Hin as [Hin|Hin]; [now left|].
      apply in_app_or in Hin. destruct Hin as [Hin|Hin].
      * right. right.
        apply (interleaving_In traces _ e (schedule_interleaves traces)) in Hin.
        destruct Hin as (tr & Htr & Hetr).
        destruct (Forall2_In_r _ _ _ _ Hall Htr) as (task & Htask & Hran).
        exists task, tr. split; [|now split].
        cbn [map List.concat]. apply in_or_app. now left.
      * right. left. destruct (batch_end b <? n); [|destruct Hin].
        destruct Hin as [<-|[]]. reflexivity.
    + right. now left.
    + right. right. exists task, tr. split.
      * cbn [map List.concat]. apply in_or_app. now right.
      * split; [|exact Hetr].
        cbn [s_clock] in Hran.
        eapply (ranTask_since visibleServers lag fetchChunk); [|exact Hran].
        pose proof (lag_nonneg tEnd). destruct (batch_end b <? n); lia.
Qed.

(** What the effects of an accepted session are made of. *)
Lemma session_tasks newFileId t0 f c :
  0 <= file_size f <= MAX_FILE_SIZE ->
  uploadServers c <> [] ->
  exists run p,
    handleFileUpload visibleServers lag fetchChunk schedule
      newFileId t0 (Some f) c = Some run
    /\ fileUpload (run_component run) = Some p
    /\ chunks p
       = map (fun i => chunkAfter i (run_effects run) (pendingChunk i))
             (for_range 0 (computeTotalChunks f))
    /\ (forall i, In i (for_range 0 (computeTotalChunks f)) ->
          exists tr t t',
            t0 <= t
            /\ Retried (task_blob (sliceChunk f i)) i 0 [] t tr t'
            /\ updatesFor i (run_effects run) = updatesFor i tr
            /\ (forall e, In e tr -> In e (run_effects run)))
    /\ (forall e, In e (run_effects run) ->
          e = Sleep 100
          \/ exists i tr t t',
               In i (for_range 0 (computeTotalChunks f))
               /\ t0 <= t
               /\ Retried (task_blob (sliceChunk f i)) i 0 [] t tr t'
               /\ In e tr).
Proof.
  intros Hsize Hservers.
  destruct (handleFileUpload_accepted visibleServers lag fetchChunk schedule
              lag_nonneg schedule_interleaves newFileId t0 f c Hsize Hservers)
    as (batches & effects & traces & tEnd & q & Hrun & Hplan & Htasks & Hq
        & Hchunks & _ & _ & Hall & Hupd & Hin & _).
  eexists _, _. split; [exact Hrun|].
  cbn [run_component fileUpload finalStatus run_effects].
  split; [reflexivity|]. cbn [chunks]. split; [exact Hchunks|].
  split.
  - intros i Hi.
    destruct (owned_updates
                (fun task tr => ranTask t0 task tr)
                task_index _ _ Hall
                (ranTask_own visibleServers lag fetchChunk lag_nonneg t0))
      with (x := sliceChunk f i)
      as (tr & (t & t' & Ht & _ & Hret) & Htr & E).
    + rewrite map_map. cbn. rewrite map_id. apply NoDup_for_range.
    + now apply in_map.
    + exists tr, t, t'. split; [exact Ht|]. split; [exact Hret|].
      split; [rewrite Hupd; exact E|]. intros e. now apply Hin.
  - intros e He.
    assert (Hrun' := Hrun). unfold handleFileUpload in Hrun'.
    destruct (uploadServers c) as [|s0 rest] eqn:Es; [contradiction|].
    cbn [List.length Nat.eqb] in Hrun'.
    destruct (Z.gtb_spec (file_size f) MAX_FILE_SIZE) as [Hgt|_]; [lia|].
    rewrite Hplan in Hrun'.
    destruct (runBatches _ _ _ _ _ _ _) as [st|] eqn:Erun; [|discriminate].
    injection Hrun' as _ Heff. rewrite <- Heff in He.
    destruct (runBatches_origin _ _ _ _ Erun e He)
      as [[]|[->|(task & tr & Htask & Hran & Hetr)]].
    + now left.
    + right. rewrite Htasks in Htask. apply in_map_iff in Htask.
      destruct Htask as (i & <- & Hi).
      destruct Hran as (t & t' & Ht & _ & Hret). cbn [s_clock] in Ht.
      exists i, tr, t, t'. now repeat split.
Qed.

Lemma In_posts i srv tr : In (PostChunk i srv) tr -> In srv (posts tr).
Proof.
  induction tr as [|e tr IH]; intros H; [destruct H|].
  destruct H as [->|H]; [now left|].
  destruct e; cbn [posts]; auto. right. auto.
Qed.

Lemma posts_In_own idx tr srv :
  Forall (ownEffect idx) tr -> In srv (posts tr) -> In (PostChunk idx srv) tr.
Proof.
  induction 1 as [|e tr He _ IH]; intros Hs; [destruct Hs|].
  destruct e as [j u| | |j s]; cbn [posts] in Hs; try (right; now apply IH).
  cbn in He. subst j. destruct Hs as [->|Hs]; [now left|].
  right. now apply IH.
Qed.

Lemma range_blob_positive f i :
  In i (for_range 0 (computeTotalChunks f)) ->
  0 < blob_size (task_blob (sliceChunk f i)) <= CHUNK_SIZE.
Proof.
  intros Hi. apply In_for_range in Hi.
  destruct (computeTotalChunks_bounds f) as [_ Hlast]. cbv zeta in Hlast.
  assert (Hlt : i * CHUNK_SIZE < file_size f).
  { assert (i * CHUNK_SIZE <= (computeTotalChunks f - 1) * CHUNK_SIZE); [|lia].
    apply Z.mul_le_mono_nonneg_r; [unfold CHUNK_SIZE|]; lia. }
  destruct (sliceChunk_range f i ltac:(lia) Hlt)
    as (_ & Hs & He & Hne & _ & Hsize).
  rewrite Hsize, Hs, He. lia.
Qed.

(** X4.  In every session of an accepted file, a chunk is only ever
    posted for an index of the plan, and only to a server that, in the
    registry read at the moment of its selection (which is not before the
    session started), was active, not at or above its maximum load, had a
    maximum chunk size not below this size and a free space not below twice
    the chunk's size. *)
Theorem chunks_are_posted_to_fit_servers
    (newFileId : string) (t0 : Z) (f : File) (c : Component) :
  0 <= file_size f <= MAX_FILE_SIZE ->
  uploadServers c <> [] ->
  exists run,
    handleFileUpload visibleServers lag fetchChunk schedule
      newFileId t0 (Some f) c = Some run
    /\ forall i srv,
         In (PostChunk i srv) (run_effects run) ->
         In i (for_range 0 (computeTotalChunks f))
         /\ exists t1,
              t0 <= t1
              /\ In srv (visibleServers t1)
              /\ fitFor (blob_size (task_blob (sliceChunk f i))) srv.
Proof.
  intros Hsize Hservers.
  destruct (session_tasks newFileId t0 f c Hsize Hservers)
    as (run & p & Hrun & _ & _ & _ & Horigin).
  exists run. split; [exact Hrun|]. intros i srv Hin.
  destruct (Horigin _ Hin) as [E|(j & tr & t & t' & Hj & Ht & Hret & Hetr)];
    [discriminate|].
  destruct (Retried_facts visibleServers lag fetchChunk lag_nonneg
              _ _ _ _ _ _ _ Hret ltac:(lia)) as (Hown & _).
  rewrite Forall_forall in Hown. specialize (Hown _ Hetr). cbn in Hown.
  subst j. split; [exact Hj|].
  assert (Hblob : 0 < blob_size (task_blob (sliceChunk f i)) < 2 ^ 63).
  { pose proof (range_blob_positive f i Hj) as Hb.
    unfold CHUNK_SIZE in Hb. lia. }
  pose proof (Retried_posts_fit visibleServers lag fetchChunk lag_nonneg
                _ _ _ _ _ _ _ Hret ltac:(lia) Hblob)
    as Hfit.
  rewrite Forall_forall in Hfit.
  destruct (Hfit srv) as (t1 & Ht1 & Hvis & Hf).
  { now apply (In_posts i). }
  exists t1. split; [lia|]. now split.
Qed.

(** X5.  In every session of an accepted file, only chunks of the plan
    are updated, and the statuses written to a chunk follow the order
    pending, then waiting, then waiting again or uploading or failed; after
    uploading comes completed or failed; after failed comes waiting or
    failed.  The last status written is completed or failed, and completed
    is written at most once, as the last one: a completed chunk is never
    touched again. *)
Theorem chunk_status_changes_in_order
    (newFileId : string) (t0 : Z) (f : File) (c : Component) :
  0 <= file_size f <= MAX_FILE_SIZE ->
  uploadServers c <> [] ->
  exists run,
    handleFileUpload visibleServers lag fetchChunk schedule
      newFileId t0 (Some f) c = Some run
    /\ (forall i u, In (SetChunk i u) (run_effects run) ->
                    In i (for_range 0 (computeTotalChunks f)))
    /\ forall i, In i (for_range 0 (computeTotalChunks f)) ->
         exists sts final,
           map u_status (updatesFor i (run_effects run))
           = map Some (sts ++ [final])
           /\ inOrder pending (sts ++ [final]) = true
           /\ (final = completed \/ final = failed)
           /\ ~ In completed sts.
Proof.
  intros Hsize Hservers.
  destruct (session_tasks newFileId t0 f c Hsize Hservers)
    as (run & p & Hrun & _ & _ & Htasks & Horigin).
  exists run. split; [exact Hrun|]. split.
  - intros i u Hin.
    destruct (Horigin _ Hin) as [E|(j & tr & t & t' & Hj & Ht & Hret & Hetr)];
      [discriminate|].
    destruct (Retried_facts visibleServers lag fetchChunk lag_nonneg
                _ _ _ _ _ _ _ Hret ltac:(lia)) as (Hown & _).
    rewrite Forall_forall in Hown. specialize (Hown _ Hetr). cbn in Hown.
    now subst j.
  - intros i Hi.
    destruct (Htasks i Hi) as (tr & t & t' & _ & Hret & Hupd & _).
    destruct (Retried_statuses visibleServers lag fetchChunk
                _ _ _ _ _ _ _ Hret) as (sts & final & Est & Hfinal & Hord).
    specialize (Hord pending eq_refl ltac:(unfold MAX_RETRIES; lia)).
    exists sts, final. rewrite Hupd.
    split; [exact Est|]. split; [exact Hord|]. split; [exact Hfinal|].
    intros Hin. apply in_split in Hin. destruct Hin as (l1 & l2 & ->).
    rewrite <- app_assoc in Hord. cbn [app] in Hord.
    apply inOrder_completed_last in Hord. now destruct l2.
Qed.

(** X6.  When a session of an accepted file has ended, a completed
    chunk shows progress 100 and names the server of one of its requests
    (id and address); that server answered that request with success, the
    descriptor carries the details of that answer, and the upload time is
    not before that request.  A failed chunk shows progress 0 and has
    neither upload time nor details. *)
Theorem settled_chunks_record_their_upload
    (newFileId : string) (t0 : Z) (f : File) (c : Component) :
  0 <= file_size f <= MAX_FILE_SIZE ->
  uploadServers c <> [] ->
  exists run p,
    handleFileUpload visibleServers lag fetchChunk schedule
      newFileId t0 (Some f) c = Some run
    /\ fileUpload (run_component run) = Some p
    /\ Forall
         (fun ch =>
            (status ch = completed ->
             progress ch = 100
             /\ exists srv t1 t2 err,
                  In (PostChunk (chunkIndex ch) srv) (run_effects run)
                  /\ serverId ch = Some (id srv)
                  /\ serverUrl ch = Some (url srv)
                  /\ t0 <= t1 <= t2
                  /\ uploadedAt ch = Some t2
                  /\ fetchChunk t1 (chunkIndex ch) srv
                     = JsonBody true (dropboxDetails ch) err)
            /\ (status ch = failed ->
                progress ch = 0
                /\ uploadedAt ch = None
                /\ dropboxDetails ch = None))
         (chunks p).
Proof.
  intros Hsize Hservers.
  destruct (session_tasks newFileId t0 f c Hsize Hservers)
    as (run & p & Hrun & Hp & Hchunks & Htasks & _).
  exists run, p. split; [exact Hrun|]. split; [exact Hp|].
  rewrite Hchunks. apply Forall_forall. intros ch Hch.
  apply in_map_iff in Hch. destruct Hch as (i & <- & Hi).
  destruct (Htasks i Hi) as (tr & t & t' & Ht & Hret & Hupd & Hin).
  assert (E : chunkAfter i (run_effects run) (pendingChunk i)
              = chunkAfter i tr (pendingChunk i))
    by (unfold chunkAfter; now rewrite Hupd).
  rewrite E.
  destruct (Retried_descriptor visibleServers lag fetchChunk lag_nonneg
              _ _ _ _ _ _ _ Hret ltac:(lia) (pendingChunk i)) as (Hc & Hf).
  rewrite chunkAfter_index. cbn [chunkIndex pendingChunk].
  split.
  - intros Hst. destruct (Hc Hst) as (H100 & Hup & pre & srv & t1 & err & Hposts
                                      & Ht1 & Hid & Hurl & Hfetch & _).
    split; [exact H100|]. exists srv, t1, t', err.
    split.
    { apply Hin.
      destruct (Retried_facts visibleServers lag fetchChunk lag_nonneg
                  _ _ _ _ _ _ _ Hret ltac:(lia)) as (Hown & _).
      apply (posts_In_own _ _ _ Hown).
      rewrite Hposts. apply in_or_app. right. now left. }
    split; [exact Hid|]. split; [exact Hurl|]. split; [lia|].
    split; [exact Hup|exact Hfetch].
  - intros Hst. destruct (Hf Hst) as (Hp0 & Hu & Hd).
    split; [apply Hp0; left; unfold MAX_RETRIES; lia|]. split; assumption.
Qed.

(** X7.  The update that marks a chunk completed does not clear its
    [error] field.  When a session of an accepted file has ended, a chunk
    completed at the first attempt has no error, and a chunk completed at a
    later attempt still carries the non-empty message of its last
    failure. *)
Theorem completed_chunk_keeps_the_last_error
    (newFileId : string) (t0 : Z) (f : File) (c : Component) :
  0 <= file_size f <= MAX_FILE_SIZE ->
  uploadServers c <> [] ->
  exists run p,
    handleFileUpload visibleServers lag fetchChunk schedule
      newFileId t0 (Some f) c = Some run
    /\ fileUpload (run_component run) = Some p
    /\ Forall
         (fun ch =>
            status ch = completed ->
            (attempts ch = 1 -> error ch = None)
            /\ (1 < attempts ch ->
                exists message,
                  error ch = Some message /\ message <> EmptyString))
         (chunks p).
Proof.
  intros Hsize Hservers.
  destruct (session_tasks newFileId t0 f c Hsize Hservers)
    as (run & p & Hrun & Hp & Hchunks & Htasks & _).
  exists run, p. split; [exact Hrun|]. split; [exact Hp|].
  rewrite Hchunks. apply Forall_forall. intros ch Hch.
  apply in_map_iff in Hch. destruct Hch as (i & <- & Hi).
  destruct (Htasks i Hi) as (tr & t & t' & Ht & Hret & Hupd & Hin).
  assert (E : chunkAfter i (run_effects run) (pendingChunk i)
              = chunkAfter i tr (pendingChunk i))
    by (unfold chunkAfter; now rewrite Hupd).
  rewrite E. intros Hst.
  destruct (Retried_descriptor visibleServers lag fetchChunk lag_nonneg
              _ _ _ _ _ _ _ Hret ltac:(lia) (pendingChunk i)) as (Hc & _).
  destruct (Hc Hst) as (_ & _ & pre & srv & t1 & err & Hposts & _ & _ & _ & _
                        & He0 & He1).
  destruct (Retried_facts visibleServers lag fetchChunk lag_nonneg
              _ _ _ _ _ _ _ Hret ltac:(lia)) as (_ & _ & _ & _ & _ & _ & Hfacts).
  destruct (Hfacts (pendingChunk i)) as (_ & Hatt & _).
  rewrite (Hatt Hst), Hposts, length_app. cbn [List.length].
  destruct pre as [|x pre].
  - split; [intros _; now rewrite He0|]. cbn [List.length]. lia.
  - split; [cbn [List.length]; lia|]. intros _. apply He1. discriminate.
Qed.

End SessionDetails.

Section ChunkUpdates.

Import Uploader.

Lemma update_first_match idx u (l pre post : list ChunkUploadStatus) c :
  l = pre ++ c :: post ->
  ~ In idx (map chunkIndex pre) ->
  chunkIndex c = idx ->
  match findIndex (fun c => chunkIndex c =? idx) l with
  | Some k => match nth_error l k with
              | Some c => set_at l k (mergeChunk c u)
              | None => l
              end
  | None => l
  end
  = pre ++ mergeChunk c u :: post.
Proof.
  intros -> Hpre Hc. induction pre as [|x pre IH].
  - cbn. apply Z.eqb_eq in Hc. rewrite Hc. reflexivity.
  - cbn [map In] in Hpre. cbn [app findIndex].
    destruct (Z.eqb_spec (chunkIndex x) idx) as [E|N]; [tauto|].
    assert (Hpre' : ~ In idx (map chunkIndex pre)) by tauto.
    specialize (IH Hpre').
    destruct (findIndex _ (pre ++ c :: post)) as [k|]; [|congruence].
    cbn [nth_error].
    destruct (nth_error (pre ++ c :: post) k); [|congruence].
    cbn [set_at]. now rewrite IH.
Qed.

Lemma update_no_match idx u (l : list ChunkUploadStatus) :
  ~ In idx (map chunkIndex l) ->
  match findIndex (fun c => chunkIndex c =? idx) l with
  | Some k => match nth_error l k with
              | Some c => set_at l k (mergeChunk c u)
              | None => l
              end
  | None => l
  end
  = l.
Proof.
  intros H.
  assert (E : findIndex (fun c => chunkIndex c =? idx) l = None).
  { induction l as [|x l IH]; [reflexivity|].
    cbn [map In] in H. cbn [findIndex].
    destruct (Z.eqb_spec (chunkIndex x) idx) as [E|N]; [tauto|].
    rewrite IH; tauto. }
  now rewrite E.
Qed.

Lemma first_match idx (l : list ChunkUploadStatus) :
  In idx (map chunkIndex l) ->
  exists pre c post,
    l = pre ++ c :: post /\ ~ In idx (map chunkIndex pre) /\ chunkIndex c = idx.
Proof.
  induction l as [|x l IH]; [intros []|].
  destruct (Z.eq_dec (chunkIndex x) idx) as [E|N].
  - intros _. exists [], x, l. now repeat split.
  - intros [H|H]; [contradiction|].
    destruct (IH H) as (pre & c & post & -> & Hpre & Hc).
    exists (x :: pre), c, post. split; [reflexivity|]. split; [|exact Hc].
    cbn. tauto.
Qed.

Lemma updateChunkStatus_frame idx updates p :
  exists q,
    updateChunkStatus idx updates (Some p) = Some q
    /\ sameSession p q
    /\ overallProgress q = progressOf (chunks q)
    /\ map chunkIndex (chunks q) = map chunkIndex (chunks p)
    /\ (~ In idx (map chunkIndex (chunks p)) -> chunks q = chunks p)
    /\ (forall pre c post,
          chunks p = pre ++ c :: post ->
          ~ In idx (map chunkIndex pre) ->
          chunkIndex c = idx ->
          chunks q = pre ++ mergeChunk c updates :: post).
Proof.
  eexists. split; [reflexivity|].
  cbn [chunks overallProgress].
  split; [unfold sameSession; cbn; tauto|]. split; [reflexivity|].
  split.
  - destruct (in_dec Z.eq_dec idx (map chunkIndex (chunks p))) as [Hin|Hout].
    + destruct (first_match idx _ Hin) as (pre & c & post & E & Hpre & Hc).
      rewrite (update_first_match idx updates _ pre post c E Hpre Hc), E.
      rewrite !map_app. cbn [map]. now rewrite mergeChunk_index.
    + now rewrite update_no_match.
  - split.
    + intros Hout. now apply update_no_match.
    + intros pre c post E Hpre Hc. now apply update_first_match.
Qed.

(** X8.  [updateChunkStatus] on any state: a missing state stays
    missing.  Otherwise the fields of the session other than the chunks and
    the progress are kept, the progress is recomputed from the new chunks,
    and the indices of the descriptors keep their order.  An update for an
    index that no descriptor has changes no descriptor; otherwise the update
    is merged into the first descriptor with that index and every other
    descriptor is left as it is. *)
Theorem updateChunkStatus_changes_one_chunk
    (idx : Z) (updates : ChunkUpdate) (p : FileUploadState) :
  updateChunkStatus idx updates None = None
  /\ exists q,
       updateChunkStatus idx updates (Some p) = Some q
       /\ sameSession p q
       /\ overallProgress q = progressOf (chunks q)
       /\ map chunkIndex (chunks q) = map chunkIndex (chunks p)
       /\ (~ In idx (map chunkIndex (chunks p)) -> chunks q = chunks p)
       /\ (forall pre c post,
             chunks p = pre ++ c :: post ->
             ~ In idx (map chunkIndex pre) ->
             chunkIndex c = idx ->
             chunks q = pre ++ mergeChunk c updates :: post).
Proof.
  split; [reflexivity|apply updateChunkStatus_frame].
Qed.

Lemma completedCount_bounds (l : list ChunkUploadStatus) :
  0 <= completedCount l <= Z.of_nat (List.length l).
Proof.
  unfold completedCount. pose proof (filter_length_le isCompleted l). lia.
Qed.

Lemma completedCount_none (l : list ChunkUploadStatus) :
  completedCount l = 0 <-> Forall (fun ch => status ch <> completed) l.
Proof.
  unfold completedCount. split.
  - intros H. induction l as [|x r IH]; [constructor|].
    cbn [filter] in H. destruct (isCompleted x) eqn:E; [cbn in H; lia|].
    constructor; [|now apply IH].
    intros Hc. apply isCompleted_iff in Hc. congruence.
  - intros H. induction H as [|x r Hx _ IH]; [reflexivity|].
    cbn [filter]. destruct (isCompleted x) eqn:E; [|exact IH].
    apply isCompleted_iff in E. contradiction.
Qed.

Lemma progressOf_bounds (l : list ChunkUploadStatus) :
  l <> [] ->
  (0 <= progressOf l <= 100)%Q
  /\ ((progressOf l == 100)%Q <-> Forall (fun ch => status ch = completed) l)
  /\ ((progressOf l == 0)%Q <-> Forall (fun ch => status ch <> completed) l).
Proof.
  intros Hne.
  assert (Hlen : 0 < Z.of_nat (List.length l))
    by (destruct l; [congruence|cbn [List.length]; lia]).
  pose proof (completedCount_bounds l) as Hb.
  rewrite <- completedCount_all, <- completedCount_none.
  unfold progressOf, num_div.
  set (k := completedCount l) in *. set (n := Z.of_nat (List.length l)) in *.
  clearbody k n. destruct n as [|n|n]; try lia.
  unfold Qle, Qeq, Qdiv, Qmult, Qinv, inject_Z. cbn.
  repeat split; intros; nia.
Qed.

(** X9.  After any chunk update of a session with at least one chunk,
    the overall progress lies between 0 and 100; it is 100 exactly when
    every chunk is completed and 0 exactly when none is. *)
Theorem overallProgress_is_a_percentage
    (idx : Z) (updates : ChunkUpdate) (p : FileUploadState) :
  chunks p <> [] ->
  exists q,
    updateChunkStatus idx updates (Some p) = Some q
    /\ (0 <= overallProgress q <= 100)%Q
    /\ ((overallProgress q == 100)%Q
        <-> Forall (fun ch => status ch = completed) (chunks q))
    /\ ((overallProgress q == 0)%Q
        <-> Forall (fun ch => status ch <> completed) (chunks q)).
Proof.
  intros Hne.
  destruct (updateChunkStatus_frame idx updates p)
    as (q & Hq & _ & Hprog & Hidx & _).
  exists q. split; [exact Hq|]. rewrite Hprog.
  apply progressOf_bounds.
  intros E. rewrite E in Hidx. destruct (chunks p); [congruence|discriminate].
Qed.

End ChunkUpdates.

Section Progress.

Import Uploader.

Variable visibleServers : Z -> list UploadServer.
Variable lag : Z -> Z.
Variable fetchChunk : Z -> Z -> UploadServer -> FetchOutcome.
Variable schedule : list (list Effect) -> list Effect.

Hypothesis lag_nonneg : forall t, 0 <= lag t.
Hypothesis schedule_interleaves : forall ls, Interleaving ls (schedule ls).

Lemma last_cons {A} (l : list A) x d : last (x :: l) d = last l x.
Proof.
  revert x d. induction l as [|y l IH]; intros x d; [reflexivity|].
  change (last (x :: y :: l) d) with (last (y :: l) d).
  now rewrite (IH y d), (IH y x).
Qed.

Lemma status_after us : forall L c,
  map u_status us = map Some L ->
  status (fold_left mergeChunk us c) = last L (status c).
Proof.
  induction us as [|u us IH]; intros L c E.
  - destruct L; [reflexivity|discriminate].
  - destruct L as [|x L]; [discriminate|]. cbn [map] in E.
    injection E as Ex E. cbn [fold_left]. rewrite (IH L _ E).
    cbn [status mergeChunk]. rewrite Ex. cbn [override].
    now rewrite last_cons.
Qed.

Lemma last_completed L d :
  last L d = completed -> d <> completed ->
  exists L', L = L' ++ [completed].
Proof.
  intros H Hd. destruct L as [|x L] using rev_ind; [cbn in H; congruence|].
  rewrite last_last in H. subst x. now exists L.
Qed.

Lemma progressOf_range (l : list ChunkUploadStatus) :
  (0 <= progressOf l <= 100)%Q.
Proof.
  pose proof (completedCount_bounds l) as Hb.
  unfold progressOf, num_div.
  set (k := completedCount l) in *. set (n := Z.of_nat (List.length l)) in *.
  clearbody k n. destruct n as [|n|n]; try lia;
    unfold Qle, Qeq, Qdiv, Qmult, Qinv, inject_Z; cbn; split; nia.
Qed.

Lemma progressOf_mono (l1 l2 : list ChunkUploadStatus) :
  List.length l1 = List.length l2 ->
  completedCount l1 <= completedCount l2 ->
  (progressOf l1 <= progressOf l2)%Q.
Proof.
  intros Hlen Hle. unfold progressOf, num_div. rewrite Hlen.
  set (k1 := completedCount l1) in *. set (k2 := completedCount l2) in *.
  set (n := Z.of_nat (List.length l2)) in *.
  assert (Hn : 0 <= n) by (subst n; lia).
  clearbody k1 k2 n. destruct n as [|n|n]; try lia;
    unfold Qle, Qeq, Qdiv, Qmult, Qinv, inject_Z; cbn; nia.
Qed.

Lemma completedCount_mono {A} (g1 g2 : A -> ChunkUploadStatus) l :
  (forall i, In i l -> isCompleted (g1 i) = true -> isCompleted (g2 i) = true) ->
  completedCount (map g1 l) <= completedCount (map g2 l).
Proof.
  unfold completedCount. intros H.
  induction l as [|x l IH]; [cbn; lia|].
  assert (IH' := IH (fun i Hi => H i (or_intror Hi))).
  specialize (H x (or_introl eq_refl)).
  cbn [map filter].
  destruct (isCompleted (g1 x)); destruct (isCompleted (g2 x));
    cbn [List.length]; try lia.
Qed.

Lemma effects_progress (effects : list Effect) newFileId t0 f :
  exists q,
    fold_left applyEffect effects (Some (sessionStart newFileId t0 f)) = Some q
    /\ chunks q
       = map (fun i => chunkAfter i effects (pendingChunk i))
             (for_range 0 (computeTotalChunks f))
    /\ (overallProgress q == progressOf (chunks q))%Q.
Proof.
  assert (Hnd0 : NoDup (map chunkIndex (chunks (sessionStart newFileId t0 f)))).
  { cbn [chunks sessionStart]. rewrite initialChunks_indices.
    apply NoDup_for_range. }
  destruct (apply_effects effects (sessionStart newFileId t0 f) Hnd0)
    as (q & Hq & Hchunks & _ & Hprog & Hsame).
  exists q. split; [exact Hq|]. split.
  { rewrite Hchunks. cbn [chunks sessionStart]. unfold initialChunks.
    rewrite map_map. reflexivity. }
  destruct (has_update_dec effects) as [Hsome|Hnone].
  - now rewrite (Hprog Hsome).
  - rewrite (Hsame Hnone). cbn [overallProgress chunks sessionStart].
    unfold progressOf.
    assert (E : completedCount (initialChunks (computeTotalChunks f)) = 0).
    { apply completedCount_none. unfold initialChunks. apply Forall_forall.
      intros ch Hch. apply in_map_iff in Hch. destruct Hch as (i & <- & _).
      discriminate. }
    rewrite E. unfold num_div, Qdiv. now rewrite Qmult_0_l, Qmult_0_l.
Qed.

(** X10.  During a session of an accepted file, however the tasks are
    interleaved, no step lowers the number of completed chunks: the overall
    progress after a step is never below the progress before it, and it
    stays between 0 and 100. *)
Theorem progress_never_decreases
    (newFileId : string) (t0 : Z) (f : File) (c : Component) :
  0 <= file_size f <= MAX_FILE_SIZE ->
  uploadServers c <> [] ->
  exists run,
    handleFileUpload visibleServers lag fetchChunk schedule
      newFileId t0 (Some f) c = Some run
    /\ forall pre e post,
         run_effects run = pre ++ e :: post ->
         exists q1 q2,
           fold_left applyEffect pre (Some (sessionStart newFileId t0 f))
           = Some q1
           /\ applyEffect (Some q1) e = Some q2
           /\ completedCount (chunks q1) <= completedCount (chunks q2)
           /\ (0 <= overallProgress q1)%Q
           /\ (overallProgress q1 <= overallProgress q2)%Q
           /\ (overallProgress q2 <= 100)%Q.
Proof.
  intros Hsize Hservers.
  destruct (session_tasks visibleServers lag fetchChunk schedule lag_nonneg
              schedule_interleaves newFileId t0 f c Hsize Hservers)
    as (run & p & Hrun & _ & _ & Htasks & _).
  exists run. split; [exact Hrun|]. intros pre e post Hsplit.
  destruct (effects_progress pre newFileId t0 f) as (q1 & Hq1 & Hc1 & Hp1).
  destruct (effects_progress (pre ++ [e]) newFileId t0 f)
    as (q2 & Hq2 & Hc2 & Hp2).
  rewrite fold_left_app, Hq1 in Hq2. cbn [fold_left] in Hq2.
  exists q1, q2. split; [exact Hq1|]. split; [exact Hq2|].
  assert (Hcount : completedCount (chunks q1) <= completedCount (chunks q2)).
  { rewrite Hc1, Hc2. apply completedCount_mono. intros i Hi Hdone.
    unfold chunkAfter in *. rewrite updatesFor_app, fold_left_app.
    destruct e as [j u| | |]; cbn [updatesFor fold_left]; try exact Hdone.
    destruct (Z.eqb_spec j i) as [->|_]; [|exact Hdone]. exfalso.
    destruct (Htasks i Hi) as (tr & t & t' & _ & Hret & Hupd & _).
    destruct (Retried_statuses visibleServers lag fetchChunk
                _ _ _ _ _ _ _ Hret) as (sts & final & Est & _ & Hord).
    specialize (Hord pending eq_refl ltac:(unfold MAX_RETRIES; lia)).
    rewrite <- Hupd, Hsplit, updatesFor_app in Est.
    cbn [updatesFor] in Est. rewrite Z.eqb_refl, map_app in Est.
    symmetry in Est. apply map_eq_app in Est.
    destruct Est as (L1 & L2 & EL & E1 & E2).
    destruct L2 as [|x L2]; [discriminate|].
    apply isCompleted_iff in Hdone.
    rewrite (status_after _ L1 _ (eq_sym E1)) in Hdone.
    apply last_completed in Hdone; [|discriminate].
    destruct Hdone as (L' & ->).
    rewrite EL, <- app_assoc in Hord. cbn [app] in Hord.
    apply inOrder_completed_last in Hord. discriminate. }
  split; [exact Hcount|].
  assert (Hlen : List.length (chunks q1) = List.length (chunks q2))
    by (rewrite Hc1, Hc2, !length_map; reflexivity).
  pose proof (progressOf_range (chunks q1)) as [H0 _].
  pose proof (progressOf_range (chunks q2)) as [_ H100].
  pose proof (progressOf_mono _ _ Hlen Hcount) as Hmono.
  rewrite Hp1, Hp2. now repeat split.
Qed.

End Progress.

Section Batches.

Import Uploader.

Lemma batchLoop_shape f n fuel s :
  n - s <= Z.of_nat fuel ->
  exists batches,
    batchLoop fuel f n s = Some batches
    /\ Z.of_nat (List.length batches)
       = Z.max 0 ((n - s + MAX_CONCURRENT_UPLOADS - 1) / MAX_CONCURRENT_UPLOADS)
    /\ forall k b,
         nth_error batches k = Some b ->
         batch_start b = s + MAX_CONCURRENT_UPLOADS * Z.of_nat k
         /\ batch_start b < n
         /\ batch_end b = Z.min (batch_start b + MAX_CONCURRENT_UPLOADS) n
         /\ batch_tasks b
            = map (sliceChunk f) (for_range (batch_start b) (batch_end b)).
Proof.
  revert s. induction fuel as [|fuel IH]; intros s Hfuel.
  - cbn [batchLoop]. destruct (Z.ltb_spec s n) as [Hlt|Hge]; [lia|].
    exists []. split; [reflexivity|]. split.
    + cbn [List.length]. unfold MAX_CONCURRENT_UPLOADS.
      assert ((n - s + 20 - 1) / 20 <= 0); [|lia].
      apply Z.lt_succ_r. apply Z.div_lt_upper_bound; lia.
    + intros [|k] b H; discriminate.
  - cbn [batchLoop]. destruct (Z.ltb_spec s n) as [Hlt|Hge].
    + destruct (IH (s + MAX_CONCURRENT_UPLOADS)) as (rest & -> & Hlen & Hnth);
        [unfold MAX_CONCURRENT_UPLOADS; lia|].
      eexists. split; [reflexivity|]. split.
      * cbn [List.length]. rewrite Nat2Z.inj_succ, Hlen.
        unfold MAX_CONCURRENT_UPLOADS.
        replace (n - s + 20 - 1) with ((n - (s + 20) + 20 - 1) + 1 * 20) by lia.
        rewrite Z.div_add by lia.
        assert (0 <= (n - (s + 20) + 20 - 1) / 20); [|lia].
        apply Z.div_pos; lia.
      * intros [|k] b H.
        -- cbn in H. injection H as <-. cbn [batch_start batch_end batch_tasks].
           repeat split; lia.
        -- cbn [nth_error] in H. destruct (Hnth k b H) as (Hs & Hn & He & Ht).
           repeat split; try assumption. rewrite Hs. lia.
    + exists []. split; [reflexivity|]. split.
      * cbn [List.length]. unfold MAX_CONCURRENT_UPLOADS.
        assert ((n - s + 20 - 1) / 20 <= 0); [|lia].
        apply Z.lt_succ_r. apply Z.div_lt_upper_bound; lia.
      * intros [|k] b H; discriminate.
Qed.

(** X11.  The batch loop of [handleFileUpload], for any number [n] of
    chunks: it terminates with [ceil (n / 20)] batches (none when [n <= 0]);
    batch [k] starts at chunk [20 * k] and ends at [min (start + 20) n]; its
    tasks are those of the indices from start to end, in order, so that
    between 1 and 20 chunks are in flight at a time. *)
Theorem batches_bound_concurrency (f : File) (n : Z) :
  exists batches,
    batchLoop (Z.to_nat n) f n 0 = Some batches
    /\ Z.of_nat (List.length batches)
       = Z.max 0 ((n + MAX_CONCURRENT_UPLOADS - 1) / MAX_CONCURRENT_UPLOADS)
    /\ forall k b,
         nth_error batches k = Some b ->
         batch_start b = MAX_CONCURRENT_UPLOADS * Z.of_nat k
         /\ batch_end b = Z.min (batch_start b + MAX_CONCURRENT_UPLOADS) n
         /\ map task_index (batch_tasks b)
            = for_range (batch_start b) (batch_end b)
         /\ 1 <= Z.of_nat (List.length (batch_tasks b))
            <= MAX_CONCURRENT_UPLOADS.
Proof.
  destruct (batchLoop_shape f n (Z.to_nat n) 0) as (batches & Hrun & Hlen & Hnth);
    [lia|].
  exists batches. split; [exact Hrun|]. split.
  { rewrite Hlen. now rewrite Z.sub_0_r. }
  intros k b Hb. destruct (Hnth k b Hb) as (Hs & Hn & He & Ht).
  split; [lia|]. split; [exact He|]. rewrite Ht. split.
  - rewrite map_map. cbn [task_index sliceChunk]. apply map_id.
  - rewrite length_map, for_range_length. unfold MAX_CONCURRENT_UPLOADS in *.
    lia.
Qed.

End Batches.

Section Badges.

Import Uploader UploaderView.

Variable visibleServers : Z -> list UploadServer.
Variable lag : Z -> Z.
Variable fetchChunk : Z -> Z -> UploadServer -> FetchOutcome.
Variable schedule : list (list Effect) -> list Effect.

Hypothesis lag_nonneg : forall t, 0 <= lag t.
Hypothesis schedule_interleaves : forall ls, Interleaving ls (schedule ls).

Lemma countStatus_partition (l : list ChunkUploadStatus) :
  countStatus pending l + countStatus uploading l + countStatus completed l
  + countStatus failed l + countStatus waiting l
  = Z.of_nat (List.length l).
Proof.
  unfold countStatus. induction l as [|x l IH]; [reflexivity|].
  cbn [filter List.length]. destruct (status x); cbn [ChunkStatus_eqb List.length]; lia.
Qed.

Lemma countStatus_settled (l : list ChunkUploadStatus) :
  Forall (fun ch => status ch = completed \/ status ch = failed) l ->
  countStatus pending l = 0 /\ countStatus uploading l = 0
  /\ countStatus waiting l = 0.
Proof.
  unfold countStatus. induction 1 as [|x l [Hx|Hx] _ IH]; [now cbn| |];
    cbn [filter]; rewrite Hx; cbn [ChunkStatus_eqb]; exact IH.
Qed.

Lemma countStatus_failed_none (l : list ChunkUploadStatus) :
  Forall (fun ch => status ch = completed \/ status ch = failed) l ->
  countStatus failed l = 0 <-> Forall (fun ch => status ch = completed) l.
Proof.
  unfold countStatus. induction 1 as [|x l [Hx|Hx] _ IH].
  - split; [constructor|reflexivity].
  - cbn [filter]. rewrite Hx. cbn [ChunkStatus_eqb]. rewrite IH.
    split; [now constructor|now inversion 1].
  - cbn [filter]. rewrite Hx. cbn [ChunkStatus_eqb List.length]. split; [lia|].
    inversion 1; congruence.
Qed.

(** X12.  When a session of an accepted file has ended, the Pending and
    Uploading badges show 0, the Completed and Failed badges add up to the
    number of chunks, the session is completed exactly when the Failed
    badge shows 0, and the per-chunk details are rendered (there are at most
    20 chunks). *)
Theorem summary_badges_after_a_session
    (newFileId : string) (t0 : Z) (f : File) (c : Component) :
  0 <= file_size f <= MAX_FILE_SIZE ->
  uploadServers c <> [] ->
  exists run p,
    handleFileUpload visibleServers lag fetchChunk schedule
      newFileId t0 (Some f) c = Some run
    /\ fileUpload (run_component run) = Some p
    /\ summaryStats p
       = (0, 0, countStatus completed (chunks p),
          totalChunks p - countStatus completed (chunks p))
    /\ (sessionStatus p = s_completed <-> countStatus failed (chunks p) = 0)
    /\ showChunkDetails p = true.
Proof.
  intros Hsize Hservers.
  destruct (session_summary visibleServers lag fetchChunk schedule lag_nonneg
              schedule_interleaves newFileId t0 f c Hsize Hservers)
    as (run & p & Hrun & _ & _ & Hp & _ & Htotal & Hlen & Hsettled & Hiff & _).
  exists run, p. split; [exact Hrun|]. split; [exact Hp|].
  destruct (countStatus_settled _ Hsettled) as (Hpend & Hupl & Hwait).
  pose proof (countStatus_partition (chunks p)) as Hsum.
  split.
  { unfold summaryStats. rewrite Hpend, Hupl. repeat f_equal. lia. }
  split.
  { rewrite Hiff. symmetry. now apply countStatus_failed_none. }
  unfold showChunkDetails. apply Nat.leb_le.
  destruct (computeTotalChunks_bounds f) as [_ Hlast]. cbv zeta in Hlast.
  unfold MAX_FILE_SIZE, CHUNK_SIZE in *. lia.
Qed.

End Badges.

Section Score.

Import Uploader.

(** X13.  What the score does not see.  The requirements [processChunk]
    builds name no region, so the score it ranks by is the score without
    regional bonus.  Response times of one second or more are not told
    apart, nor are amounts of free space of 10 GiB or more. *)
Theorem serverScore_saturates (requirements : Requirements)
    (s : UploadServer) :
  (forall blobSize excluded,
      serverScore (chunkRequirements blobSize excluded) s
      = serverScore noRequirements s)
  /\ (forall r1 r2 : float,
        (1000 <=? r1)%float = true -> (1000 <=? r2)%float = true ->
        serverScore requirements (withResponseTime s r1)
        = serverScore requirements (withResponseTime s r2))
  /\ (forall b1 b2 : float,
        (Number_ofZ (10 * GiB) <=? b1)%float = true ->
        (Number_ofZ (10 * GiB) <=? b2)%float = true ->
        serverScore requirements (withFreeSpace s b1)
        = serverScore requirements (withFreeSpace s b2)).
Proof.
  split; [reflexivity|]. split.
  - intros r1 r2 H1 H2. unfold serverScore.
    cbn [withResponseTime responseTime currentLoad maxLoad successRate
         capabilities region].
    now rewrite (slow_response_term r1 H1), (slow_response_term r2 H2).
  - intros b1 b2 H1 H2. unfold serverScore.
    cbn [withFreeSpace responseTime currentLoad maxLoad successRate
         capabilities freeSpace region].
    change (Number_ofZ (10 * GiB)) with 10737418240%float in H1, H2.
    now rewrite (ample_space_term b1 H1), (ample_space_term b2 H2).
Qed.

End Score.

Section Edges.

Import Uploader.

Variable visibleServers : Z -> list UploadServer.
Variable lag : Z -> Z.
Variable fetchChunk : Z -> Z -> UploadServer -> FetchOutcome.
Variable schedule : list (list Effect) -> list Effect.

(** X24.  The edges of [handleFileUpload].  Without a file, or without
    a loaded server (whatever the size of the file), it shows the alert
    that asks to load the servers and touches nothing.  An empty file on a
    loaded registry gives a session with no chunk, no batch and no request,
    which is completed at once: progress 0, end time equal to the start
    time. *)
Theorem handleFileUpload_edge_cases
    (newFileId : string) (t0 : Z) (f : File) (c : Component) :
  handleFileUpload visibleServers lag fetchChunk schedule newFileId t0 None c
  = Some (mkRun [PleaseLoadServers] c [] [])
  /\ (uploadServers c = [] ->
      handleFileUpload visibleServers lag fetchChunk schedule
        newFileId t0 (Some f) c
      = Some (mkRun [PleaseLoadServers] c [] []))
  /\ (uploadServers c <> [] ->
      file_size f = 0 ->
      exists p,
        handleFileUpload visibleServers lag fetchChunk schedule
          newFileId t0 (Some f) c
        = Some (mkRun [] (mkComponent (uploadServers c) (Some p) false) [] [])
        /\ totalChunks p = 0
        /\ chunks p = []
        /\ sessionStatus p = s_completed
        /\ overallProgress p = 0%Q
        /\ startTime p = t0
        /\ endTime p = Some t0).
Proof.
  split; [reflexivity|]. split.
  - intros Hnone. unfold handleFileUpload. now rewrite Hnone.
  - intros Hsome Hzero. unfold handleFileUpload.
    destruct (uploadServers c) as [|s0 rest]; [contradiction|].
    cbn [List.length Nat.eqb].
    assert (En : computeTotalChunks f = 0).
    { unfold computeTotalChunks. rewrite Hzero. reflexivity. }
    unfold planBatches. rewrite Hzero, En.
    change (0 >? MAX_FILE_SIZE) with false. cbv iota.
    cbn. eexists. split; [reflexivity|]. repeat split.
Qed.

End Edges.


(** ** The upload form *)

Section Form.

Import FileUpload UploadForm.

Variable forumId : string.
Variable endpoint : FormData -> option CheckResponse.

Local Abbreviation handleUpload := (handleUpload forumId endpoint).
Local Abbreviation handleResumeUpload := (handleResumeUpload forumId).

Lemma truthy_str_Some s : truthy_str (Some s) = true <-> s <> EmptyString.
Proof.
  cbn. destruct (String.eqb_spec s EmptyString); cbn; split; congruence.
Qed.

Lemma handleUpload_cases (st : Form) file checksum :
  selectedFile st = Some file ->
  fileChecksum st = Some checksum ->
  checksum <> EmptyString ->
  handleUpload st
  = if resumeRequired forumId endpoint checksum
    then (mkForm (selectedFile st) (httpUploadProgress st) (uploadedBytes st)
                 (offeredUpload forumId endpoint checksum) true (fileChecksum st), None)
    else (st, Some (uploadMutation forumId file checksum None)).
Proof.
  intros Hf Hc Hne. apply truthy_str_Some in Hne.
  unfold FileUpload.handleUpload, checkPartialUploadMutation,
    resumeRequired, offeredUpload.
  rewrite !Hf, !Hc, Hne. cbn [negb].
  destruct (endpoint (checkRequest forumId checksum)) as [r|]; [|reflexivity].
  destruct ((resp_status r =? 200) && resp_resumeRequired r); reflexivity.
Qed.

Lemma handleUpload_idle (st : Form) :
  selectedFile st = None \/ truthy_str (fileChecksum st) = false ->
  handleUpload st = (st, None).
Proof.
  unfold FileUpload.handleUpload. intros [H|H].
  - now rewrite H.
  - destruct (selectedFile st); [|reflexivity]. now rewrite H.
Qed.

(** X16.  [handleUpload] sends nothing exactly when no file is
    selected, or the checksum is not there yet, or the probe is answered
    with status 200 and [resumeRequired]; a probe that fails does not hold
    the upload back.  A request that is sent leaves the form as it was,
    carries the selected file whole with the forum and the checksum, and
    names no upload to resume. *)
Theorem handleUpload_sends_unless_resume_is_required (st : Form) :
  (snd (handleUpload st) = None
   <-> selectedFile st = None
       \/ truthy_str (fileChecksum st) = false
       \/ exists checksum,
            fileChecksum st = Some checksum
            /\ resumeRequired forumId endpoint checksum = true)
  /\ (forall body,
        snd (handleUpload st) = Some body ->
        fst (handleUpload st) = st
        /\ exists file checksum,
             selectedFile st = Some file
             /\ fileChecksum st = Some checksum
             /\ body = uploadMutation forumId file checksum None
             /\ map fst body = ["file"; "forumId"; "checksum"]%string
             /\ fileBytes body = file_size file).
Proof.
  destruct (selectedFile st) as [file|] eqn:Hf.
  2:{ rewrite (handleUpload_idle st) by (now left). cbn [snd fst].
      split; [split; auto|discriminate]. }
  destruct (truthy_str (fileChecksum st)) eqn:Ht.
  2:{ rewrite (handleUpload_idle st) by (now right). cbn [snd fst].
      split; [split; auto|discriminate]. }
  destruct (fileChecksum st) as [checksum|] eqn:Hc; [|discriminate].
  assert (Hne : checksum <> EmptyString) by (now apply truthy_str_Some).
  rewrite (handleUpload_cases st file checksum Hf Hc Hne).
  destruct (resumeRequired forumId endpoint checksum) eqn:Hr; cbn [snd fst].
  - split; [|discriminate]. split; [|reflexivity]. intros _. right. right.
    exists checksum. now split.
  - split.
    + split; [discriminate|].
      intros [H|[H|(c' & E & H)]]; try discriminate.
      injection E as <-. congruence.
    + intros body E. injection E as <-. split; [reflexivity|].
      exists file, checksum. repeat split. cbn. lia.
Qed.

(** X17.  When the server answers the probe with [resumeRequired],
    [handleUpload] sends nothing and raises the resume flag, which hides the
    Cancel and Upload buttons.  [handleCancelResume] (Start Over) brings
    the buttons back, but the next [handleUpload] probes again and ends in
    the same state with nothing sent: the form never starts this file
    afresh.  If the answer carried no partial upload, the dialog is not
    rendered and [handleResumeUpload] sends nothing; otherwise it sends the
    file with the id of the partial upload. *)
Theorem start_over_leads_back_to_the_resume_dialog
    (st : Form) (file : File) (checksum : string) :
  selectedFile st = Some file ->
  fileChecksum st = Some checksum ->
  checksum <> EmptyString ->
  resumeRequired forumId endpoint checksum = true ->
  let asked := fst (handleUpload st) in
  snd (handleUpload st) = None
  /\ showResumeDialog asked = true
  /\ partialUpload asked = offeredUpload forumId endpoint checksum
  /\ actionsShown false false asked = false
  /\ actionsShown false false (handleCancelResume asked) = true
  /\ handleUpload (handleCancelResume asked) = (asked, None)
  /\ (offeredUpload forumId endpoint checksum = None ->
      resumeDialogShown asked = false
      /\ handleResumeUpload asked = (asked, None))
  /\ (forall p,
        offeredUpload forumId endpoint checksum = Some p ->
        resumeDialogShown asked = true
        /\ snd (handleResumeUpload asked)
           = Some (uploadMutation forumId file checksum (Some (pu_id p)))).
Proof.
  intros Hf Hc Hne Hr asked. subst asked.
  rewrite (handleUpload_cases st file checksum Hf Hc Hne), Hr.
  cbn [fst snd showResumeDialog partialUpload].
  split; [reflexivity|]. split; [reflexivity|]. split; [reflexivity|].
  split; [reflexivity|]. split; [reflexivity|].
  split.
  { rewrite (handleUpload_cases _ file checksum); cbn; auto.
    rewrite Hr. reflexivity. }
  apply truthy_str_Some in Hne.
  split.
  - intros Hnone. unfold resumeDialogShown, FileUpload.handleResumeUpload.
    cbn. rewrite Hnone, Hf, Hc. split; reflexivity.
  - intros p Hp. unfold resumeDialogShown, FileUpload.handleResumeUpload.
    cbn [showResumeDialog partialUpload selectedFile fileChecksum andb].
    rewrite Hp, Hf, Hc, Hne. split; reflexivity.
Qed.

(** X18.  How an upload request settles.  The [load] listener fulfils
    the promise exactly for a status from 200 to 299 whose body parses; for
    such a status with a body that does not parse it neither fulfils nor
    rejects, and the form stays as it is; for any other status it rejects
    with a message that names the status.  A fulfilment shows the
    success toast and clears the file, the progress and the resume dialog,
    as [handleCancel] does, after which nothing can be sent.  A rejection
    shows one failure toast, resets the progress and the byte count to 0 and keeps the file,
    the checksum and the resume dialog, so that [handleUpload] and
    [handleResumeUpload] send what they would have sent before. *)
Theorem upload_settlement_updates_the_form
    (status : Z) (bodyParses inputMounted : bool) (message : string)
    (st : Form) :
  (onLoad status bodyParses = Fulfilled
   <-> 200 <= status < 300 /\ bodyParses = true)
  /\ (onLoad status bodyParses = Pending
      <-> 200 <= status < 300 /\ bodyParses = false)
  /\ (~ 200 <= status < 300 ->
      onLoad status bodyParses
      = RejectedWith (String.append "Upload failed with status "
                                    (JSText.Number_toString 10 status)))
  /\ settle Pending st = (st, [])
  /\ (let done := fst (settle Fulfilled st) in
      snd (settle Fulfilled st) = [FileUploaded]
      /\ selectedFile done = None
      /\ (httpUploadProgress done == 0)%Q
      /\ uploadedBytes done = 0
      /\ resumeDialogShown done = false
      /\ handleUpload done = (done, None)
      /\ handleResumeUpload done = (done, None)
      /\ fst (handleCancel inputMounted st) = done)
  /\ (let failed := fst (settle (RejectedWith message) st) in
      snd (settle (RejectedWith message) st) = [UploadFailed message]
      /\ (httpUploadProgress failed == 0)%Q
      /\ uploadedBytes failed = 0
      /\ selectedFile failed = selectedFile st
      /\ resumeDialogShown failed = resumeDialogShown st
      /\ snd (handleUpload failed) = snd (handleUpload st)
      /\ snd (handleResumeUpload failed) = snd (handleResumeUpload st)).
Proof.
  assert (Hclass : (status >=? 200) && (status <? 300) = true
                   <-> 200 <= status < 300).
  { rewrite andb_true_iff, Z.geb_le, Z.ltb_lt. lia. }
  split; [|split; [|split; [|split; [|split]]]].
  - unfold onLoad. destruct ((status >=? 200) && (status <? 300)).
    + destruct bodyParses; split; try discriminate; try tauto.
      intros [_ H]. discriminate H.
    + split; [discriminate|]. intros [H _]. apply Hclass in H. discriminate.
  - unfold onLoad. destruct ((status >=? 200) && (status <? 300)).
    + destruct bodyParses; split; try discriminate; try tauto.
      intros [_ H]. discriminate H.
    + split; [discriminate|]. intros [H _]. apply Hclass in H. discriminate.
  - intros Hout. unfold onLoad.
    destruct ((status >=? 200) && (status <? 300)); [|reflexivity].
    exfalso. apply Hout. now apply Hclass.
  - reflexivity.
  - cbn. repeat split.
  - cbn [settle onError fst snd httpUploadProgress uploadedBytes selectedFile].
    split; [reflexivity|]. split; [reflexivity|]. split; [reflexivity|].
    split; [reflexivity|]. split; [reflexivity|]. split.
    + unfold FileUpload.handleUpload, checkPartialUploadMutation.
      cbn [selectedFile fileChecksum].
      destruct (selectedFile st); [|reflexivity].
      destruct (truthy_str (fileChecksum st)); [|reflexivity]. cbn [negb].
      destruct (fileChecksum st); [|reflexivity].
      destruct (endpoint _) as [r|]; [|reflexivity].
      destruct ((resp_status r =? 200) && resp_resumeRequired r); reflexivity.
    + unfold FileUpload.handleResumeUpload.
      cbn [selectedFile fileChecksum partialUpload].
      destruct (selectedFile st); [|reflexivity].
      destruct (fileChecksum st) as [cs|]; [|reflexivity].
      destruct (partialUpload st); [|reflexivity].
      destruct (truthy_str (Some cs)); reflexivity.
Qed.

End Form.

Section Checksum.

Import JSText FileUpload UploadForm.

Lemma join_empty_cons x l :
  join EmptyString (x :: l) = String.append x (join EmptyString l).
Proof.
  unfold join. destruct l as [|y l]; cbn [String.concat].
  - clear. induction x as [|ch x IH]; [reflexivity|]. cbn. now rewrite <- IH.
  - reflexivity.
Qed.

Lemma hashHex_cons b l : hashHex (b :: l) = String.append (byteHex b) (hashHex l).
Proof. unfold hashHex. cbn [map]. apply join_empty_cons. Qed.

Lemma isByte_range b : isByte b -> In b (for_range 0 256).
Proof. intros H. apply In_for_range. exact H. Qed.

Lemma byteHex_shape b :
  isByte b ->
  exists hi lo,
    byteHex b = String hi (String lo EmptyString)
    /\ isHexDigit hi = true /\ isHexDigit lo = true.
Proof.
  intros Hb. apply isByte_range in Hb. revert b Hb. apply Forall_forall.
  assert (H : forallb
                (fun b => match byteHex b with
                          | String hi (String lo EmptyString) =>
                              isHexDigit hi && isHexDigit lo
                          | _ => false
                          end) (for_range 0 256) = true)
    by (vm_compute; reflexivity).
  rewrite forallb_forall in H. apply Forall_forall. intros b Hb.
  specialize (H b Hb).
  destruct (byteHex b) as [|hi [|lo [|]]]; try discriminate.
  apply andb_prop in H. exists hi, lo. now split.
Qed.

Lemma byteHex_injective b1 b2 :
  isByte b1 -> isByte b2 -> byteHex b1 = byteHex b2 -> b1 = b2.
Proof.
  intros H1 H2 E. apply isByte_range in H1, H2.
  assert (H : forallb
                (fun x => forallb
                            (fun y => implb (String.eqb (byteHex x) (byteHex y))
                                            (x =? y))
                            (for_range 0 256))
                (for_range 0 256) = true)
    by (vm_compute; reflexivity).
  rewrite forallb_forall in H. specialize (H b1 H1).
  rewrite forallb_forall in H. specialize (H b2 H2).
  rewrite E, String.eqb_refl in H. cbn in H. now apply Z.eqb_eq.
Qed.

(** X14.  The checksum [calculateChecksum] returns and stores, built
    from the bytes of a digest, has two characters per byte, all of them digits or letters from
    [a] to [f]; it is truthy when the digest is not empty; and different
    digests give different checksums. *)
Theorem checksum_is_two_hex_digits_per_byte
    (hashArray : list Z) (st : Form) :
  Forall isByte hashArray ->
  snd (calculateChecksum hashArray st) = hashHex hashArray
  /\ fileChecksum (fst (calculateChecksum hashArray st))
     = Some (hashHex hashArray)
  /\ String.length (hashHex hashArray) = (2 * List.length hashArray)%nat
  /\ forallb isHexDigit (list_ascii_of_string (hashHex hashArray)) = true
  /\ (hashArray <> [] -> truthy_str (Some (hashHex hashArray)) = true)
  /\ forall other,
       Forall isByte other ->
       hashHex other = hashHex hashArray -> other = hashArray.
Proof.
  intros Hbytes. split; [reflexivity|]. split; [reflexivity|].
  split; [|split; [|split]].
  - induction Hbytes as [|b l Hb _ IH]; [reflexivity|].
    rewrite hashHex_cons.
    destruct (byteHex_shape b Hb) as (hi & lo & -> & _).
    cbn [String.append String.length List.length]. rewrite IH. lia.
  - induction Hbytes as [|b l Hb _ IH]; [reflexivity|].
    rewrite hashHex_cons.
    destruct (byteHex_shape b Hb) as (hi & lo & -> & Hhi & Hlo).
    cbn [String.append list_ascii_of_string forallb]. now rewrite Hhi, Hlo.
  - intros Hne. destruct Hbytes as [|b l Hb _]; [congruence|].
    rewrite hashHex_cons.
    destruct (byteHex_shape b Hb) as (hi & lo & -> & _). reflexivity.
  - induction Hbytes as [|b l Hb _ IH]; intros other Hother E.
    + destruct Hother as [|b' l' Hb' _]; [reflexivity|].
      rewrite hashHex_cons in E.
      destruct (byteHex_shape b' Hb') as (hi & lo & Es & _).
      rewrite Es in E. discriminate.
    + destruct Hother as [|b' l' Hb' Hl'].
      * rewrite hashHex_cons in E.
        destruct (byteHex_shape b Hb) as (hi & lo & Es & _).
        rewrite Es in E. discriminate.
      * rewrite !hashHex_cons in E.
        destruct (byteHex_shape b Hb) as (hi & lo & Es & _).
        destruct (byteHex_shape b' Hb') as (hi' & lo' & Es' & _).
        rewrite Es, Es' in E. cbn [String.append] in E.
        injection E as Ehi Elo Erest.
        f_equal.
        -- apply byteHex_injective; try assumption. rewrite Es, Es'. congruence.
        -- now apply IH.
Qed.

End Checksum.

Section Pipeline.

Import FileUpload UploadForm.

Variable forumId : string.
Variable endpoint : FormData -> option CheckResponse.

Lemma hashHex_nonempty hashArray :
  Forall isByte hashArray -> hashArray <> [] ->
  hashHex hashArray <> EmptyString.
Proof.
  intros Hb Hne. destruct Hb as [|b l Hb _]; [congruence|].
  rewrite hashHex_cons. destruct (byteHex_shape b Hb) as (hi & lo & -> & _).
  discriminate.
Qed.

(** X15.  Selecting a file within the size limit, letting the effect
    compute its checksum and pressing Upload, when the server reports no
    partial upload (or cannot be reached): whatever the form held before,
    the request carries the whole file, the forum and the checksum of this
    file, and names no upload to resume. *)
Theorem selected_file_is_uploaded_with_its_checksum
    (digest : File -> list Z) (file : File) (st : Form) :
  file_size file <= MAX_FILE_SIZE ->
  Forall isByte (digest file) ->
  digest file <> [] ->
  resumeRequired forumId endpoint (hashHex (digest file)) = false ->
  let selected := fst (fst (handleFileSelect (Some file) st)) in
  let ready := onSelectedFile digest selected in
  handleFileSelect (Some file) st = (selected, [], false)
  /\ selectedFile ready = Some file
  /\ fileChecksum ready = Some (hashHex (digest file))
  /\ handleUpload forumId endpoint ready
     = (ready,
        Some [ ("file"%string, FilePart (file_name file) (file_size file));
               ("forumId"%string, TextPart forumId);
               ("checksum"%string, TextPart (hashHex (digest file))) ]).
Proof.
  intros Hsize Hbytes Hne Hfresh selected ready.
  assert (Esel : handleFileSelect (Some file) st
                 = (mkForm (Some file) (httpUploadProgress st)
                           (uploadedBytes st) (partialUpload st)
                           (showResumeDialog st) (fileChecksum st), [], false)).
  { unfold handleFileSelect.
    destruct (Z.gtb_spec (file_size file) MAX_FILE_SIZE); [lia|reflexivity]. }
  subst ready selected. rewrite Esel. cbn [fst].
  split; [reflexivity|]. split; [reflexivity|]. split; [reflexivity|].
  rewrite (handleUpload_cases forumId endpoint _ file (hashHex (digest file)));
    try reflexivity.
  - now rewrite Hfresh.
  - now apply hashHex_nonempty.
Qed.

End Pipeline.

Section ProgressEvents.

Import FileUpload UploadForm.

(** X25.  The [progress] listener of the upload request: an event
    whose length is not computable changes nothing.  Otherwise, for
    [0 <= loaded <= total] and [total > 0], the progress becomes a
    percentage between 0 and 100, which is 100 exactly when everything is
    loaded; the byte count becomes [loaded]; the file, the checksum and
    the resume dialog are not touched. *)
Theorem upload_progress_is_a_percentage (loaded total : Z) (st : Form) :
  0 <= loaded <= total ->
  0 < total ->
  onProgress false loaded total st = st
  /\ (0 <= httpUploadProgress (onProgress true loaded total st) <= 100)%Q
  /\ ((httpUploadProgress (onProgress true loaded total st) == 100)%Q
      <-> loaded = total)
  /\ uploadedBytes (onProgress true loaded total st) = loaded
  /\ selectedFile (onProgress true loaded total st) = selectedFile st
  /\ fileChecksum (onProgress true loaded total st) = fileChecksum st
  /\ partialUpload (onProgress true loaded total st) = partialUpload st
  /\ showResumeDialog (onProgress true loaded total st) = showResumeDialog st.
Proof.
  intros Hl Ht. split; [reflexivity|].
  cbn [onProgress httpUploadProgress uploadedBytes selectedFile fileChecksum
       partialUpload showResumeDialog].
  assert (Hq : (0 <= num_div loaded total * 100 <= 100)%Q
               /\ ((num_div loaded total * 100 == 100)%Q <-> loaded = total)).
  { unfold num_div. destruct total as [|n|n]; try lia.
    unfold Qle, Qeq, Qdiv, Qmult, Qinv, inject_Z. cbn.
    repeat split; intros; nia. }
  destruct Hq as [Hb Hiff]. repeat split; try reflexivity; try apply Hb;
    apply Hiff.
Qed.

End ProgressEvents.

(** Half of 1000 bytes sent: 50 percent. *)
Lemma upload_progress_is_a_percentage_witness :
  0 <= 500 <= 1000
  /\ 0 < 1000
  /\ (FileUpload.httpUploadProgress (UploadForm.onProgress true 500 1000 emptyForm)
      == 50)%Q
  /\ (0 <= FileUpload.httpUploadProgress
             (UploadForm.onProgress true 500 1000 emptyForm) <= 100)%Q.
Proof.
  assert (H1 : 0 <= 500 <= 1000) by lia. assert (H2 : 0 < 1000) by lia.
  split; [exact H1|]. split; [exact H2|]. split; [reflexivity|].
  destruct (upload_progress_is_a_percentage 500 1000 emptyForm H1 H2)
    as (_ & Hb & _).
  exact Hb.
Defined.


(** ** The video preview *)

Section Player.

Import JSText VideoPreview.

Lemma handle_keeps_volume c p v :
  videoRef p = Some v ->
  (v_volume v == sliderVolume p)%Q ->
  exists v', videoRef (handle c p) = Some v'
             /\ (v_volume v' == sliderVolume (handle c p))%Q.
Proof.
  intros H Hv. destruct c; cbn [handle];
    unfold handleSeek, handleVolumeChange, toggleMute, skipTime,
      handleTimeUpdate, handleLoadedMetadata; rewrite H.
  - eexists. split; [reflexivity|exact Hv].
  - eexists. split; [reflexivity|]. unfold sliderVolume. cbn.
    destruct (Qeq_bool newVolume 0) eqn:E; [|reflexivity].
    now apply Qeq_bool_iff.
  - unfold sliderVolume in *. destruct (isMuted p); eexists;
      (split; [reflexivity|]); cbn; reflexivity.
  - eexists. split; [reflexivity|exact Hv].
  - eexists. split; [reflexivity|exact Hv].
  - eexists. split; [reflexivity|exact Hv].
Qed.

(** X19.  After any sequence of seeks, volume changes, mute toggles,
    skips and media events on a mounted player, the volume of the video
    element is the value the volume slider shows, and it is 0 while the
    player is muted.  Toggling mute twice restores it.  A volume other than
    0 set by the slider survives mute and unmute; after the slider was moved
    to 0, unmuting leaves the player unmuted with volume 0. *)
Theorem volume_slider_shows_the_element_volume
    (videoDuration : Q) (controls : list Control) :
  let p := afterControls controls (mounted videoDuration) in
  (exists v,
      elementVolume p = Some v
      /\ (v == sliderVolume p)%Q
      /\ (isMuted p = true -> (v == 0)%Q))
  /\ (exists v,
        elementVolume (toggleMute (toggleMute p)) = Some v
        /\ (v == sliderVolume p)%Q
        /\ isMuted (toggleMute (toggleMute p)) = isMuted p
        /\ volume (toggleMute (toggleMute p)) = volume p)
  /\ (forall newVolume,
        ~ (newVolume == 0)%Q ->
        elementVolume (toggleMute (toggleMute (handleVolumeChange newVolume p)))
        = Some newVolume)
  /\ (forall zero,
        (zero == 0)%Q ->
        isMuted (toggleMute (handleVolumeChange zero p)) = false
        /\ elementVolume (toggleMute (handleVolumeChange zero p)) = Some zero).
Proof.
  intros p.
  assert (Hinv : exists v, videoRef p = Some v
                           /\ (v_volume v == sliderVolume p)%Q).
  { subst p. unfold afterControls.
    induction controls as [|c cs IH] using rev_ind.
    - eexists. split; [reflexivity|]. reflexivity.
    - rewrite fold_left_app. cbn [fold_left].
      destruct IH as (v & Hv & Hvol).
      exact (handle_keeps_volume c _ v Hv Hvol). }
  destruct Hinv as (v & Hv & Hvol).
  split; [|split; [|split]].
  - exists (v_volume v). unfold elementVolume. rewrite Hv.
    split; [reflexivity|]. split; [exact Hvol|].
    intros Hm. unfold sliderVolume in Hvol. now rewrite Hm in Hvol.
  - unfold elementVolume, toggleMute. rewrite Hv.
    unfold sliderVolume in *.
    destruct (isMuted p) eqn:Hm; cbn; rewrite ?Hm; cbn;
      eexists; (split; [reflexivity|]); repeat split; reflexivity.
  - intros newVolume Hnz. unfold elementVolume, toggleMute, handleVolumeChange.
    rewrite Hv. cbn.
    destruct (Qeq_bool newVolume 0) eqn:E;
      [apply Qeq_bool_iff in E; contradiction|]. reflexivity.
  - intros zero Hz. unfold elementVolume, toggleMute, handleVolumeChange.
    rewrite Hv. cbn. apply Qeq_bool_iff in Hz. rewrite Hz. cbn.
    split; reflexivity.
Qed.

(** X20.  [skipTime] on a mounted player whose duration is not negative
    moves the playback position by the given seconds when the result lies
    within the video, to 0 when it would fall before the start and to the
    duration when it would fall after the end; the displayed time and the
    volume are not touched. *)
Theorem skipTime_stays_within_the_video (seconds : Q) (p : Player) (v : Video) :
  videoRef p = Some v ->
  (0 <= duration p)%Q ->
  exists t,
    elementTime (skipTime seconds p) = Some t
    /\ (0 <= t <= duration p)%Q
    /\ ((0 <= v_currentTime v + seconds <= duration p)%Q ->
        (t == v_currentTime v + seconds)%Q)
    /\ ((v_currentTime v + seconds <= 0)%Q -> (t == 0)%Q)
    /\ ((duration p <= v_currentTime v + seconds)%Q -> (t == duration p)%Q)
    /\ currentTime (skipTime seconds p) = currentTime p
    /\ elementVolume (skipTime seconds p) = elementVolume p.
Proof.
  intros Hv Hd. unfold elementTime, elementVolume, skipTime. rewrite Hv. cbn.
  eexists. split; [reflexivity|].
  set (x := (v_currentTime v + seconds)%Q).
  split.
  { split; [apply Q.le_max_l|].
    apply Q.max_lub; [exact Hd|apply Q.le_min_l]. }
  split.
  { intros [H0 H1]. rewrite (Q.min_r _ _ H1). now apply Q.max_r. }
  split.
  { intros H0. apply Q.max_l.
    eapply Qle_trans; [apply Q.le_min_r|exact H0]. }
  split.
  { intros H1. rewrite (Q.min_l _ _ H1). now apply Q.max_r. }
  split; reflexivity.
Qed.

End Player.

Section TimeLabel.

Import JSText VideoPreview.

Lemma Qfloor_unique (x : Q) (z : Z) :
  (inject_Z z <= x)%Q -> (x < inject_Z (z + 1))%Q -> Qfloor x = z.
Proof.
  intros Hle Hlt.
  pose proof (Qfloor_le x) as H1. pose proof (Qlt_floor x) as H2.
  assert (A : (inject_Z z < inject_Z (Qfloor x + 1))%Q)
    by (eapply Qle_lt_trans; eauto).
  assert (B : (inject_Z (Qfloor x) < inject_Z (z + 1))%Q)
    by (eapply Qle_lt_trans; eauto).
  rewrite <- Zlt_Qlt in A, B. lia.
Qed.

Lemma clock_split (time : Q) :
  (0 <= time)%Q ->
  Math_floor (time / 60) = Qfloor time / 60
  /\ Math_floor (num_rem time 60) = Qfloor time mod 60.
Proof.
  intros Hpos. set (w := Qfloor time).
  pose proof (Qfloor_le time) as Hw1. pose proof (Qlt_floor time) as Hw2.
  fold w in Hw1, Hw2.
  assert (Hw0 : 0 <= w).
  { assert (H : (inject_Z 0 < inject_Z (w + 1))%Q)
      by (eapply Qle_lt_trans; [exact Hpos|exact Hw2]).
    rewrite <- Zlt_Qlt in H. lia. }
  pose proof (Z.div_mod w 60 ltac:(lia)) as Hdm.
  pose proof (Z.mod_pos_bound w 60 ltac:(lia)) as Hr.
  set (m := w / 60) in *. set (r := w mod 60) in *.
  assert (Ew : (inject_Z w == 60 * inject_Z m + inject_Z r)%Q).
  { rewrite Hdm, inject_Z_plus, inject_Z_mult. reflexivity. }
  assert (Ew1 : (inject_Z (w + 1) == inject_Z w + 1)%Q)
    by (rewrite inject_Z_plus; reflexivity).
  assert (Hr0 : (0 <= inject_Z r)%Q).
  { change 0%Q with (inject_Z 0). rewrite <- Zle_Qle. lia. }
  assert (Hr1 : (inject_Z r + 1 <= 60)%Q).
  { change 60%Q with (inject_Z 60). change 1%Q with (inject_Z 1).
    rewrite <- inject_Z_plus, <- Zle_Qle. lia. }
  assert (Em : Qfloor (time / 60) = m).
  { apply Qfloor_unique.
    - apply Qle_shift_div_l; [reflexivity|]. lra.
    - apply Qlt_shift_div_r; [reflexivity|].
      rewrite inject_Z_plus. change (inject_Z 1) with 1%Q. lra. }
  split; [exact Em|].
  unfold Math_floor, num_rem, Qtruncate.
  assert (Hq : Qle_bool 0 (time / 60) = true).
  { apply Qle_bool_iff. apply Qle_shift_div_l; [reflexivity|]. lra. }
  rewrite Hq, Em. apply Qfloor_unique.
  - lra.
  - rewrite inject_Z_plus. change (inject_Z 1) with 1%Q. lra.
Qed.

Lemma seconds_two_digits s :
  0 <= s < 60 ->
  String.length (padStart (Number_toString 10 s) 2 "0"%char) = 2%nat.
Proof.
  intros H. apply In_for_range in H. revert s H. apply Forall_forall.
  assert (E : forallb
                (fun s => Nat.eqb
                            (String.length
                               (padStart (Number_toString 10 s) 2 "0"%char)) 2)
                (for_range 0 60) = true) by (vm_compute; reflexivity).
  rewrite forallb_forall in E. apply Forall_forall. intros s Hs.
  now apply Nat.eqb_eq, E.
Qed.

(** X21.  For a time that is not negative and below [2^53] seconds,
    [formatTime] prints the whole minutes, a colon and the remaining whole
    seconds, which are below 60 and always take two characters. *)
Theorem formatTime_shows_minutes_and_seconds (time : Q) :
  (0 <= time)%Q ->
  (time < inject_Z (2 ^ 53))%Q ->
  let whole := Qfloor time in
  formatTime time
  = String.append (Number_toString 10 (whole / 60))
      (String.append ":"
         (padStart (Number_toString 10 (whole mod 60)) 2 "0"%char))
  /\ 0 <= whole mod 60 < 60
  /\ 60 * (whole / 60) + whole mod 60 = whole
  /\ String.length (padStart (Number_toString 10 (whole mod 60)) 2 "0"%char)
     = 2%nat.
Proof.
  intros Hpos _ whole. destruct (clock_split time Hpos) as (Em & Es).
  pose proof (Z.mod_pos_bound whole 60 ltac:(lia)) as Hr.
  split.
  { unfold formatTime. cbv zeta. now rewrite Em, Es. }
  split; [exact Hr|]. split.
  { pose proof (Z.div_mod whole 60 ltac:(lia)). lia. }
  now apply seconds_two_digits.
Qed.

End TimeLabel.


(** ** The meta tags of the page *)

Section Meta.

Import MetaTags.

Lemma setFirst_cons property name content m l :
  setFirst property name content (m :: l)
  = if selects property name m then setContent content m :: l
    else m :: setFirst property name content l.
Proof.
  unfold setFirst. cbn [findIndex].
  destruct (selects property name m); [reflexivity|].
  destruct (findIndex (selects property name) l) as [k|]; [|reflexivity].
  cbn [nth_error]. destruct (nth_error l k); reflexivity.
Qed.

Lemma selects_setContent property name content m :
  selects property name (setContent content m) = selects property name m.
Proof. reflexivity. Qed.

Lemma find_setFirst_same property name content l :
  find (selects property name) (setFirst property name content l)
  = option_map (setContent content) (find (selects property name) l).
Proof.
  induction l as [|m l IH]; [reflexivity|].
  rewrite setFirst_cons. cbn [find].
  destruct (selects property name m) eqn:E.
  - cbn [find]. rewrite selects_setContent, E. reflexivity.
  - cbn [find]. rewrite E. exact IH.
Qed.

Lemma setFirst_none property name content l :
  find (selects property name) l = None ->
  setFirst property name content l = l.
Proof.
  induction l as [|m l IH]; [reflexivity|].
  rewrite setFirst_cons. cbn [find].
  destruct (selects property name m); [discriminate|].
  intros H. now rewrite IH.
Qed.

Lemma other_key property name property' name' m :
  oneKey m ->
  (property', name') <> (property, name) ->
  selects property name m = true ->
  selects property' name' m = false.
Proof.
  unfold selects, oneKey. intros Hone Hkey Hsel.
  destruct property, property';
    destruct (m_name m) as [n|], (m_property m) as [q|];
    try discriminate; try reflexivity;
    try (destruct Hone; discriminate);
    apply String.eqb_eq in Hsel; subst;
    (destruct (String.eqb_spec name name') as [->|]; [|reflexivity]);
    exfalso; apply Hkey; reflexivity.
Qed.

Lemma find_setFirst_other property name content property' name' l :
  Forall oneKey l ->
  (property', name') <> (property, name) ->
  find (selects property' name') (setFirst property name content l)
  = find (selects property' name') l.
Proof.
  intros Hone Hkey. induction Hone as [|m l Hm _ IH]; [reflexivity|].
  rewrite setFirst_cons.
  destruct (selects property name m) eqn:E.
  - cbn [find]. rewrite selects_setContent.
    now rewrite (other_key _ _ _ _ _ Hm Hkey E).
  - cbn [find]. now rewrite IH.
Qed.

Lemma setFirst_oneKey property name content l :
  Forall oneKey l -> Forall oneKey (setFirst property name content l).
Proof.
  induction 1 as [|m l Hm Hl IH]; [constructor|].
  rewrite setFirst_cons. destruct (selects property name m);
    constructor; auto.
Qed.

Lemma find_app_first {A} (p : A -> bool) l1 l2 :
  find p (l1 ++ l2)
  = match find p l1 with
    | Some x => Some x
    | None => find p l2
    end.
Proof.
  induction l1 as [|x l1 IH]; [reflexivity|].
  cbn [app find]. destruct (p x); [reflexivity|exact IH].
Qed.

Lemma setFirst_twice property name content l :
  setFirst property name content (setFirst property name content l)
  = setFirst property name content l.
Proof.
  induction l as [|m l IH]; [reflexivity|].
  rewrite setFirst_cons. destruct (selects property name m) eqn:E.
  - rewrite setFirst_cons, selects_setContent, E. reflexivity.
  - rewrite setFirst_cons, E. now rewrite IH.
Qed.

Lemma setFirst_attributes property name content l :
  map m_name (setFirst property name content l) = map m_name l
  /\ map m_property (setFirst property name content l) = map m_property l.
Proof.
  induction l as [|m l [IH1 IH2]]; [now split|].
  rewrite setFirst_cons. destruct (selects property name m); cbn [map].
  - now split.
  - now rewrite IH1, IH2.
Qed.

Lemma setFirst_app_l property name content l1 l2 m :
  find (selects property name) l1 = Some m ->
  setFirst property name content (l1 ++ l2)
  = setFirst property name content l1 ++ l2.
Proof.
  revert m. induction l1 as [|x l1 IH]; intros m H; [discriminate|].
  cbn [app]. rewrite !setFirst_cons. cbn [find] in H.
  destruct (selects property name x); [reflexivity|].
  cbn [app]. now rewrite (IH m H).
Qed.

Lemma setFirst_app_r property name content l1 l2 :
  find (selects property name) l1 = None ->
  setFirst property name content (l1 ++ l2)
  = l1 ++ setFirst property name content l2.
Proof.
  induction l1 as [|x l1 IH]; intros H; [reflexivity|].
  cbn [app]. rewrite setFirst_cons. cbn [find] in H.
  destruct (selects property name x); [discriminate|].
  now rewrite IH.
Qed.

Lemma selects_created property name content :
  selects property name (createdMeta property name content) = true.
Proof. destruct property; cbn; apply String.eqb_refl. Qed.

Lemma created_oneKey property name content :
  oneKey (createdMeta property name content).
Proof. destruct property; [left|right]; reflexivity. Qed.

Lemma updateMetaTag_allMetas name content property d :
  doc_title (updateMetaTag name content property d) = doc_title d
  /\ match querySelector property name d with
     | Some _ =>
         allMetas (updateMetaTag name content property d)
         = setFirst property name content (allMetas d)
     | None =>
         head_metas (updateMetaTag name content property d)
         = head_metas d ++ [createdMeta property name content]
         /\ later_metas (updateMetaTag name content property d)
            = later_metas d
     end.
Proof.
  unfold querySelector, updateMetaTag, allMetas. rewrite find_app_first.
  destruct (find (selects property name) (head_metas d)) as [m|] eqn:Eh.
  - split; [reflexivity|]. cbn [head_metas later_metas].
    symmetry. now apply (setFirst_app_l _ _ _ _ _ m).
  - destruct (find (selects property name) (later_metas d)) as [m|] eqn:El.
    + split; [reflexivity|]. cbn [head_metas later_metas].
      symmetry. now apply setFirst_app_r.
    + split; [reflexivity|]. cbn [head_metas later_metas].
      split; [|reflexivity]. now destruct property.
Qed.

Lemma metaContent_set name content property d :
  metaContent property name (updateMetaTag name content property d)
  = Some content.
Proof.
  unfold metaContent, querySelector, updateMetaTag.
  destruct (find (selects property name) (head_metas d)) as [m|] eqn:Eh.
  - cbn [head_metas later_metas].
    now rewrite find_app_first, find_setFirst_same, Eh.
  - destruct (find (selects property name) (later_metas d)) as [m|] eqn:El.
    + cbn [head_metas later_metas].
      now rewrite find_app_first, Eh, find_setFirst_same, El.
    + cbn [head_metas later_metas].
      rewrite !find_app_first, Eh.
      change (if property then mkMeta None (Some name) content
              else mkMeta (Some name) None content)
        with (createdMeta property name content).
      cbn [find]. rewrite selects_created. now destruct property.
Qed.

Lemma metaContent_other name content property property' name' d :
  Forall oneKey (allMetas d) ->
  (property', name') <> (property, name) ->
  metaContent property' name' (updateMetaTag name content property d)
  = metaContent property' name' d.
Proof.
  intros Hone Hkey. unfold allMetas in Hone. apply Forall_app in Hone.
  destruct Hone as [Hh Hl].
  unfold metaContent, querySelector, updateMetaTag.
  destruct (find (selects property name) (head_metas d)) as [m|] eqn:Eh.
  - cbn [head_metas later_metas].
    now rewrite !find_app_first, find_setFirst_other.
  - destruct (find (selects property name) (later_metas d)) as [m|] eqn:El.
    + cbn [head_metas later_metas].
      now rewrite !find_app_first, find_setFirst_other.
    + cbn [head_metas later_metas].
      change (if property then mkMeta None (Some name) content
              else mkMeta (Some name) None content)
        with (createdMeta property name content).
      rewrite !find_app_first. cbn [find].
      rewrite (other_key property name property' name'
                 (createdMeta property name content)
                 (created_oneKey _ _ _) Hkey (selects_created _ _ _)).
      now destruct (find (selects property' name') (head_metas d)).
Qed.

Lemma updateMetaTag_oneKey name content property d :
  Forall oneKey (allMetas d) ->
  Forall oneKey (allMetas (updateMetaTag name content property d)).
Proof.
  intros Hone. unfold allMetas in *. apply Forall_app in Hone.
  destruct Hone as [Hh Hl]. unfold updateMetaTag.
  destruct (find (selects property name) (head_metas d)).
  - cbn [head_metas later_metas]. apply Forall_app.
    split; [now apply setFirst_oneKey|exact Hl].
  - destruct (find (selects property name) (later_metas d)).
    + cbn [head_metas later_metas]. apply Forall_app.
      split; [exact Hh|now apply setFirst_oneKey].
    + cbn [head_metas later_metas]. apply Forall_app. split; [|exact Hl].
      apply Forall_app. split; [exact Hh|]. constructor; [|constructor].
      apply (created_oneKey property name content).
Qed.

Lemma updateMetaTag_twice name content property d :
  updateMetaTag name content property (updateMetaTag name content property d)
  = updateMetaTag name content property d.
Proof.
  unfold updateMetaTag at 2 3.
  destruct (find (selects property name) (head_metas d)) as [m|] eqn:Eh.
  - unfold updateMetaTag. cbn [head_metas later_metas doc_title].
    rewrite find_setFirst_same, Eh. cbn [option_map].
    now rewrite setFirst_twice.
  - destruct (find (selects property name) (later_metas d)) as [m|] eqn:El.
    + unfold updateMetaTag. cbn [head_metas later_metas doc_title].
      rewrite Eh, find_setFirst_same, El. cbn [option_map].
      now rewrite setFirst_twice.
    + unfold updateMetaTag. cbn [head_metas later_metas doc_title].
      change (if property then mkMeta None (Some name) content
              else mkMeta (Some name) None content)
        with (createdMeta property name content).
      rewrite find_app_first, Eh. cbn [find]. rewrite selects_created.
      rewrite (setFirst_app_r _ _ _ _ _ Eh), setFirst_cons, selects_created.
      now destruct property.
Qed.

(** X22.  [updateMetaTag]: afterwards the selector finds an element
    with the given content, and the title is unchanged.  If the selector
    found an element before, no element is added and no [name] or
    [property] attribute changes: the content of the first match is
    rewritten.  Otherwise one element with that attribute is appended to
    the head.  Doing the same update again changes nothing.  When no element
    carries both a [name] and a [property], what any other selector finds
    is unchanged. *)
Theorem updateMetaTag_sets_or_creates
    (name content : string) (property : bool) (d : Document) :
  let d' := updateMetaTag name content property d in
  metaContent property name d' = Some content
  /\ doc_title d' = doc_title d
  /\ (querySelector property name d <> None ->
      allMetas d' = setFirst property name content (allMetas d)
      /\ map m_name (allMetas d') = map m_name (allMetas d)
      /\ map m_property (allMetas d') = map m_property (allMetas d))
  /\ (querySelector property name d = None ->
      head_metas d' = head_metas d ++ [createdMeta property name content]
      /\ later_metas d' = later_metas d)
  /\ updateMetaTag name content property d' = d'
  /\ (Forall oneKey (allMetas d) ->
      Forall oneKey (allMetas d')
      /\ forall property' name',
           (property', name') <> (property, name) ->
           metaContent property' name' d' = metaContent property' name' d).
Proof.
  intros d'. subst d'.
  destruct (updateMetaTag_allMetas name content property d) as [Ht Hq].
  split; [apply metaContent_set|]. split; [exact Ht|].
  split.
  { intros Hsome. destruct (querySelector property name d); [|congruence].
    split; [exact Hq|]. rewrite Hq. apply setFirst_attributes. }
  split.
  { intros Hnone. now rewrite Hnone in Hq. }
  split; [apply updateMetaTag_twice|].
  intros Hone. split; [now apply updateMetaTag_oneKey|].
  intros property' name' Hkey. now apply metaContent_other.
Qed.

Lemma whenSet_given x f d :
  whenSet x f d = match given x with
                  | Some s => f s d
                  | None => d
                  end.
Proof.
  unfold whenSet, given, truthy_str. destruct x as [s|]; [|reflexivity].
  now destruct (String.eqb s EmptyString).
Qed.

Lemma updateMetaTag_title name content property d :
  doc_title (updateMetaTag name content property d) = doc_title d.
Proof. apply updateMetaTag_allMetas. Qed.

(** X23.  The effect of [MetaTags] on a document whose [<meta>]
    elements carry a [name] or a [property], not both: the title becomes the
    given title; [og:url], [og:type] and [twitter:card] are always set; the
    description, keywords, title and image tags hold the given value, and a
    prop that is missing or empty leaves its tags as they were (a tag set
    earlier is not removed). *)
Theorem effect_sets_the_page_tags (p : Props) (d : Document) :
  Forall oneKey (allMetas d) ->
  let d' := effect p d in
  doc_title d' = match given (title p) with
                 | Some t => t
                 | None => doc_title d
                 end
  /\ metaContent false "description" d'
     = orKeep (description p) (metaContent false "description" d)
  /\ metaContent false "keywords" d'
     = orKeep (keywords p) (metaContent false "keywords" d)
  /\ metaContent true "og:title" d'
     = orKeep (title p) (metaContent true "og:title" d)
  /\ metaContent true "og:description" d'
     = orKeep (description p) (metaContent true "og:description" d)
  /\ metaContent true "og:url" d' = Some (url p)
  /\ metaContent true "og:type" d' = Some (type p)
  /\ metaContent true "og:image" d'
     = orKeep (image p) (metaContent true "og:image" d)
  /\ metaContent false "twitter:card" d' = Some "summary_large_image"%string
  /\ metaContent false "twitter:title" d'
     = orKeep (title p) (metaContent false "twitter:title" d)
  /\ metaContent false "twitter:description" d'
     = orKeep (description p) (metaContent false "twitter:description" d)
  /\ metaContent false "twitter:image" d'
     = orKeep (image p) (metaContent false "twitter:image" d)
  /\ Forall oneKey (allMetas d').
Proof.
  intros Hone d'. subst d'. unfold effect, orKeep.
  rewrite !whenSet_given.
  destruct (given (title p)) as [t|];
    destruct (given (description p)) as [ds|];
    destruct (given (keywords p)) as [kw|];
    destruct (given (image p)) as [im|];
    repeat split;
    rewrite ?updateMetaTag_title; try reflexivity;
    try (repeat apply updateMetaTag_oneKey; exact Hone);
    repeat first
      [ rewrite metaContent_set
      | rewrite metaContent_other
          by first [ repeat apply updateMetaTag_oneKey; exact Hone
                   | intros Hkey; discriminate Hkey ] ];
    reflexivity.
Qed.

End Meta.


(** ** More sample runs *)

Section MoreSamples.

Import Uploader.

(** The only server is switched off: a wait of four seconds looks twice,
    refreshes twice and gives up. *)
Lemma waitForCapableServer_outcome_witness :
  (forall t, 0 <= noLag t)
  /\ 4000 <= 32000
  /\ exists r s',
       waitForCapableServer offlineServers noLag 1 noRequirements 4000
         (mkTS 0 []) = Some (r, s')
       /\ r = None /\ clock s' = 4000 /\ trace s' = rounds 2.
Proof.
  split; [exact noLag_nonneg|]. split; [lia|].
  destruct (waitForCapableServer_outcome offlineServers noLag noLag_nonneg
              1 noRequirements 4000 (mkTS 0 []) ltac:(lia))
    as (r & s' & k & Hrun & _).
  exists r, s'. split; [exact Hrun|].
  vm_compute in Hrun. injection Hrun as <- <-.
  split; [reflexivity|]. split; reflexivity.
Defined.

(** [srv-a] is selected at once and stores the chunk. *)
Lemma chunk_stored_at_the_first_try_witness :
  selectAt steadyServers (mkBlob 0 1000) [] 0 = Some (sampleServer "srv-a" 0 1)
  /\ alwaysStored 0 0 (sampleServer "srv-a" 0 1) = JsonBody true None None
  /\ option_map (fun r => List.length (trace (snd r)))
       (processChunk steadyServers noLag alwaysStored (mkBlob 0 1000) 0
          (mkTS 0 []))
     = Some 4%nat.
Proof.
  split; [reflexivity|]. split; [reflexivity|].
  destruct (chunk_stored_at_the_first_try steadyServers noLag alwaysStored
              (mkBlob 0 1000) 0 0 (sampleServer "srv-a" 0 1) None None
              eq_refl eq_refl) as [Hrun _].
  rewrite Hrun. reflexivity.
Defined.

(** Chunk 0 of the sample session is posted to [srv-a], which fits. *)
Lemma chunks_are_posted_to_fit_servers_witness :
  (forall t, 0 <= noLag t)
  /\ (forall ls : list (list Effect), Interleaving ls (sequential ls))
  /\ 0 <= file_size demoFile <= MAX_FILE_SIZE
  /\ uploadServers demoComponent <> []
  /\ exists run,
       handleFileUpload steadyServers noLag alwaysStored sequential
         "upload-1" 0 (Some demoFile) demoComponent = Some run
       /\ In (PostChunk 0 (sampleServer "srv-a" 0 1)) (run_effects run)
       /\ fitFor (blob_size (task_blob (sliceChunk demoFile 0)))
                 (sampleServer "srv-a" 0 1).
Proof.
  split; [exact noLag_nonneg|]. split; [exact sequential_interleaves|].
  split; [exact demoFile_accepted|]. split; [discriminate|].
  destruct (chunks_are_posted_to_fit_servers steadyServers noLag alwaysStored
              sequential noLag_nonneg sequential_interleaves
              "upload-1" 0 demoFile demoComponent demoFile_accepted
              ltac:(discriminate))
    as (run & Hrun & Hfit).
  exists run. split; [exact Hrun|].
  assert (Hin : In (PostChunk 0 (sampleServer "srv-a" 0 1)) (run_effects run)).
  { vm_compute in Hrun. injection Hrun as <-.
    right. right. left. reflexivity. }
  split; [exact Hin|].
  destruct (Hfit 0 (sampleServer "srv-a" 0 1) Hin) as (_ & t1 & _ & _ & H).
  exact H.
Defined.

(** Chunk 1 is refused twice and then stored: waiting, uploading, failed,
    twice over, then waiting, uploading, completed. *)
Lemma chunk_status_changes_in_order_witness :
  (forall t, 0 <= noLag t)
  /\ (forall ls : list (list Effect), Interleaving ls (sequential ls))
  /\ 0 <= file_size demoFile <= MAX_FILE_SIZE
  /\ uploadServers demoComponent <> []
  /\ exists run,
       handleFileUpload steadyServers noLag refusedTwice sequential
         "upload-1" 0 (Some demoFile) demoComponent = Some run
       /\ map u_status (updatesFor 1 (run_effects run))
          = map Some [waiting; uploading; failed; waiting; uploading; failed;
                      waiting; uploading; completed]
       /\ exists sts final,
            map u_status (updatesFor 1 (run_effects run))
            = map Some (sts ++ [final])
            /\ inOrder pending (sts ++ [final]) = true.
Proof.
  split; [exact noLag_nonneg|]. split; [exact sequential_interleaves|].
  split; [exact demoFile_accepted|]. split; [discriminate|].
  destruct (chunk_status_changes_in_order steadyServers noLag refusedTwice
              sequential noLag_nonneg sequential_interleaves
              "upload-1" 0 demoFile demoComponent demoFile_accepted
              ltac:(discriminate))
    as (run & Hrun & _ & Horder).
  exists run. split; [exact Hrun|].
  destruct (Horder 1 ltac:(vm_compute; tauto)) as (sts & final & E & Hord & _).
  split.
  - vm_compute in Hrun. injection Hrun as <-. reflexivity.
  - exists sts, final. now split.
Defined.

(** Every request is stored at once: each chunk shows 100 and names
    [srv-a]. *)
Lemma settled_chunks_record_their_upload_witness :
  (forall t, 0 <= noLag t)
  /\ (forall ls : list (list Effect), Interleaving ls (sequential ls))
  /\ 0 <= file_size demoFile <= MAX_FILE_SIZE
  /\ uploadServers demoComponent <> []
  /\ exists run p,
       handleFileUpload steadyServers noLag alwaysStored sequential
         "upload-1" 0 (Some demoFile) demoComponent = Some run
       /\ fileUpload (run_component run) = Some p
       /\ map (fun ch => (status ch, progress ch, serverId ch, uploadedAt ch))
              (chunks p)
          = [(completed, 100, Some "srv-a"%string, Some 0);
             (completed, 100, Some "srv-a"%string, Some 0);
             (completed, 100, Some "srv-a"%string, Some 0)].
Proof.
  split; [exact noLag_nonneg|]. split; [exact sequential_interleaves|].
  split; [exact demoFile_accepted|]. split; [discriminate|].
  destruct (settled_chunks_record_their_upload steadyServers noLag alwaysStored
              sequential noLag_nonneg sequential_interleaves
              "upload-1" 0 demoFile demoComponent demoFile_accepted
              ltac:(discriminate))
    as (run & p & Hrun & Hp & _).
  exists run, p. split; [exact Hrun|]. split; [exact Hp|].
  vm_compute in Hrun. injection Hrun as <-.
  cbn in Hp. injection Hp as <-. reflexivity.
Defined.

(** Chunk 1 is stored at the third attempt and still carries the message
    of the second refusal. *)
Lemma completed_chunk_keeps_the_last_error_witness :
  (forall t, 0 <= noLag t)
  /\ (forall ls : list (list Effect), Interleaving ls (sequential ls))
  /\ 0 <= file_size demoFile <= MAX_FILE_SIZE
  /\ uploadServers demoComponent <> []
  /\ exists run p,
       handleFileUpload steadyServers noLag refusedTwice sequential
         "upload-1" 0 (Some demoFile) demoComponent = Some run
       /\ fileUpload (run_component run) = Some p
       /\ map (fun ch => (status ch, attempts ch, error ch)) (chunks p)
          = [(completed, 1, None);
             (completed, 3,
              Some "Server responded with 503: Service Unavailable"%string);
             (completed, 1, None)].
Proof.
  split; [exact noLag_nonneg|]. split; [exact sequential_interleaves|].
  split; [exact demoFile_accepted|]. split; [discriminate|].
  destruct (completed_chunk_keeps_the_last_error steadyServers noLag
              refusedTwice sequential noLag_nonneg sequential_interleaves
              "upload-1" 0 demoFile demoComponent demoFile_accepted
              ltac:(discriminate))
    as (run & p & Hrun & Hp & _).
  exists run, p. split; [exact Hrun|]. split; [exact Hp|].
  vm_compute in Hrun. injection Hrun as <-.
  cbn in Hp. injection Hp as <-. reflexivity.
Defined.

(** One of three chunks completed: a third of the way. *)
Lemma overallProgress_is_a_percentage_witness :
  chunks (sessionStart "upload-1" 0 demoFile) <> []
  /\ exists q,
       updateChunkStatus 0 (upCompleted 5 None)
         (Some (sessionStart "upload-1" 0 demoFile)) = Some q
       /\ (overallProgress q == 100 # 3)%Q.
Proof.
  assert (Hne : chunks (sessionStart "upload-1" 0 demoFile) <> [])
    by (vm_compute; discriminate).
  split; [exact Hne|].
  destruct (overallProgress_is_a_percentage 0 (upCompleted 5 None)
              (sessionStart "upload-1" 0 demoFile) Hne)
    as (q & Hq & _).
  exists q. split; [exact Hq|].
  vm_compute in Hq. injection Hq as <-. reflexivity.
Defined.

(** In the sample session the progress after each step is never below the
    progress before it. *)
Lemma progress_never_decreases_witness :
  (forall t, 0 <= noLag t)
  /\ (forall ls : list (list Effect), Interleaving ls (sequential ls))
  /\ 0 <= file_size demoFile <= MAX_FILE_SIZE
  /\ uploadServers demoComponent <> []
  /\ exists run,
       handleFileUpload steadyServers noLag refusedTwice sequential
         "upload-1" 0 (Some demoFile) demoComponent = Some run
       /\ forall pre e post,
            run_effects run = pre ++ e :: post ->
            exists q1 q2,
              fold_left applyEffect pre
                (Some (sessionStart "upload-1" 0 demoFile)) = Some q1
              /\ applyEffect (Some q1) e = Some q2
              /\ (overallProgress q1 <= overallProgress q2)%Q.
Proof.
  split; [exact noLag_nonneg|]. split; [exact sequential_interleaves|].
  split; [exact demoFile_accepted|]. split; [discriminate|].
  destruct (progress_never_decreases steadyServers noLag refusedTwice
              sequential noLag_nonneg sequential_interleaves
              "upload-1" 0 demoFile demoComponent demoFile_accepted
              ltac:(discriminate))
    as (run & Hrun & Hmono).
  exists run. split; [exact Hrun|]. intros pre e post Hsplit.
  destruct (Hmono pre e post Hsplit) as (q1 & q2 & H1 & H2 & _ & _ & Hle & _).
  exists q1, q2. now repeat split.
Defined.

(** Three chunks stored: the badges read 0, 0, 3 and 0. *)
Lemma summary_badges_after_a_session_witness :
  (forall t, 0 <= noLag t)
  /\ (forall ls : list (list Effect), Interleaving ls (sequential ls))
  /\ 0 <= file_size demoFile <= MAX_FILE_SIZE
  /\ uploadServers demoComponent <> []
  /\ exists run p,
       handleFileUpload steadyServers noLag alwaysStored sequential
         "upload-1" 0 (Some demoFile) demoComponent = Some run
       /\ fileUpload (run_component run) = Some p
       /\ UploaderView.summaryStats p = (0, 0, 3, 0).
Proof.
  split; [exact noLag_nonneg|]. split; [exact sequential_interleaves|].
  split; [exact demoFile_accepted|]. split; [discriminate|].
  destruct (summary_badges_after_a_session steadyServers noLag alwaysStored
              sequential noLag_nonneg sequential_interleaves
              "upload-1" 0 demoFile demoComponent demoFile_accepted
              ltac:(discriminate))
    as (run & p & Hrun & Hp & _).
  exists run, p. split; [exact Hrun|]. split; [exact Hp|].
  vm_compute in Hrun. injection Hrun as <-.
  cbn in Hp. injection Hp as <-. reflexivity.
Defined.


(** [srv-a] answers chunk 1 with a 503: the result is a failure with the
    status line as its message. *)
Lemma uploadChunkToServer_always_reports_witness :
  exists result s',
    uploadChunkToServer noLag refusedTwice 1 (sampleServer "srv-a" 0 1)
      (mkTS 0 []) = Some (result, s')
    /\ r_success result = false
    /\ r_error result
       = Some "Server responded with 503: Service Unavailable"%string.
Proof.
  destruct (uploadChunkToServer_always_reports noLag refusedTwice 1
              (sampleServer "srv-a" 0 1) (mkTS 0 []))
    as (result & Hrun & _).
  exists result. eexists. split; [exact Hrun|].
  vm_compute in Hrun. injection Hrun as <-. split; reflexivity.
Defined.

(** No descriptor of the sample session has index 7: an update for it
    changes no chunk. *)
Lemma updateChunkStatus_changes_one_chunk_witness :
  ~ In 7 (map chunkIndex (chunks (sessionStart "upload-1" 0 demoFile)))
  /\ exists q,
       updateChunkStatus 7 upNoServer
         (Some (sessionStart "upload-1" 0 demoFile)) = Some q
       /\ chunks q = chunks (sessionStart "upload-1" 0 demoFile).
Proof.
  assert (Hout : ~ In 7 (map chunkIndex
                           (chunks (sessionStart "upload-1" 0 demoFile)))).
  { vm_compute. intros [H|[H|[H|[]]]]; discriminate H. }
  split; [exact Hout|].
  destruct (updateChunkStatus_changes_one_chunk 7 upNoServer
              (sessionStart "upload-1" 0 demoFile))
    as (_ & q & Hq & _ & _ & _ & Hsame & _).
  exists q. split; [exact Hq|]. now apply Hsame.
Defined.

(** Forty-five chunks go out in batches of 20, 20 and 5. *)
Lemma batches_bound_concurrency_witness :
  exists batches,
    batchLoop (Z.to_nat 45) demoFile 45 0 = Some batches
    /\ map (fun b => (batch_start b, batch_end b,
                      List.length (batch_tasks b))) batches
       = [(0, 20, 20%nat); (20, 40, 20%nat); (40, 45, 5%nat)].
Proof.
  destruct (batches_bound_concurrency demoFile 45) as (batches & Hrun & _).
  exists batches. split; [exact Hrun|].
  vm_compute in Hrun. injection Hrun as <-. reflexivity.
Defined.

(** A response time of 1.5 seconds scores like one of 3 seconds. *)
Lemma serverScore_saturates_witness :
  (1000 <=? 1500)%float = true
  /\ (1000 <=? 3000)%float = true
  /\ serverScore noRequirements (withResponseTime busyServer 1500)
     = serverScore noRequirements (withResponseTime busyServer 3000).
Proof.
  assert (H1 : (1000 <=? 1500)%float = true) by reflexivity.
  assert (H2 : (1000 <=? 3000)%float = true) by reflexivity.
  split; [exact H1|]. split; [exact H2|].
  destruct (serverScore_saturates noRequirements busyServer) as (_ & Hrt & _).
  now apply Hrt.
Defined.

(** An empty file on a loaded registry: the session is completed at
    once. *)
Lemma handleFileUpload_edge_cases_witness :
  uploadServers demoComponent <> []
  /\ file_size emptyFile = 0
  /\ exists p,
       handleFileUpload steadyServers noLag alwaysStored sequential
         "upload-3" 0 (Some emptyFile) demoComponent
       = Some (mkRun [] (mkComponent (uploadServers demoComponent) (Some p)
                                     false) [] [])
       /\ sessionStatus p = s_completed.
Proof.
  split; [discriminate|]. split; [reflexivity|].
  destruct (handleFileUpload_edge_cases steadyServers noLag alwaysStored
              sequential "upload-3" 0 emptyFile demoComponent)
    as (_ & _ & Hempty).
  destruct (Hempty ltac:(discriminate) eq_refl)
    as (p & Hrun & _ & _ & Hst & _).
  exists p. now split.
Defined.

End MoreSamples.

(** Five bytes give ten digits. *)
Lemma checksum_is_two_hex_digits_per_byte_witness :
  Forall isByte sampleDigest
  /\ UploadForm.hashHex sampleDigest = "000f10ffab"%string
  /\ String.length (UploadForm.hashHex sampleDigest) = 10%nat.
Proof.
  assert (Hb : Forall isByte sampleDigest)
    by (repeat constructor; unfold isByte; lia).
  split; [exact Hb|]. split; [reflexivity|].
  destruct (checksum_is_two_hex_digits_per_byte sampleDigest emptyForm Hb)
    as (_ & _ & Hlen & _).
  exact Hlen.
Defined.

(** A file of 1000 bytes, selected on the empty form with the server out of
    reach, is uploaded whole with its checksum. *)
Lemma selected_file_is_uploaded_with_its_checksum_witness :
  file_size smallFile <= FileUpload.MAX_FILE_SIZE
  /\ Forall isByte (digestOf smallFile)
  /\ digestOf smallFile <> []
  /\ resumeRequired "forum-1" unreachableEndpoint
       (UploadForm.hashHex (digestOf smallFile)) = false
  /\ snd (FileUpload.handleUpload "forum-1" unreachableEndpoint
            (UploadForm.onSelectedFile digestOf
               (fst (fst (FileUpload.handleFileSelect (Some smallFile)
                            emptyForm)))))
     = Some [ ("file"%string, FileUpload.FilePart "notes.txt" 1000);
              ("forumId"%string, FileUpload.TextPart "forum-1");
              ("checksum"%string, FileUpload.TextPart "000f10ffab") ].
Proof.
  assert (Hsize : file_size smallFile <= FileUpload.MAX_FILE_SIZE)
    by (vm_compute; discriminate).
  assert (Hb : Forall isByte (digestOf smallFile))
    by (repeat constructor; unfold isByte; lia).
  assert (Hne : digestOf smallFile <> []) by discriminate.
  split; [exact Hsize|]. split; [exact Hb|]. split; [exact Hne|].
  split; [reflexivity|].
  destruct (selected_file_is_uploaded_with_its_checksum "forum-1"
              unreachableEndpoint digestOf smallFile emptyForm
              Hsize Hb Hne eq_refl) as (_ & _ & _ & Hsent).
  rewrite Hsent. reflexivity.
Defined.

(** The server reports a partial upload: Upload, Start Over, Upload ends
    where the first Upload did, and nothing was sent. *)
Lemma start_over_leads_back_to_the_resume_dialog_witness :
  FileUpload.selectedFile (freshForm demoFile) = Some demoFile
  /\ FileUpload.fileChecksum (freshForm demoFile) = Some "9f2c"%string
  /\ "9f2c"%string <> EmptyString
  /\ resumeRequired "forum-1" resumingEndpoint "9f2c" = true
  /\ FileUpload.handleUpload "forum-1" resumingEndpoint
       (UploadForm.handleCancelResume
          (fst (FileUpload.handleUpload "forum-1" resumingEndpoint
                  (freshForm demoFile))))
     = (resumeForm demoFile, None).
Proof.
  split; [reflexivity|]. split; [reflexivity|]. split; [discriminate|].
  split; [reflexivity|].
  destruct (start_over_leads_back_to_the_resume_dialog "forum-1"
              resumingEndpoint (freshForm demoFile) demoFile "9f2c"
              eq_refl eq_refl ltac:(discriminate) eq_refl)
    as (_ & _ & _ & _ & _ & Hagain & _).
  rewrite Hagain. reflexivity.
Defined.

(** Five seconds before the end, a skip of ten seconds lands on the
    end. *)
Lemma skipTime_stays_within_the_video_witness :
  VideoPreview.videoRef samplePlayer = Some (VideoPreview.mkVideo 95 100 1)
  /\ (0 <= VideoPreview.duration samplePlayer)%Q
  /\ exists t,
       elementTime (VideoPreview.skipTime 10 samplePlayer) = Some t
       /\ (t == 100)%Q.
Proof.
  split; [reflexivity|].
  assert (Hd : (0 <= VideoPreview.duration samplePlayer)%Q)
    by (vm_compute; discriminate).
  split; [exact Hd|].
  destruct (skipTime_stays_within_the_video 10 samplePlayer
              (VideoPreview.mkVideo 95 100 1) eq_refl Hd)
    as (t & Ht & _ & _ & _ & Hend & _).
  exists t. split; [exact Ht|]. apply Hend. vm_compute. discriminate.
Defined.

(** 125.5 seconds are shown as 2:05. *)
Lemma formatTime_shows_minutes_and_seconds_witness :
  (0 <= 251 # 2)%Q
  /\ (251 # 2 < inject_Z (2 ^ 53))%Q
  /\ VideoPreview.formatTime (251 # 2) = "2:05"%string.
Proof.
  assert (H : (0 <= 251 # 2)%Q) by (vm_compute; discriminate).
  assert (B : (251 # 2 < inject_Z (2 ^ 53))%Q) by (vm_compute; reflexivity).
  split; [exact H|]. split; [exact B|].
  destruct (formatTime_shows_minutes_and_seconds (251 # 2) H B) as (E & _).
  rewrite E. reflexivity.
Defined.

(** The page has a description tag: it is rewritten, the others are
    created, and no keywords tag appears. *)
Lemma effect_sets_the_page_tags_witness :
  Forall oneKey (allMetas samplePage)
  /\ metaContent false "description" (MetaTags.effect sampleProps samplePage)
     = Some "Shared files"%string
  /\ metaContent true "og:title" (MetaTags.effect sampleProps samplePage)
     = Some "Uploads"%string
  /\ metaContent false "keywords" (MetaTags.effect sampleProps samplePage)
     = None.
Proof.
  assert (H : Forall oneKey (allMetas samplePage))
    by (repeat constructor; right; reflexivity).
  split; [exact H|].
  destruct (effect_sets_the_page_tags sampleProps samplePage H)
    as (_ & Hd & Hk & Ht & _).
  rewrite Hd, Hk, Ht. repeat split.
Defined.


(** With a partial upload reported nothing is sent; with the server out
    of reach the upload goes ahead. *)
Lemma handleUpload_sends_unless_resume_is_required_witness :
  snd (FileUpload.handleUpload "forum-1" resumingEndpoint (freshForm demoFile))
  = None
  /\ exists body,
       snd (FileUpload.handleUpload "forum-1" unreachableEndpoint
              (freshForm demoFile))
       = Some body.
Proof.
  destruct (handleUpload_sends_unless_resume_is_required "forum-1"
              resumingEndpoint (freshForm demoFile)) as [Hiff _].
  split.
  - apply Hiff. right. right. exists "9f2c"%string. split; reflexivity.
  - eexists. reflexivity.
Defined.

(** A status of 500 rejects the upload and names the status; a network
    error rejects it as well. *)
Lemma upload_settlement_updates_the_form_witness :
  ~ 200 <= 500 < 300
  /\ UploadForm.onLoad 500 true
     = UploadForm.RejectedWith "Upload failed with status 500"
  /\ snd (UploadForm.settle UploadForm.onXhrError (freshForm demoFile))
     = [FileUpload.UploadFailed "Upload failed"].
Proof.
  assert (Hout : ~ 200 <= 500 < 300) by lia.
  split; [exact Hout|].
  destruct (upload_settlement_updates_the_form "forum-1" unreachableEndpoint
              500 true true "Upload failed" (freshForm demoFile))
    as (_ & _ & H & _ & _ & Htoast & _).
  split; [rewrite (H Hout); reflexivity|exact Htoast].
Defined.

(** The slider is moved to one half, then the player is muted: the
    element is silent and the slider shows 0. *)
Lemma volume_slider_shows_the_element_volume_witness :
  exists v,
    elementVolume
      (afterControls [VideoPreview.VolumeChange (1 # 2); VideoPreview.ToggleMute]
                     (VideoPreview.mounted 100))
    = Some v
    /\ (v == 0)%Q.
Proof.
  destruct (volume_slider_shows_the_element_volume 100
              [VideoPreview.VolumeChange (1 # 2); VideoPreview.ToggleMute])
    as ((v & Hv & _ & Hmuted) & _).
  exists v. split; [exact Hv|]. apply Hmuted. reflexivity.
Defined.

(** The description tag of the sample page is rewritten in place. *)
Lemma updateMetaTag_sets_or_creates_witness :
  MetaTags.querySelector false "description" samplePage <> None
  /\ metaContent false "description"
       (MetaTags.updateMetaTag "description" "new" false samplePage)
     = Some "new"%string
  /\ map MetaTags.m_name
       (allMetas (MetaTags.updateMetaTag "description" "new" false samplePage))
     = map MetaTags.m_name (allMetas samplePage).
Proof.
  assert (Hq : MetaTags.querySelector false "description" samplePage <> None)
    by (vm_compute; discriminate).
  split; [exact Hq|].
  destruct (updateMetaTag_sets_or_creates "description" "new" false samplePage)
    as (Hset & _ & Hfound & _).
  split; [exact Hset|]. now destruct (Hfound Hq) as (_ & Hn & _).
Defined.
